(** * MarinaBillingSystem: a shallow embedding of MarinaBillingSystem.c

    The C program keeps an array of at most [MAX_BOATS] boat records, reads it
    from a comma separated file, sorts it by name with the C library's [qsort],
    and applies payments and monthly charges to the balances.

    Conventions of the embedding.
    - A C string is the list of its bytes before the terminating NUL
      ([chars]); functions that read a [char*] stop at the first NUL ([cstr]).
    - [int] is a 32 bit and [long] a 64 bit two's complement integer, both
      carried as a [Z]; a number too large for [atoi] or [%d] is converted as
      the GNU C library does it ([strtol] saturates, the value is then cut to
      an [int]).
    - [double] is IEEE 754 binary64, carried as a [spec_float] and computed
      with the operations of [SpecFloat] at precision 53 and [emax] 1024.
    - The active part [boats[0 .. numBoats-1]] of the manager is a [list Boat];
      every writer stores a freshly allocated record there, so the active part
      never holds a NULL pointer.  [malloc] is taken to succeed.
    - [qsort], [sscanf], [fprintf], [fgets] and [atoi] belong to the C library.
      The conversions are written out here for the formats the program uses;
      [qsort] is known only through its contract ([Libc_qsort]).
    - Text typed by the user is an argument of the operation that reads it. *)

From Stdlib Require Import ZArith List Bool Ascii String Lia Permutation Sorted.
From Stdlib Require Import SpecFloat.
Import ListNotations.

Local Open Scope Z_scope.

(** ** Characters and C strings *)

Definition chars : Type := list ascii.

(** A string literal of the source. *)
Definition str (s : string) : chars := list_ascii_of_string s.

Definition code (c : ascii) : Z := Z.of_N (N_of_ascii c).

Definition NUL : ascii := ascii_of_N 0.
Definition comma : ascii := ascii_of_N 44.
Definition newline : ascii := ascii_of_N 10.
Definition minus : ascii := ascii_of_N 45.
Definition period : ascii := ascii_of_N 46.

Definition is_nul (c : ascii) : bool := code c =? 0.
Definition is_comma (c : ascii) : bool := code c =? 44.
Definition is_newline (c : ascii) : bool := code c =? 10.

(** [isspace], [isdigit], [isupper] and [tolower] of <ctype.h> in the "C"
    locale (the program never calls [setlocale]). *)
Definition isspace (c : ascii) : bool :=
  (code c =? 32) || ((9 <=? code c) && (code c <=? 13)).

Definition isdigit (c : ascii) : bool := (48 <=? code c) && (code c <=? 57).

Definition isupper (c : ascii) : bool := (65 <=? code c) && (code c <=? 90).

Definition tolower (c : ascii) : ascii :=
  if isupper c then ascii_of_N (N_of_ascii c + 32) else c.

(** The bytes of a buffer up to, and without, its first NUL. *)
Fixpoint cstr (s : chars) : chars :=
  match s with
  | [] => []
  | c :: t => if is_nul c then [] else c :: cstr t
  end.

(** [*p] for a pointer [p] into a C string: the terminator once the bytes are
    used up. *)
Definition cur (s : chars) : ascii :=
  match s with
  | [] => NUL
  | c :: _ => c
  end.

(** [strcmp(a, b) == 0]. *)
Fixpoint streq (a b : chars) : bool :=
  match a, b with
  | [], [] => true
  | x :: a', y :: b' => (code x =? code y) && streq a' b'
  | _, _ => false
  end.

(** [strncpy(dst, src, n); dst[n] = '\0';] leaves the first [n] bytes of the C
    string [src] in [dst]. *)
Definition strncpy (n : nat) (src : chars) : chars := firstn n (cstr src).

(** [s[strcspn(s, "\n")] = '\0';] cuts the C string at its first newline. *)
Fixpoint chomp (s : chars) : chars :=
  match s with
  | [] => []
  | c :: t => if is_nul c || is_newline c then [] else c :: chomp t
  end.

(** ** Numbers *)

Definition INT_MIN : Z := - 2 ^ 31.
Definition INT_MAX : Z := 2 ^ 31 - 1.
Definition LONG_MIN : Z := - 2 ^ 63.
Definition LONG_MAX : Z := 2 ^ 63 - 1.

(** Conversion of a [long] to [int]: the low 32 bits, read as two's
    complement. *)
Definition to_int (v : Z) : Z := (v + 2 ^ 31) mod 2 ^ 32 - 2 ^ 31.

(** [strtol] saturates at the bounds of [long]. *)
Definition clamp_long (v : Z) : Z := Z.max LONG_MIN (Z.min LONG_MAX v).

Definition double : Type := spec_float.

Definition prec : Z := 53.
Definition emax : Z := 1024.

Definition dadd : double -> double -> double := SFadd prec emax.
Definition dsub : double -> double -> double := SFsub prec emax.
Definition dmul : double -> double -> double := SFmul prec emax.

(** [a < b] and [a > b] on doubles; both are false when an operand is NaN. *)
Definition dlt (a b : double) : bool := SFltb a b.
Definition dgt (a b : double) : bool := SFltb b a.
Definition dle (a b : double) : bool := SFleb a b.

Definition dzero : double := S754_zero false.

Definition is_finite (x : double) : bool :=
  match x with
  | S754_zero _ | S754_finite _ _ _ => true
  | _ => false
  end.

(** Conversion of an [int] to [double] (exact, an [int] has 32 bits). *)
Definition double_of_int (n : Z) : double := binary_normalize prec emax n 0 false.

(** The double nearest to [(-1)^neg * m * 10^e10], ties to even: the value of a
    decimal constant of the source and of decimal text read by [strtod]. *)
Definition decimal_to_double (neg : bool) (m : Z) (e10 : Z) : double :=
  match m with
  | Z0 => S754_zero neg
  | Zneg _ => S754_nan
  | Zpos p =>
      match e10 with
      | Zneg k =>
          let '(q, e, l) := SFdiv_core_binary prec emax m 0 (Z.pow_pos 10 k) 0 in
          binary_round_aux prec emax neg q e l
      | _ => binary_normalize prec emax (if neg then - (m * 10 ^ e10) else m * 10 ^ e10) 0 neg
      end
  end.

(** The double [(-1)^neg * m * 2^e2] rounded to nearest: hexadecimal text read
    by [strtod]. *)
Definition binary_to_double (neg : bool) (m : Z) (e2 : Z) : double :=
  binary_normalize prec emax (if neg then - m else m) e2 neg.

(** ** Constant definitions *)

Definition MAX_BOATS : Z := 120.
Definition MAX_NAME : Z := 128.
Definition MONTH_SLIP : double := decimal_to_double false 1250 (-2).
Definition MONTH_LAND : double := decimal_to_double false 1400 (-2).
Definition MONTH_TRAILOR : double := decimal_to_double false 2500 (-2).
Definition MONTH_STORAGE : double := decimal_to_double false 1120 (-2).

(** ** Type definitions *)

Inductive LocationType : Type := SLIP | LAND | TRAILOR | STORAGE.

(** The union [LocationDetail]; the member in use is the one [createBoat]
    wrote. *)
Inductive LocationDetail : Type :=
| slipNumber (n : Z)
| bayLetter (c : ascii)
| licenseTag (t : chars)
| storageNum (n : Z).

Record Boat : Type := mkBoat {
  name : chars;
  length : Z;
  locType : LocationType;
  detail : LocationDetail;
  amountOwed : double
}.

(** The active part of [manager->boats]; [numBoats] is its size. *)
Record BoatManager : Type := mkManager { boats : list Boat }.

Definition numBoats (manager : BoatManager) : Z :=
  Z.of_nat (List.length (boats manager)).

(** [main] starts from [numBoats = 0]. *)
Definition empty_manager : BoatManager := mkManager [].

(** ** parseLocationType, caseInsensitiveCompare, locationTypeString *)

Definition parseLocationType (locStr : chars) : LocationType :=
  let lower := map tolower (firstn 31 (cstr locStr)) in
  if streq lower (str "slip") then SLIP
  else if streq lower (str "land") then LAND
  else if streq lower (str "trailor") then TRAILOR
  else if streq lower (str "storage") then STORAGE
  else SLIP.

(** The loop of [caseInsensitiveCompare]; both pointers advance only while the
    folded bytes agree and are not NUL, so neither string is used up before
    the other in the recursive call. *)
Fixpoint caseInsensitiveCompare (a b : chars) : Z :=
  let ca := code (tolower (cur a)) in
  let cb := code (tolower (cur b)) in
  if ca <? cb then -1
  else if cb <? ca then 1
  else if ca =? 0 then 0
  else match a, b with
       | _ :: a', _ :: b' => caseInsensitiveCompare a' b'
       | _, _ => 0
       end.

Definition locationTypeString (t : LocationType) : chars :=
  match t with
  | SLIP => str "slip"
  | LAND => str "land"
  | TRAILOR => str "trailor"
  | STORAGE => str "storage"
  end.

(** ** sortBoatsByName

    [boatCompareByName] orders two slots of the array by the names of the
    records they point to (its NULL cases do not arise on the active part). *)
Definition boatCompareByName (b1 b2 : Boat) : Z :=
  caseInsensitiveCompare (name b1) (name b2).

(** What the C standard asks of a comparison function handed to [qsort]:
    swapping the arguments swaps the sign, and the order is transitive. *)
Definition consistent {A : Type} (cmp : A -> A -> Z) : Prop :=
  (forall x y, Z.sgn (cmp y x) = - Z.sgn (cmp x y)) /\
  (forall x y z, cmp x y <= 0 -> cmp y z <= 0 -> cmp x z <= 0).

Definition ascending {A : Type} (cmp : A -> A -> Z) (l : list A) : Prop :=
  StronglySorted (fun x y => cmp x y <= 0) l.

(** [qsort] of <stdlib.h>, by its contract: the array is rearranged into
    ascending order according to the comparison function.  The standard leaves
    the order of elements that compare equal unspecified. *)
Class Libc_qsort : Type := {
  qsort : forall {A : Type}, (A -> A -> Z) -> list A -> list A;
  qsort_permutation :
    forall (A : Type) (cmp : A -> A -> Z) (l : list A),
      consistent cmp -> Permutation l (qsort cmp l);
  qsort_ascending :
    forall (A : Type) (cmp : A -> A -> Z) (l : list A),
      consistent cmp -> ascending cmp (qsort cmp l)
}.

Definition sortBoatsByName `{Libc_qsort} (manager : BoatManager) : BoatManager :=
  mkManager (qsort boatCompareByName (boats manager)).

(** A sorting procedure that meets the contract, by insertion: an element is
    placed before the first element it is not greater than.  It shows that
    the contract can be met and stands for [qsort] where a run on explicit
    data needs one. *)
Fixpoint insert_before {A : Type} (cmp : A -> A -> Z) (x : A) (l : list A) : list A :=
  match l with
  | [] => [x]
  | y :: t => if cmp x y <=? 0 then x :: l else y :: insert_before cmp x t
  end.

Definition insertion_sort {A : Type} (cmp : A -> A -> Z) (l : list A) : list A :=
  fold_right (insert_before cmp) [] l.

(** ** Text conversions of the C library *)

Fixpoint skip_ws (s : chars) : chars :=
  match s with
  | c :: t => if isspace c then skip_ws t else s
  | [] => []
  end.

(** The decimal digits at the head of [s], accumulated onto [acc], and the
    text after them. *)
Fixpoint scan_digits (s : chars) (acc : Z) : Z * chars :=
  match s with
  | c :: t => if isdigit c then scan_digits t (acc * 10 + (code c - 48)) else (acc, s)
  | [] => (acc, s)
  end.

(** An optional sign. *)
Definition scan_sign (s : chars) : bool * chars :=
  match s with
  | c :: t => if code c =? 45 then (true, t)
              else if code c =? 43 then (false, t) else (false, s)
  | [] => (false, s)
  end.

(** [strtol(s, &end, 10)]: white space, an optional sign, decimal digits; the
    value saturates at the bounds of [long].  [None] when there is no digit. *)
Definition strtol (s : chars) : option (Z * chars) :=
  let '(neg, s') := scan_sign (skip_ws s) in
  if isdigit (cur s') then
    let '(v, rest) := scan_digits s' 0 in
    Some (clamp_long (if neg then - v else v), rest)
  else None.

(** [atoi(s)] is [(int) strtol(s, NULL, 10)], which is 0 when no digits are
    found. *)
Definition atoi (s : chars) : Z :=
  match strtol (cstr s) with
  | Some (v, _) => to_int v
  | None => 0
  end.

(** The [%d] conversion of [sscanf]. *)
Definition scan_int (s : chars) : option (Z * chars) :=
  match strtol s with
  | Some (v, rest) => Some (to_int v, rest)
  | None => None
  end.

(** The text at the head of [s] up to the first comma: the [%[^,]]
    conversion, which fails on an empty match. *)
Fixpoint scan_field (s : chars) : chars * chars :=
  match s with
  | c :: t => if is_comma c then ([], s)
              else let '(f, rest) := scan_field t in (c :: f, rest)
  | [] => ([], [])
  end.

(** The word [w] (given in lower case) at the head of [s], letter case
    ignored; the text after it. *)
Fixpoint scan_word (w s : chars) : option chars :=
  match w with
  | [] => Some s
  | x :: w' =>
      match s with
      | c :: t => if code (tolower c) =? code x then scan_word w' t else None
      | [] => None
      end
  end.

Definition hexval (c : ascii) : option Z :=
  let k := code (tolower c) in
  if isdigit c then Some (code c - 48)
  else if (97 <=? k) && (k <=? 102) then Some (k - 87)
  else None.

Fixpoint scan_hexdigits (s : chars) (acc : Z) : Z * chars :=
  match s with
  | c :: t => match hexval c with
              | Some d => scan_hexdigits t (acc * 16 + d)
              | None => (acc, s)
              end
  | [] => (acc, s)
  end.

(** Number of bytes consumed between [s] and its suffix [rest]. *)
Definition consumed (s rest : chars) : Z :=
  Z.of_nat (List.length s) - Z.of_nat (List.length rest).

Definition is_nchar (c : ascii) : bool :=
  let k := code (tolower c) in
  isdigit c || ((97 <=? k) && (k <=? 122)) || (code c =? 95).

Fixpoint skip_nchars (s : chars) : chars :=
  match s with
  | c :: t => if is_nchar c then skip_nchars t else s
  | [] => []
  end.

(** An optional exponent part introduced by the letter with code [mark]:
    [Some (e, rest)], with [e = 0] when the part is absent, or [None] when the
    letter is there without digits after it. *)
Definition scan_exponent (mark : Z) (s : chars) : option (Z * chars) :=
  match s with
  | c :: t =>
      if code (tolower c) =? mark then
        let '(eneg, s') := scan_sign t in
        if isdigit (cur s') then
          let '(e, rest) := scan_digits s' 0 in
          Some (if eneg then - e else e, rest)
        else None
      else Some (0, s)
  | [] => Some (0, s)
  end.

(** A run of digits with at most one period in it: the integer the digits
    spell, how many of them follow the period, how many there are, and the
    text after the run. *)
Definition scan_mantissa (digits : chars -> Z -> Z * chars) (s : chars)
  : Z * Z * Z * chars :=
  let '(ip, r1) := digits s 0 in
  match r1 with
  | c :: t =>
      if code c =? 46 then
        let '(m, r2) := digits t ip in
        (m, consumed t r2, consumed s r1 + consumed t r2, r2)
      else (ip, 0, consumed s r1, r1)
  | [] => (ip, 0, consumed s r1, r1)
  end.

(** The [%lf] conversion of [sscanf]: white space, an optional sign, then
    [inf], [infinity], [nan], [nan(...)], a hexadecimal or a decimal floating
    constant.  The item read is the longest prefix of such a constant, and the
    conversion fails when the item is not a complete one. *)
Definition scan_double (s : chars) : option (double * chars) :=
  let '(neg, s1) := scan_sign (skip_ws s) in
  let c := code (tolower (cur s1)) in
  if c =? 105 then
    match scan_word (str "inf") s1 with
    | Some r =>
        if code (tolower (cur r)) =? 105 then
          match scan_word (str "inity") r with
          | Some r' => Some (S754_infinity neg, r')
          | None => None
          end
        else Some (S754_infinity neg, r)
    | None => None
    end
  else if c =? 110 then
    match scan_word (str "nan") s1 with
    | Some r =>
        if code (cur r) =? 40 then
          let r' := skip_nchars (tl r) in
          if code (cur r') =? 41 then Some (S754_nan, tl r') else None
        else Some (S754_nan, r)
    | None => None
    end
  else if (c =? 48) && (code (tolower (cur (tl s1))) =? 120) then
    let '(m, nfrac, ndigits, r) := scan_mantissa scan_hexdigits (tl (tl s1)) in
    if ndigits =? 0 then None
    else match scan_exponent 112 r with
         | Some (e, rest) => Some (binary_to_double neg m (e - 4 * nfrac), rest)
         | None => None
         end
  else
    let '(m, nfrac, ndigits, r) := scan_mantissa scan_digits s1 in
    if ndigits =? 0 then None
    else match scan_exponent 101 r with
         | Some (e, rest) => Some (decimal_to_double neg m (e - nfrac), rest)
         | None => None
         end.

(** What [sscanf(line, " %[^,],%d,%[^,],%[^,],%lf", boatName, &length, locStr,
    detailStr, &owed)] does: its return value when that is not 5, the five
    values stored when it is 5, or a [%[^,]] item that does not fit its buffer
    ([boatName[128]], [locStr[32]], [detailStr[64]]), which is undefined
    behaviour. *)
Inductive sscanf_result : Type :=
| Returned (n : Z)
| Fields (boatName : chars) (len : Z) (locStr detailStr : chars) (owed : double)
| Overrun.

Definition EOF : Z := -1.

Definition nonempty (s : chars) : bool :=
  match s with [] => false | _ => true end.

Definition fits (s : chars) (size : Z) : bool := Z.of_nat (List.length s) <? size.

Definition sscanf_boat (line : chars) : sscanf_result :=
  let s0 := skip_ws (cstr line) in
  if negb (nonempty s0) then Returned EOF else
  let '(boatName, s1) := scan_field s0 in
  if negb (nonempty boatName) then Returned 0 else
  if negb (fits boatName 128) then Overrun else
  if negb (is_comma (cur s1)) then Returned 1 else
  match scan_int (tl s1) with
  | None => Returned 1
  | Some (len, s2) =>
      if negb (is_comma (cur s2)) then Returned 2 else
      let '(locStr, s3) := scan_field (tl s2) in
      if negb (nonempty locStr) then Returned 2 else
      if negb (fits locStr 32) then Overrun else
      if negb (is_comma (cur s3)) then Returned 3 else
      let '(detailStr, s4) := scan_field (tl s3) in
      if negb (nonempty detailStr) then Returned 3 else
      if negb (fits detailStr 64) then Overrun else
      if negb (is_comma (cur s4)) then Returned 4 else
      match scan_double (tl s4) with
      | None => Returned 4
      | Some (owed, _) => Fields boatName len locStr detailStr owed
      end
  end.

(** [%d]: a decimal integer. *)
Definition digit_char (d : Z) : ascii := ascii_of_N (Z.to_N (48 + d)).

Fixpoint fmt_digits (fuel : nat) (n : Z) (acc : chars) : chars :=
  match fuel with
  | O => acc
  | S f => if n <? 10 then digit_char n :: acc
           else fmt_digits f (n / 10) (digit_char (n mod 10) :: acc)
  end.

Definition fmt_nat (n : Z) : chars := fmt_digits (S (Z.to_nat (Z.log2 n))) n [].

Definition fmt_d (n : Z) : chars :=
  if n <? 0 then minus :: fmt_nat (- n) else fmt_nat n.

(** The integer nearest to [n / d] for [d > 0], ties to even. *)
Definition round_half_even (n d : Z) : Z :=
  let q := n / d in
  match 2 * (n mod d) ?= d with
  | Lt => q
  | Gt => q + 1
  | Eq => if Z.even q then q else q + 1
  end.

(** [|x| * 100] rounded to an integer, for a finite [x]. *)
Definition hundredths (x : double) : Z :=
  match x with
  | S754_finite _ m e =>
      match e with
      | Zneg k => round_half_even (100 * Zpos m) (Z.pow_pos 2 k)
      | _ => 100 * Zpos m * 2 ^ e
      end
  | _ => 0
  end.

Definition sign_bit (x : double) : bool :=
  match x with
  | S754_zero s | S754_infinity s | S754_finite s _ _ => s
  | S754_nan => false
  end.

(** [%.2f]: the exact value rounded to two decimals. *)
Definition fmt_2f (x : double) : chars :=
  (if sign_bit x then [minus] else []) ++
  match x with
  | S754_nan => str "nan"
  | S754_infinity _ => str "inf"
  | _ => let h := hundredths x in
         fmt_nat (h / 100) ++ [period; digit_char (h mod 100 / 10); digit_char (h mod 10)]
  end.

(** ** createBoat *)

Definition createBoat (name : chars) (length : Z) (locType : LocationType)
    (detailStr : chars) (owed : double) : Boat :=
  mkBoat (strncpy 127 name) length locType
    (match locType with
     | SLIP => slipNumber (atoi detailStr)
     | LAND => bayLetter (cur detailStr)
     | TRAILOR => licenseTag (strncpy 31 detailStr)
     | STORAGE => storageNum (atoi detailStr)
     end)
    owed.

(** ** loadFromCSV *)

(** [fgets(line, size, fp)] on the unread bytes [fp] of a stream: NULL at end
    of file, otherwise the bytes up to and with the first newline, at most
    [size - 1] of them, and the bytes left unread. *)
Fixpoint fgets_bytes (room : nat) (fp : chars) : chars * chars :=
  match room, fp with
  | S room', c :: t =>
      if is_newline c then ([c], t)
      else let '(line, rest) := fgets_bytes room' t in (c :: line, rest)
  | _, _ => ([], fp)
  end.

Definition fgets (size : nat) (fp : chars) : option (chars * chars) :=
  match fp with
  | [] => None
  | _ => Some (fgets_bytes (size - 1) fp)
  end.

(** The lines that successive calls [fgets(line, 512, fp)] return until the
    call that returns NULL; [room] is the space left in the line being read. *)
Fixpoint fgets_lines (room : nat) (fp : chars) : list chars :=
  match fp with
  | [] => []
  | c :: t =>
      if is_newline c || (Nat.eqb room 1) then [c] :: fgets_lines 511 t
      else match fgets_lines (room - 1) t with
           | [] => [[c]]
           | line :: rest => (c :: line) :: rest
           end
  end.

(** The body of the [while] loop for one line; [None] is the undefined
    behaviour of a field that overruns its buffer. *)
Definition load_line (manager : BoatManager) (line : chars) : option BoatManager :=
  match sscanf_boat line with
  | Fields boatName len locStr detailStr owed =>
      let b := createBoat boatName len (parseLocationType locStr) detailStr owed in
      if numBoats manager <? MAX_BOATS
      then Some (mkManager (boats manager ++ [b]))
      else Some manager
  | Returned _ => Some manager
  | Overrun => None
  end.

Fixpoint load_lines (manager : BoatManager) (lines : list chars) : option BoatManager :=
  match lines with
  | [] => Some manager
  | line :: rest =>
      match load_line manager line with
      | Some manager' => load_lines manager' rest
      | None => None
      end
  end.

(** [file] is the content of the file named [filename], or [None] when
    [fopen] fails. *)
Definition loadFromCSV `{Libc_qsort} (manager : BoatManager) (file : option chars)
  : option BoatManager :=
  match file with
  | None => Some manager
  | Some fp =>
      match load_lines manager (fgets_lines 511 fp) with
      | Some manager' => Some (sortBoatsByName manager')
      | None => None
      end
  end.

(** ** saveToCSV *)

(** The members of the union as [saveToCSV] reads them. *)
Definition detail_int (d : LocationDetail) : Z :=
  match d with
  | slipNumber n | storageNum n => n
  | _ => 0
  end.

Definition detail_bayLetter (d : LocationDetail) : ascii :=
  match d with
  | bayLetter c => c
  | _ => NUL
  end.

Definition detail_licenseTag (d : LocationDetail) : chars :=
  match d with
  | licenseTag t => t
  | _ => []
  end.

(** The line one [fprintf] of [saveToCSV] writes. *)
Definition fprintf_boat (b : Boat) : chars :=
  cstr (name b) ++ [comma] ++ fmt_d (length b) ++ [comma] ++
  match locType b with
  | SLIP => str "slip," ++ fmt_d (detail_int (detail b))
  | LAND => str "land," ++ [detail_bayLetter (detail b)]
  | TRAILOR => str "trailor," ++ cstr (detail_licenseTag (detail b))
  | STORAGE => str "storage," ++ fmt_d (detail_int (detail b))
  end ++ [comma] ++ fmt_2f (amountOwed b) ++ [newline].

(** The bytes [saveToCSV] writes to the file it has opened. *)
Definition saveToCSV (manager : BoatManager) : chars :=
  List.concat (map fprintf_boat (boats manager)).

(** ** findBoatIndex *)

Fixpoint find_from (l : list Boat) (name0 : chars) (i : Z) : Z :=
  match l with
  | [] => -1
  | b :: t => if caseInsensitiveCompare (name b) name0 =? 0 then i
              else find_from t name0 (i + 1)
  end.

Definition findBoatIndex (manager : BoatManager) (name : chars) : Z :=
  find_from (boats manager) name 0.

(** ** addBoat *)

Inductive AddStatus : Type :=
| Added
| AddNoInput          (* fgets returned NULL *)
| InvalidCSV          (* "Invalid CSV format." *)
| ArrayFull.          (* "Cannot add new boat: array is full." *)

(** [input] is what [fgets(line, 512, stdin)] gives: [None] for NULL. *)
Definition addBoat `{Libc_qsort} (manager : BoatManager) (input : option chars)
  : option (AddStatus * BoatManager) :=
  match input with
  | None => Some (AddNoInput, manager)
  | Some line =>
      match sscanf_boat (chomp line) with
      | Overrun => None
      | Returned _ => Some (InvalidCSV, manager)
      | Fields boatName len locStr detailStr owed =>
          if numBoats manager >=? MAX_BOATS then Some (ArrayFull, manager)
          else
            let b := createBoat boatName len (parseLocationType locStr) detailStr owed in
            Some (Added, sortBoatsByName (mkManager (boats manager ++ [b])))
      end
  end.

(** ** removeBoat *)

Inductive RemoveStatus : Type :=
| Removed
| RemoveNoInput       (* fgets returned NULL *)
| RemoveNoBoat.       (* "No boat with that name" *)

(** The array after the loop that shifts the slots above [idx] down by one. *)
Definition shift_left (idx : Z) (l : list Boat) : list Boat :=
  firstn (Z.to_nat idx) l ++ skipn (S (Z.to_nat idx)) l.

Definition removeBoat `{Libc_qsort} (manager : BoatManager) (input : option chars)
  : RemoveStatus * BoatManager :=
  match input with
  | None => (RemoveNoInput, manager)
  | Some buf =>
      let idx := findBoatIndex manager (chomp buf) in
      if idx <? 0 then (RemoveNoBoat, manager)
      else (Removed, sortBoatsByName (mkManager (shift_left idx (boats manager))))
  end.

(** ** acceptPayment *)

Inductive PaymentStatus : Type :=
| Paid
| PaymentNoInput      (* fgets returned NULL *)
| PaymentNoBoat       (* "No boat with that name" *)
| PaymentNoAmount     (* scanf did not read a number *)
| MoreThanOwed.       (* "That is more than the amount owed" *)

(** The record [b] after [b->amountOwed = v]. *)
Definition set_owed (b : Boat) (v : double) : Boat :=
  mkBoat (name b) (length b) (locType b) (detail b) v.

(** The array after [manager->boats[idx]->amountOwed = v]. *)
Fixpoint set_amountOwed (idx : nat) (v : double) (l : list Boat) : list Boat :=
  match l, idx with
  | [], _ => []
  | b :: t, O => set_owed b v :: t
  | b :: t, S i => b :: set_amountOwed i v t
  end.

(** [input] is what [fgets(name, 128, stdin)] gives, [amount] what
    [scanf("%lf", &payment)] stores, [None] when it does not return 1. *)
Definition acceptPayment (manager : BoatManager) (input : option chars)
    (amount : option double) : PaymentStatus * BoatManager :=
  match input with
  | None => (PaymentNoInput, manager)
  | Some buf =>
      let idx := findBoatIndex manager (chomp buf) in
      if idx <? 0 then (PaymentNoBoat, manager)
      else
        match amount with
        | None => (PaymentNoAmount, manager)
        | Some payment =>
            match nth_error (boats manager) (Z.to_nat idx) with
            | None => (PaymentNoBoat, manager)   (* idx < numBoats: not reached *)
            | Some b =>
                if dgt payment (amountOwed b) then (MoreThanOwed, manager)
                else (Paid, mkManager (set_amountOwed (Z.to_nat idx)
                                         (dsub (amountOwed b) payment) (boats manager)))
            end
        end
  end.

(** ** monthlyUpdate *)

(** The [switch] that computes [charge]. *)
Definition charge (b : Boat) : double :=
  match locType b with
  | SLIP => dmul MONTH_SLIP (double_of_int (length b))
  | LAND => dmul MONTH_LAND (double_of_int (length b))
  | TRAILOR => dmul MONTH_TRAILOR (double_of_int (length b))
  | STORAGE => dmul MONTH_STORAGE (double_of_int (length b))
  end.

(** The [for] loop with [n] iterations to go, the next one at index [i]. *)
Fixpoint monthly_loop (n : nat) (i : nat) (l : list Boat) : list Boat :=
  match n with
  | O => l
  | S n' =>
      match nth_error l i with
      | Some b => monthly_loop n' (S i) (set_amountOwed i (dadd (amountOwed b) (charge b)) l)
      | None => l
      end
  end.

Definition monthlyUpdate (manager : BoatManager) : BoatManager :=
  mkManager (monthly_loop (List.length (boats manager)) 0 (boats manager)).

(** ** Vocabulary of the statements *)

(** The name as the comparison sees it: the bytes before the first NUL, each
    folded to lower case. *)
Definition fold_key (a : chars) : list Z := map (fun c => code (tolower c)) (cstr a).

(** Lexicographic comparison of two keys, a proper prefix being smaller. *)
Fixpoint lex (k1 k2 : list Z) : Z :=
  match k1, k2 with
  | [], [] => 0
  | [], _ :: _ => -1
  | _ :: _, [] => 1
  | x :: t1, y :: t2 => if x <? y then -1 else if y <? x then 1 else lex t1 t2
  end.

(** The monthly rate per foot of each kind of location. *)
Definition rate (t : LocationType) : double :=
  match t with
  | SLIP => MONTH_SLIP
  | LAND => MONTH_LAND
  | TRAILOR => MONTH_TRAILOR
  | STORAGE => MONTH_STORAGE
  end.

(** No record of [l] has a name that compares equal to [name0]. *)
Definition no_match (name0 : chars) (l : list Boat) : Prop :=
  forall b, In b l -> caseInsensitiveCompare (name b) name0 <> 0.

(** [b] is the first record of the array whose name compares equal to
    [name0]; [pre] are the records before it and [post] those after it. *)
Definition first_match (name0 : chars) (l pre : list Boat) (b : Boat) (post : list Boat) : Prop :=
  l = pre ++ b :: post /\ no_match name0 pre /\ caseInsensitiveCompare (name b) name0 = 0.

(** The number a run of decimal digits spells when read after [acc]. *)
Fixpoint horner (ds : chars) (acc : Z) : Z :=
  match ds with
  | [] => acc
  | c :: t => horner t (acc * 10 + (code c - 48))
  end.

(** A byte that can stand inside a field of a line of the file. *)
Definition plain (c : ascii) : bool :=
  negb (is_nul c) && negb (is_comma c) && negb (is_newline c).

(** Text that [%[^,]] reads back whole into a buffer of [size] bytes: not
    empty, free of NUL, comma and newline, shorter than the buffer. *)
Definition field_text (s : chars) (size : Z) : bool :=
  nonempty s && forallb plain s && fits s size.

(** The number of commas of a line. *)
Definition commas (s : chars) : nat := List.length (filter is_comma s).

(** A line as [fgets] returns it whole: at most 511 bytes, a newline at the
    end and nowhere else. *)
Definition whole_line (line : chars) : Prop :=
  exists body, line = body ++ [newline] /\
               Forall (fun c => is_newline c = false) body /\
               (List.length line <= 511)%nat.

(** The detail of a record as [saveToCSV] prints it. *)
Definition detail_text (b : Boat) : chars :=
  match locType b with
  | SLIP | STORAGE => fmt_d (detail_int (detail b))
  | LAND => [detail_bayLetter (detail b)]
  | TRAILOR => cstr (detail_licenseTag (detail b))
  end.

(** The same double, bit for bit (NaN is one value here). *)
Definition double_same (x y : double) : bool :=
  match x, y with
  | S754_zero a, S754_zero b => Bool.eqb a b
  | S754_infinity a, S754_infinity b => Bool.eqb a b
  | S754_nan, S754_nan => true
  | S754_finite a m e, S754_finite b m' e' => Bool.eqb a b && Pos.eqb m m' && (e =? e')
  | _, _ => false
  end.

(** A balance that [%lf] reads back from its own [%.2f] text. *)
Definition two_decimal (x : double) : bool :=
  match scan_double (fmt_2f x ++ [newline]) with
  | Some (y, _) => double_same x y
  | None => false
  end.

Definition in_int (n : Z) : bool := (INT_MIN <=? n) && (n <=? INT_MAX).

(** The records [createBoat] can make from a line of the file and that the
    file gives back: the name is a field text that does not start with white
    space, the detail is the member of the union that goes with the kind (a
    bay letter and a license tag being field texts too), the numbers are
    [int]s, and the balance is a double ([valid_binary]: its mantissa and
    exponent are those of a binary64 number) that its two-decimal text gives
    back. *)
Definition storable (b : Boat) : bool :=
  field_text (name b) 128 && negb (isspace (cur (name b))) &&
  in_int (length b) &&
  match locType b, detail b with
  | SLIP, slipNumber n => in_int n
  | STORAGE, storageNum n => in_int n
  | LAND, bayLetter c => plain c
  | TRAILOR, licenseTag t => field_text t 32
  | _, _ => false
  end &&
  valid_binary prec emax (amountOwed b) && two_decimal (amountOwed b).

(** ** Sample data *)

(** The line "Big Brother,20,slip,27,1200.00" as a record. *)
Definition big_brother : Boat :=
  mkBoat (str "Big Brother") 20 SLIP (slipNumber 27) (decimal_to_double false 120000 (-2)).

(** Two records whose names differ in letter case only. *)
Definition anna_slip : Boat :=
  mkBoat (str "Anna") 30 SLIP (slipNumber 3) (decimal_to_double false 10000 (-2)).

Definition anna_land : Boat :=
  mkBoat (str "ANNA") 25 LAND (bayLetter (ascii_of_N 67)) (decimal_to_double false 0 0).

(** A record owing 2^53 = 9007199254740992. *)
Definition leviathan : Boat :=
  mkBoat (str "Leviathan") 99 STORAGE (storageNum 1) (decimal_to_double false 9007199254740992 0).

(** The line "Skiff,3,storage,1,0.00" as a record. *)
Definition skiff : Boat :=
  mkBoat (str "Skiff") 3 STORAGE (storageNum 1) dzero.

(** The line "Titanic,882,slip,1,inf" as a record: it owes infinity. *)
Definition titanic : Boat :=
  mkBoat (str "Titanic") 882 SLIP (slipNumber 1) (S754_infinity false).

(** The line "Anna,30,slip,3,-100.00" as a record: it is owed 100. *)
Definition anna_debt : Boat :=
  mkBoat (str "Anna") 30 SLIP (slipNumber 3) (decimal_to_double true 10000 (-2)).

(** * The rest of the program *)

(** ** boatCompareByName on the slots of the array

    The comparison function as [qsort] calls it, on two slots that hold a
    pointer to a record or NULL ([None]); NULL slots are pushed to the end. *)
Definition boatCompareByName_slots (p1 p2 : option Boat) : Z :=
  match p1, p2 with
  | None, None => 0
  | None, Some _ => 1
  | Some _, None => -1
  | Some b1, Some b2 => caseInsensitiveCompare (name b1) (name b2)
  end.

(** ** printInventory *)

Definition space : ascii := ascii_of_N 32.

(** A conversion with a minimum field width: [%2d], [%6s], [%7.2f] pad on the
    left, [%-22s] pads on the right; text wider than the field is printed
    whole. *)
Definition pad_left (width : nat) (s : chars) : chars :=
  repeat space (width - List.length s) ++ s.

Definition pad_right (width : nat) (s : chars) : chars :=
  s ++ repeat space (width - List.length s).

(** The line the two [printf] calls of the loop body print for one record. *)
Definition printf_boat (b : Boat) : chars :=
  pad_right 22 (cstr (name b)) ++ [space] ++ pad_left 2 (fmt_d (length b)) ++ str "' " ++
  match locType b with
  | SLIP => str "   slip   # " ++ pad_left 2 (fmt_d (detail_int (detail b)))
  | LAND => str "   land      " ++ [detail_bayLetter (detail b)]
  | TRAILOR => str "trailor " ++ pad_left 6 (cstr (detail_licenseTag (detail b)))
  | STORAGE => str "storage   # " ++ pad_left 2 (fmt_d (detail_int (detail b)))
  end ++ str "   Owes $" ++ pad_left 7 (fmt_2f (amountOwed b)) ++ [newline].

(** The bytes [printInventory] writes to the standard output. *)
Definition printInventory (manager : BoatManager) : chars :=
  List.concat (map printf_boat (boats manager)) ++ [newline].

(** ** freeAllBoats *)

Definition freeAllBoats (manager : BoatManager) : BoatManager := mkManager [].

(** ** main

    One turn of the menu loop: the line [fgets(cmd, 32, stdin)] returned, and
    what the operation chosen then reads: a line for [addBoat], [removeBoat]
    and [acceptPayment]; for [acceptPayment] also the number that
    [scanf("%lf", &payment)] stores, and whether a newline is still to come
    in the input after that call.  The end of the list of turns is the call of
    [fgets] that returns NULL. *)
Record Turn : Type := mkTurn {
  typed_cmd : chars;
  typed_line : option chars;
  typed_amount : option double;
  typed_newline : bool
}.

(** What a run comes to: it returns with a result; or a field overruns its
    buffer and the behaviour is undefined; or it never returns. *)
Inductive Run (A : Type) : Type :=
| Done (a : A)
| Undefined
| Hangs.
Arguments Done {A} a.
Arguments Undefined {A}.
Arguments Hangs {A}.

(** The [while (1)] loop of [main]: the store with which the loop is left,
    through the option [x] or at the end of the input.  [acceptPayment], once
    it has called [scanf], runs [while (getchar() != '\n') { }] on either
    branch: the loop ends at the next newline of the input and never ends
    when there is none. *)
Fixpoint menu_loop `{Libc_qsort} (manager : BoatManager) (turns : list Turn)
  : Run BoatManager :=
  match turns with
  | [] => Done manager
  | t :: rest =>
      match chomp (typed_cmd t) with
      | [] => menu_loop manager rest
      | c0 :: _ =>
          let c := code (tolower c0) in
          if c =? 105 then menu_loop manager rest
          else if c =? 97 then
            match addBoat manager (typed_line t) with
            | Some (_, manager') => menu_loop manager' rest
            | None => Undefined
            end
          else if c =? 114 then
            menu_loop (snd (removeBoat manager (typed_line t))) rest
          else if c =? 112 then
            match acceptPayment manager (typed_line t) (typed_amount t) with
            | (PaymentNoInput, manager') | (PaymentNoBoat, manager') =>
                menu_loop manager' rest
            | (_, manager') =>
                if typed_newline t then menu_loop manager' rest else Hangs
            end
          else if c =? 109 then menu_loop (monthlyUpdate manager) rest
          else if c =? 120 then Done manager
          else menu_loop manager rest
      end
  end.

(** [main] with the file name given: the file is loaded, the menu loop runs,
    and the store is saved on leaving the loop; the result is the content
    [saveToCSV] gives the file, which is taken to open for writing. *)
Definition main `{Libc_qsort} (file : option chars) (turns : list Turn) : Run chars :=
  match loadFromCSV empty_manager file with
  | Some manager =>
      match menu_loop manager turns with
      | Done manager' => Done (saveToCSV manager')
      | Undefined => Undefined
      | Hangs => Hangs
      end
  | None => Undefined
  end.

(** ** Further vocabulary *)

(** How many records of [l] have a name that compares equal to [name0]. *)
Definition count_matches (name0 : chars) (l : list Boat) : nat :=
  List.length (filter (fun b => caseInsensitiveCompare (name b) name0 =? 0) l).

(** A line of [fgets]: not empty, at most 511 bytes, no newline before its
    last byte. *)
Definition fgets_line (line : chars) : Prop :=
  line <> [] /\ (List.length line <= 511)%nat /\
  Forall (fun c => is_newline c = false) (removelast line).

(** The record without its balance. *)
Definition forget_balance (b : Boat) : Boat := set_owed b dzero.

(** [r] is what is left of [s] after some bytes of it were read. *)
Definition suffix (r s : chars) : Prop := exists p, s = p ++ r.

(** A byte that a [%[^,]] conversion stores: any byte but NUL and comma. *)
Definition field_byte (c : ascii) : bool := negb (is_nul c) && negb (is_comma c).

(** Text that a [%[^,]] conversion stores in a buffer of [size] bytes. *)
Definition scanned_text (s : chars) (size : Z) : bool :=
  nonempty s && forallb field_byte s && fits s size.

(** The shape of the records that [createBoat] makes from the fields of a
    line: the name is a non-empty text of at most 127 bytes without NUL or
    comma that does not start with white space, the length is an [int], and
    the detail is the member of the union that goes with the kind: an [int]
    for a slip and for storage, a byte that is not NUL or comma for land, a
    non-empty text of at most 31 such bytes for a trailer. *)
Definition record_ok (b : Boat) : bool :=
  scanned_text (name b) 128 && negb (isspace (cur (name b))) &&
  in_int (length b) &&
  match locType b, detail b with
  | SLIP, slipNumber n => in_int n
  | STORAGE, storageNum n => in_int n
  | LAND, bayLetter c => field_byte c
  | TRAILOR, licenseTag t => scanned_text t 32
  | _, _ => false
  end.

(** The state of the store between two operations of the menu: within the
    capacity, made of well-shaped records, in ascending order of name. *)
Definition store_ok (manager : BoatManager) : Prop :=
  numBoats manager <= MAX_BOATS /\
  Forall (fun b => record_ok b = true) (boats manager) /\
  ascending boatCompareByName (boats manager).

(** A turn whose command is the option [x] of the menu, in either case. *)
Definition is_exit (t : Turn) : bool :=
  match chomp (typed_cmd t) with
  | c0 :: _ => code (tolower c0) =? 120
  | [] => false
  end.

(** A record that fits the columns of [printInventory]: a name of at most 22
    bytes, a length from 0 to 99, the member of the union that goes with the
    kind, a slip or storage number from 0 to 99, a license tag of at most 6
    bytes, and a balance whose two-decimal text has at most 7 bytes. *)
Definition tabular (b : Boat) : bool :=
  (List.length (cstr (name b)) <=? 22)%nat &&
  (0 <=? length b) && (length b <=? 99) &&
  match locType b, detail b with
  | SLIP, slipNumber n | STORAGE, storageNum n => (0 <=? n) && (n <=? 99)
  | LAND, bayLetter _ => true
  | TRAILOR, licenseTag t => (List.length (cstr t) <=? 6)%nat
  | _, _ => false
  end &&
  (List.length (fmt_2f (amountOwed b)) <=? 7)%nat.

(** The double that [%lf] reads from the text that [%.2f] prints for [x]:
    the double nearest to the hundredths of [x] over 100. *)
Definition two_decimal_value (x : double) : double :=
  match x with
  | S754_nan => S754_nan
  | S754_infinity s => S754_infinity s
  | _ => decimal_to_double (sign_bit x) (hundredths x) (-2)
  end.

(** The records that a line of the file can carry, whatever their balance:
    as [storable], without the condition that the balance is the value of its
    own two-decimal text. *)
Definition writable (b : Boat) : bool :=
  field_text (name b) 128 && negb (isspace (cur (name b))) &&
  in_int (length b) &&
  match locType b, detail b with
  | SLIP, slipNumber n => in_int n
  | STORAGE, storageNum n => in_int n
  | LAND, bayLetter c => plain c
  | TRAILOR, licenseTag t => field_text t 32
  | _, _ => false
  end &&
  valid_binary prec emax (amountOwed b).

(** The record with its balance replaced by the value of its two-decimal
    text. *)
Definition reread (b : Boat) : Boat := set_owed b (two_decimal_value (amountOwed b)).

(** A turn whose line, typed for [addBoat], has a field that overruns the
    buffer [sscanf] stores it in. *)
Definition turn_overruns (t : Turn) : Prop :=
  exists line, typed_line t = Some line /\ sscanf_boat (chomp line) = Overrun.

(** * Properties of the embedding *)

Arguments code : simpl never.
Arguments tolower : simpl never.
Arguments isdigit : simpl never.
Arguments isspace : simpl never.
Arguments is_nul : simpl never.
Arguments is_comma : simpl never.
Arguments is_newline : simpl never.
Arguments plain : simpl never.

(** ** Characters *)

Lemma code_range (c : ascii) : 0 <= code c < 256.
Proof.
  unfold code. pose proof (N_ascii_bounded c). lia.
Qed.

Lemma code_inj (x y : ascii) : code x = code y -> x = y.
Proof.
  unfold code. intros E. apply N2Z.inj in E.
  rewrite <- (ascii_N_embedding x), <- (ascii_N_embedding y). now rewrite E.
Qed.

Lemma streq_eq (a b : chars) : streq a b = true <-> a = b.
Proof.
  revert b. induction a as [|x a IH]; intros [|y b]; simpl; split; try congruence.
  - intros E. apply andb_true_iff in E. destruct E as [E1 E2].
    apply Z.eqb_eq, code_inj in E1. apply IH in E2. congruence.
  - intros E. injection E as -> ->. rewrite Z.eqb_refl. simpl. now apply IH.
Qed.

Lemma tolower_nul (c : ascii) : code (tolower c) = 0 <-> code c = 0.
Proof.
  destruct c as [[] [] [] [] [] [] [] []]; vm_compute; split; congruence.
Qed.

Lemma tolower_idem (c : ascii) : tolower (tolower c) = tolower c.
Proof.
  destruct c as [[] [] [] [] [] [] [] []]; reflexivity.
Qed.

(** ** caseInsensitiveCompare is the lexicographic order of the folded names *)

Lemma caseInsensitiveCompare_unfold (a b : chars) :
  caseInsensitiveCompare a b =
  let ca := code (tolower (cur a)) in
  let cb := code (tolower (cur b)) in
  if ca <? cb then -1
  else if cb <? ca then 1
  else if ca =? 0 then 0
  else match a, b with
       | _ :: a', _ :: b' => caseInsensitiveCompare a' b'
       | _, _ => 0
       end.
Proof. destruct a; reflexivity. Qed.

Lemma fold_key_nil : fold_key [] = [].
Proof. reflexivity. Qed.

Lemma fold_key_cons (c : ascii) (t : chars) :
  fold_key (c :: t) = if code c =? 0 then [] else code (tolower c) :: fold_key t.
Proof.
  unfold fold_key. simpl. unfold is_nul. now destruct (code c =? 0).
Qed.

Lemma tolower_code_pos (c : ascii) : code c <> 0 -> 0 < code (tolower c).
Proof.
  intros Hc. pose proof (code_range (tolower c)).
  assert (code (tolower c) <> 0) by (now rewrite tolower_nul). lia.
Qed.

Lemma caseInsensitiveCompare_lex (a b : chars) :
  caseInsensitiveCompare a b = lex (fold_key a) (fold_key b).
Proof.
  revert b. induction a as [|x a IH]; intros [|y b];
    rewrite caseInsensitiveCompare_unfold; cbv zeta; unfold cur;
    rewrite ?fold_key_nil, ?fold_key_cons;
    change (code (tolower NUL)) with 0.
  - reflexivity.
  - destruct (Z.eqb_spec (code y) 0) as [E|E].
    + apply tolower_nul in E. rewrite E. reflexivity.
    + apply tolower_code_pos in E. simpl.
      destruct (Z.ltb_spec 0 (code (tolower y))); [reflexivity | lia].
  - destruct (Z.eqb_spec (code x) 0) as [E|E].
    + apply tolower_nul in E. rewrite E. reflexivity.
    + apply tolower_code_pos in E. simpl.
      destruct (Z.ltb_spec (code (tolower x)) 0); [lia|].
      destruct (Z.ltb_spec 0 (code (tolower x))); [reflexivity | lia].
  - destruct (Z.eqb_spec (code x) 0) as [Ex|Ex];
      destruct (Z.eqb_spec (code y) 0) as [Ey|Ey].
    + apply tolower_nul in Ex, Ey. rewrite Ex, Ey. reflexivity.
    + apply tolower_nul in Ex. apply tolower_code_pos in Ey. rewrite Ex. simpl.
      destruct (Z.ltb_spec 0 (code (tolower y))); [reflexivity | lia].
    + apply tolower_nul in Ey. apply tolower_code_pos in Ex. rewrite Ey. simpl.
      destruct (Z.ltb_spec (code (tolower x)) 0); [lia|].
      destruct (Z.ltb_spec 0 (code (tolower x))); [reflexivity | lia].
    + apply tolower_code_pos in Ex. simpl.
      destruct (Z.ltb_spec (code (tolower x)) (code (tolower y))); [reflexivity|].
      destruct (Z.ltb_spec (code (tolower y)) (code (tolower x))); [reflexivity|].
      destruct (Z.eqb_spec (code (tolower x)) 0); [lia|]. apply IH.
Qed.

Lemma lex_values (k1 k2 : list Z) : lex k1 k2 = -1 \/ lex k1 k2 = 0 \/ lex k1 k2 = 1.
Proof.
  revert k2. induction k1 as [|x k1 IH]; intros [|y k2]; simpl; auto.
  destruct (x <? y); auto. destruct (y <? x); auto.
Qed.

Lemma lex_swap (k1 k2 : list Z) : lex k2 k1 = - lex k1 k2.
Proof.
  revert k2. induction k1 as [|x k1 IH]; intros [|y k2]; simpl; auto.
  destruct (Z.ltb_spec x y), (Z.ltb_spec y x); try lia. apply IH.
Qed.

Lemma lex_eq (k1 k2 : list Z) : lex k1 k2 = 0 <-> k1 = k2.
Proof.
  revert k2. induction k1 as [|x k1 IH]; intros [|y k2]; simpl; split;
    try congruence; try lia.
  - destruct (Z.ltb_spec x y); [lia|]. destruct (Z.ltb_spec y x); [lia|].
    intros E. apply IH in E. f_equal; [lia | assumption].
  - intros E. injection E as -> ->. rewrite Z.ltb_irrefl. now apply IH.
Qed.

Lemma lex_trans (k1 k2 k3 : list Z) :
  lex k1 k2 <= 0 -> lex k2 k3 <= 0 -> lex k1 k3 <= 0.
Proof.
  revert k2 k3. induction k1 as [|x k1 IH]; intros [|y k2] [|z k3]; simpl; try lia.
  destruct (Z.ltb_spec x y), (Z.ltb_spec y x), (Z.ltb_spec y z), (Z.ltb_spec z y),
    (Z.ltb_spec x z), (Z.ltb_spec z x); try lia.
  apply IH.
Qed.

Lemma boatCompareByName_consistent : consistent boatCompareByName.
Proof.
  split; unfold boatCompareByName; intros; rewrite !caseInsensitiveCompare_lex in *.
  - rewrite lex_swap. now rewrite Z.sgn_opp.
  - eapply lex_trans; eassumption.
Qed.

(** Two names compare equal exactly when they agree up to letter case. *)
Lemma caseInsensitiveCompare_eq (a b : chars) :
  caseInsensitiveCompare a b = 0 <-> map tolower (cstr a) = map tolower (cstr b).
Proof.
  rewrite caseInsensitiveCompare_lex, lex_eq. unfold fold_key.
  rewrite <- !(map_map tolower code). split.
  - generalize (map tolower (cstr a)) (map tolower (cstr b)).
    induction l as [|x l IH]; intros [|y l']; simpl; try congruence.
    intros E. injection E as E1 E2. apply code_inj in E1. f_equal; auto.
  - now intros ->.
Qed.

(** ** A sorting procedure that meets the contract of qsort *)

Section Insertion.
Context {A : Type} (cmp : A -> A -> Z).
Hypothesis cmp_ok : consistent cmp.

Lemma cmp_flip (x y : A) : 0 <= cmp x y -> cmp y x <= 0.
Proof.
  destruct cmp_ok as [Hs _]. intros H. specialize (Hs x y).
  pose proof (Z.sgn_nonneg (cmp x y)) as [_ P]. specialize (P H).
  apply Z.sgn_nonpos. lia.
Qed.

Lemma insert_before_perm (x : A) (l : list A) :
  Permutation (x :: l) (insert_before cmp x l).
Proof.
  induction l as [|y t IH]; simpl; [reflexivity|].
  destruct (cmp x y <=? 0); [reflexivity|].
  rewrite perm_swap. now apply perm_skip.
Qed.

Lemma ascending_cons (x y : A) (t : list A) :
  cmp x y <= 0 -> ascending cmp (y :: t) -> ascending cmp (x :: y :: t).
Proof.
  intros Hxy Hs. constructor; [assumption|].
  inversion Hs as [|? ? Ht Hall]; subst. constructor; [assumption|].
  destruct cmp_ok as [_ Htr].
  eapply Forall_impl; [|exact Hall]. intros z Hz. now apply (Htr x y z).
Qed.

Lemma insert_before_ascending (x : A) (l : list A) :
  ascending cmp l -> ascending cmp (insert_before cmp x l).
Proof.
  induction l as [|y t IH]; simpl; intros Hs.
  - repeat constructor.
  - destruct (Z.leb_spec (cmp x y) 0) as [H|H].
    + now apply ascending_cons.
    + inversion Hs as [|? ? Ht Hall]; subst. constructor; [now apply IH|].
      eapply Permutation_Forall; [apply insert_before_perm|].
      constructor; [apply cmp_flip; lia | assumption].
Qed.

Lemma insertion_sort_perm (l : list A) : Permutation l (insertion_sort cmp l).
Proof.
  induction l as [|x t IH]; simpl; [reflexivity|].
  rewrite <- insert_before_perm. now apply perm_skip.
Qed.

Lemma insertion_sort_ascending (l : list A) : ascending cmp (insertion_sort cmp l).
Proof.
  induction l as [|x t IH]; simpl; [constructor | now apply insert_before_ascending].
Qed.

End Insertion.

Definition insertion_qsort : Libc_qsort :=
  {| qsort := @insertion_sort;
     qsort_permutation := fun A cmp l H => insertion_sort_perm cmp l;
     qsort_ascending := fun A cmp l H => insertion_sort_ascending cmp H l |}.

(** ** sortBoatsByName *)

Lemma sortBoatsByName_perm `{Libc_qsort} (manager : BoatManager) :
  Permutation (boats manager) (boats (sortBoatsByName manager)).
Proof. apply qsort_permutation, boatCompareByName_consistent. Qed.

Lemma sortBoatsByName_ascending `{Libc_qsort} (manager : BoatManager) :
  ascending boatCompareByName (boats (sortBoatsByName manager)).
Proof. apply qsort_ascending, boatCompareByName_consistent. Qed.

Lemma sortBoatsByName_numBoats `{Libc_qsort} (manager : BoatManager) :
  numBoats (sortBoatsByName manager) = numBoats manager.
Proof.
  unfold numBoats. f_equal. symmetry. apply Permutation_length, sortBoatsByName_perm.
Qed.

(** ** findBoatIndex *)

Lemma find_from_no_match (l : list Boat) (name0 : chars) (i : Z) :
  no_match name0 l -> find_from l name0 i = -1.
Proof.
  revert i. induction l as [|b t IH]; intros i Hn; simpl; [reflexivity|].
  destruct (Z.eqb_spec (caseInsensitiveCompare (name b) name0) 0) as [E|E].
  - exfalso. apply (Hn b); [now left | assumption].
  - apply IH. intros x Hx. apply Hn. now right.
Qed.

Lemma find_from_first_match (l pre : list Boat) (b : Boat) (post : list Boat)
    (name0 : chars) (i : Z) :
  first_match name0 l pre b post ->
  find_from l name0 i = i + Z.of_nat (List.length pre).
Proof.
  intros (-> & Hn & Hb). revert i. induction pre as [|x pre IH]; intros i; simpl.
  - rewrite Hb. simpl. lia.
  - destruct (Z.eqb_spec (caseInsensitiveCompare (name x) name0) 0) as [E|E].
    + exfalso. apply (Hn x); [now left | assumption].
    + rewrite IH; [lia|]. intros y Hy. apply Hn. now right.
Qed.

(** The search either finds no record or stops at the first match. *)
Lemma find_from_cases (l : list Boat) (name0 : chars) :
  no_match name0 l \/ exists pre b post, first_match name0 l pre b post.
Proof.
  induction l as [|x t IH].
  - left. intros b [].
  - destruct (Z.eq_dec (caseInsensitiveCompare (name x) name0) 0) as [E|E].
    + right. exists [], x, t. repeat split; [intros b [] | assumption].
    + destruct IH as [IH | (pre & b & post & -> & Hn & Hb)].
      * left. intros b [<- | Hb]; [assumption | now apply IH].
      * right. exists (x :: pre), b, post. repeat split; [|assumption].
        intros y [<- | Hy]; [assumption | now apply Hn].
Qed.

Lemma nth_error_middle {A : Type} (pre : list A) (b : A) (post : list A) :
  nth_error (pre ++ b :: post) (List.length pre) = Some b.
Proof. induction pre; simpl; auto. Qed.

Lemma set_amountOwed_middle (pre : list Boat) (b : Boat) (post : list Boat) (v : double) :
  set_amountOwed (List.length pre) v (pre ++ b :: post) = pre ++ set_owed b v :: post.
Proof. induction pre; simpl; congruence. Qed.

(** ** Doubles *)

Lemma dsub_diag (x : double) : is_finite x = true -> dsub x x = dzero.
Proof.
  destruct x as [[] | | | s m e]; try discriminate; intros _; try reflexivity.
  unfold dsub, SFsub. rewrite Z.min_id. unfold shl_align. rewrite Z.sub_diag.
  reflexivity.
Qed.

Lemma negative_not_above_nonnegative (payment owed : double) :
  dlt payment dzero = true -> dle dzero owed = true -> dgt payment owed = false.
Proof.
  unfold dlt, dle, dgt, dzero, SFltb, SFleb.
  destruct payment as [? | [] | | [] ? ?], owed as [? | [] | | [] ? ?];
    simpl; congruence.
Qed.

(** ** acceptPayment *)

Lemma acceptPayment_no_match (manager : BoatManager) (buf : chars) (amount : option double) :
  no_match (chomp buf) (boats manager) ->
  acceptPayment manager (Some buf) amount = (PaymentNoBoat, manager).
Proof.
  intros Hn. unfold acceptPayment, findBoatIndex.
  now rewrite (find_from_no_match _ _ _ Hn).
Qed.

Lemma acceptPayment_first_match (manager : BoatManager) (buf : chars) (payment : double)
    (pre : list Boat) (b : Boat) (post : list Boat) :
  first_match (chomp buf) (boats manager) pre b post ->
  acceptPayment manager (Some buf) (Some payment) =
    if dgt payment (amountOwed b) then (MoreThanOwed, manager)
    else (Paid, mkManager (pre ++ set_owed b (dsub (amountOwed b) payment) :: post)).
Proof.
  intros Hm. unfold acceptPayment, findBoatIndex.
  rewrite (find_from_first_match _ _ _ _ _ 0 Hm). destruct Hm as (E & _ & _).
  replace (0 + Z.of_nat (List.length pre) <? 0) with false by (symmetry; apply Z.ltb_ge; lia).
  rewrite Z.add_0_l, Nat2Z.id, E, nth_error_middle, set_amountOwed_middle.
  reflexivity.
Qed.

(** C1 as amended.  [acceptPayment] answers "No boat with that name" and
    leaves the store as it is when no record's name compares equal, ignoring
    letter case, to the name typed.  Otherwise it looks at the first such
    record: it answers "more than the amount owed", again leaving the store as
    it is, exactly when [payment > amountOwed]; in every other case the record
    keeps its name, length, kind and detail, its balance becomes the double
    [amountOwed - payment], and nothing else is touched.  Paying exactly a
    finite balance therefore succeeds and leaves the balance at zero. *)
Theorem acceptPayment_spec (manager : BoatManager) (buf : chars) (payment : double) :
  (no_match (chomp buf) (boats manager) ->
     acceptPayment manager (Some buf) (Some payment) = (PaymentNoBoat, manager))
  /\
  (forall pre b post,
     first_match (chomp buf) (boats manager) pre b post ->
     (dgt payment (amountOwed b) = true <->
        acceptPayment manager (Some buf) (Some payment) = (MoreThanOwed, manager)) /\
     (dgt payment (amountOwed b) = false ->
        acceptPayment manager (Some buf) (Some payment) =
          (Paid, mkManager (pre ++ mkBoat (name b) (length b) (locType b) (detail b)
                                     (dsub (amountOwed b) payment) :: post))) /\
     (payment = amountOwed b -> is_finite payment = true ->
        acceptPayment manager (Some buf) (Some payment) =
          (Paid, mkManager (pre ++ mkBoat (name b) (length b) (locType b) (detail b) dzero
                                :: post)))).
Proof.
  split; [apply acceptPayment_no_match|].
  intros pre b post Hm. rewrite (acceptPayment_first_match _ _ _ _ _ _ Hm).
  unfold set_owed. repeat split.
  - now intros ->.
  - destruct (dgt payment (amountOwed b)); [reflexivity | discriminate].
  - now intros ->.
  - intros -> Hf. rewrite (dsub_diag _ Hf).
    replace (dgt (amountOwed b) (amountOwed b)) with false; [reflexivity|].
    unfold dgt, SFltb. destruct (amountOwed b) as [? | [] | | [] m e]; try reflexivity;
      simpl; rewrite Z.compare_refl, Pos.compare_cont_refl; reflexivity.
Qed.

(** ** Rounding to nearest

    The mantissa and exponent that [binary_round] arrives at, as far as the
    order of doubles needs them. *)

Lemma digits2_pos_bound (m : positive) : Zpos m < 2 ^ Zpos (digits2_pos m).
Proof.
  induction m as [m IH | m IH |]; cbn [digits2_pos].
  - rewrite Pos2Z.inj_succ, Z.pow_succ_r by lia. lia.
  - rewrite Pos2Z.inj_succ, Z.pow_succ_r by lia. lia.
  - reflexivity.
Qed.

Lemma digits2_pos_lower (m : positive) : 2 ^ (Zpos (digits2_pos m) - 1) <= Zpos m.
Proof.
  induction m as [m IH | m IH |]; cbn [digits2_pos].
  - rewrite Pos2Z.inj_succ. replace (Z.succ (Zpos (digits2_pos m)) - 1)
      with (Z.succ (Zpos (digits2_pos m) - 1)) by lia.
    rewrite Z.pow_succ_r by lia. lia.
  - rewrite Pos2Z.inj_succ. replace (Z.succ (Zpos (digits2_pos m)) - 1)
      with (Z.succ (Zpos (digits2_pos m) - 1)) by lia.
    rewrite Z.pow_succ_r by lia. lia.
  - reflexivity.
Qed.

Lemma iter_xO (m n : positive) : Zpos (Pos.iter xO m n) = Zpos m * 2 ^ Zpos n.
Proof.
  induction n as [|n IH] using Pos.peano_ind.
  - simpl. lia.
  - rewrite Pos.iter_succ, Pos2Z.inj_succ, Z.pow_succ_r by lia.
    rewrite Pos2Z.inj_xO, IH. lia.
Qed.

Lemma shr_1_m (r : shr_record) : 0 <= shr_m r -> shr_m (shr_1 r) = shr_m r / 2.
Proof.
  destruct r as [m rb sb]. cbn [shr_m]. intros Hm. unfold shr_1.
  destruct m as [|[p|p|]|p]; cbn [shr_m]; try lia.
  - reflexivity.
  - rewrite Pos2Z.inj_xI. apply Z.div_unique with 1; lia.
  - rewrite Pos2Z.inj_xO. apply Z.div_unique with 0; lia.
  - reflexivity.
Qed.

Lemma pow2_xO (n : positive) : 2 ^ Zpos n~0 = 2 ^ Zpos n * 2 ^ Zpos n.
Proof. rewrite Pos2Z.inj_xO, <- Z.pow_add_r by lia. f_equal. lia. Qed.

Lemma pow2_xI (n : positive) : 2 ^ Zpos n~1 = 2 * (2 ^ Zpos n * 2 ^ Zpos n).
Proof.
  rewrite Pos2Z.inj_xI, <- Z.pow_add_r by lia.
  replace (2 * Zpos n + 1) with (Z.succ (Zpos n + Zpos n)) by lia.
  now rewrite Z.pow_succ_r by lia.
Qed.

Lemma iter_shr_1_m (n : positive) (r : shr_record) :
  0 <= shr_m r -> shr_m (iter_pos shr_1 n r) = shr_m r / 2 ^ Zpos n.
Proof.
  revert r. induction n as [n IH | n IH |]; intros r Hr; cbn [iter_pos].
  - assert (H1 : 0 <= shr_m (shr_1 r)) by (rewrite shr_1_m by assumption; apply Z.div_pos; lia).
    assert (H2 : 0 <= shr_m (iter_pos shr_1 n (shr_1 r)))
      by (rewrite IH by assumption; apply Z.div_pos; [assumption | apply Z.pow_pos_nonneg; lia]).
    rewrite IH, IH, shr_1_m by assumption.
    rewrite !Z.div_div by (try apply Z.pow_pos_nonneg; lia).
    now rewrite pow2_xI.
  - assert (H2 : 0 <= shr_m (iter_pos shr_1 n r))
      by (rewrite IH by assumption; apply Z.div_pos; [assumption | apply Z.pow_pos_nonneg; lia]).
    rewrite IH, IH by assumption.
    rewrite !Z.div_div by (try apply Z.pow_pos_nonneg; lia).
    now rewrite pow2_xO.
  - rewrite shr_1_m by assumption. reflexivity.
Qed.

Lemma round_nearest_even_bounds (m : Z) (l : location) :
  m <= round_nearest_even m l <= m + 1.
Proof.
  unfold round_nearest_even. destruct l as [|[]]; try lia. destruct (Z.even m); lia.
Qed.

(** [shr] divides the mantissa by a power of two and raises the exponent. *)
Lemma shr_spec (r : shr_record) (e n : Z) :
  0 <= shr_m r ->
  shr_m (fst (shr r e n)) = shr_m r / 2 ^ (Z.max 0 n) /\
  snd (shr r e n) = e + Z.max 0 n.
Proof.
  intros Hr. unfold shr. destruct n as [|p|p]; cbn [fst snd].
  - rewrite Z.max_id, Z.div_1_r. lia.
  - rewrite Z.max_r by lia. split; [now apply iter_shr_1_m | reflexivity].
  - rewrite Z.max_l by lia. rewrite Z.div_1_r. lia.
Qed.

Lemma shr_record_of_loc_m (m : Z) (l : location) : shr_m (shr_record_of_loc m l) = m.
Proof. destruct l as [|[]]; reflexivity. Qed.

Lemma shr_fexp_spec (m e : Z) (l : location) :
  0 <= m ->
  shr_m (fst (shr_fexp prec emax m e l))
    = m / 2 ^ (Z.max 0 (fexp prec emax (Zdigits2 m + e) - e)) /\
  snd (shr_fexp prec emax m e l) = e + Z.max 0 (fexp prec emax (Zdigits2 m + e) - e).
Proof.
  intros Hm. unfold shr_fexp.
  rewrite <- (shr_record_of_loc_m m l) at 3.
  apply shr_spec. now rewrite shr_record_of_loc_m.
Qed.

Lemma digits2_iter_xO (m n : positive) :
  Zpos (digits2_pos (Pos.iter xO m n)) = Zpos (digits2_pos m) + Zpos n.
Proof.
  induction n as [|n IH] using Pos.peano_ind.
  - simpl. lia.
  - rewrite Pos.iter_succ. cbn [digits2_pos]. rewrite Pos2Z.inj_succ, IH. lia.
Qed.

(** The result of rounding is not below a double [(mx, ex)] when the
    exponent [e0] it is rounded at is not below [ex] and, in case of equal
    exponents, the truncated mantissa is not below [mx]. *)
Lemma binary_round_aux_lower (mx : positive) (ex : Z) (m1 : positive) (e1 : Z) (l : location) :
  let e0 := fexp prec emax (Zpos (digits2_pos m1) + e1) in
  3 - emax - prec <= ex ->
  ex <= e0 ->
  e1 <= e0 ->
  1 <= Zpos m1 / 2 ^ (e0 - e1) ->
  (e0 = ex -> Zpos mx <= Zpos m1 / 2 ^ (e0 - e1)) ->
  SFleb (S754_finite false mx ex) (binary_round_aux prec emax false (Zpos m1) e1 l) = true.
Proof.
  intros e0 Hemin Hex He1 Hpos Hmx. unfold binary_round_aux.
  pose proof (shr_fexp_spec (Zpos m1) e1 l ltac:(lia)) as [Hm2 He'].
  destruct (shr_fexp prec emax (Zpos m1) e1 l) as [mrs' e']. cbn [fst snd] in Hm2, He'.
  cbn [Zdigits2] in Hm2, He'. fold e0 in Hm2, He'.
  rewrite Z.max_r in Hm2, He' by lia.
  replace (e1 + (e0 - e1)) with e0 in He' by lia. subst e'.
  set (m3 := round_nearest_even (shr_m mrs') (loc_of_shr_record mrs')).
  pose proof (round_nearest_even_bounds (shr_m mrs') (loc_of_shr_record mrs')) as Hm3.
  fold m3 in Hm3. rewrite Hm2 in Hm3.
  assert (H3 : 1 <= m3) by lia.
  pose proof (shr_fexp_spec m3 e0 loc_Exact ltac:(lia)) as [Hm4 He''].
  destruct (shr_fexp prec emax m3 e0 loc_Exact) as [mrs'' e'']. cbn [fst snd] in Hm4, He''.
  set (n' := fexp prec emax (Zdigits2 m3 + e0) - e0) in *.
  assert (He0 : 3 - emax - prec <= e0) by lia.
  assert (H4 : 1 <= shr_m mrs'' /\ (e'' = ex -> Zpos mx <= shr_m mrs'')).
  { rewrite Hm4. destruct (Z.le_gt_cases n' 0) as [Hn|Hn].
    - rewrite Z.max_l in * by lia. rewrite Z.pow_0_r, Z.div_1_r. split; [lia|].
      intros E. assert (e0 = ex) by lia. specialize (Hmx H). lia.
    - rewrite Z.max_r in * by lia. split; [|lia].
      destruct m3 as [|p3|p3]; try lia. cbn [Zdigits2] in n'.
      assert (n' = Zpos (digits2_pos p3) - prec).
      { unfold n', fexp, SpecFloat.emin in *. lia. }
      pose proof (digits2_pos_lower p3) as Hl.
      apply Z.div_le_lower_bound; [apply Z.pow_pos_nonneg; lia|].
      rewrite Z.mul_1_r. eapply Z.le_trans; [|exact Hl].
      apply Z.pow_le_mono_r; unfold prec in *; lia. }
  destruct H4 as [H4 H5].
  destruct (shr_m mrs'') as [|m|m]; try lia.
  destruct (e'' <=? emax - prec); [|reflexivity].
  unfold SFleb, SFcompare.
  destruct (Z.compare_spec ex e'') as [E|E|E]; try reflexivity.
  - specialize (H5 (eq_sym E)).
    change (Pos.compare_cont Eq mx m) with (Pos.compare mx m).
    destruct (Pos.compare_spec mx m); try reflexivity. lia.
  - exfalso. assert (0 <= Z.max 0 n') by lia. lia.
Qed.

Lemma binary_round_lower (mx : positive) (ex : Z) (m : positive) (ez : Z) :
  bounded prec emax mx ex = true ->
  ez <= ex ->
  Zpos mx * 2 ^ (ex - ez) <= Zpos m ->
  SFleb (S754_finite false mx ex) (binary_round prec emax false m ez) = true.
Proof.
  intros Hb Hez Hm. unfold bounded, canonical_mantissa in Hb.
  apply andb_true_iff in Hb as [Hc _]. apply Z.eqb_eq in Hc.
  assert (Hemin : 3 - emax - prec <= ex).
  { unfold fexp, SpecFloat.emin in Hc. lia. }
  assert (Hd : Zpos (digits2_pos mx) + (ex - ez) <= Zpos (digits2_pos m)).
  { pose proof (digits2_pos_lower mx) as Hl. pose proof (digits2_pos_bound m) as Hu.
    assert (Hk : 0 < 2 ^ (ex - ez)) by (apply Z.pow_pos_nonneg; lia).
    assert (2 ^ (Zpos (digits2_pos mx) - 1 + (ex - ez)) < 2 ^ Zpos (digits2_pos m)).
    { rewrite Z.pow_add_r by lia. nia. }
    apply Z.pow_lt_mono_r_iff in H; lia. }
  set (e0 := fexp prec emax (Zpos (digits2_pos m) + ez)).
  assert (Hex : ex <= e0).
  { unfold e0. unfold fexp, SpecFloat.emin in *. lia. }
  unfold binary_round. fold e0. unfold shl_align.
  destruct (e0 - ez) as [|n|n] eqn:En.
  - assert (H0 : e0 = ez) by lia.
    apply binary_round_aux_lower; fold e0; try lia.
    + rewrite H0, Z.sub_diag, Z.pow_0_r, Z.div_1_r. lia.
    + intros E. replace (e0 - ez) with (ex - ez) by lia.
      apply Z.div_le_lower_bound; [apply Z.pow_pos_nonneg; lia | lia].
  - assert (Hpos : 0 < 2 ^ (e0 - ez)) by (apply Z.pow_pos_nonneg; lia).
    apply binary_round_aux_lower; fold e0; try lia.
    + destruct (Z.eq_dec e0 ex) as [E|E].
      * replace (e0 - ez) with (ex - ez) by lia.
        assert (0 < 2 ^ (ex - ez)) by (apply Z.pow_pos_nonneg; lia).
        apply Z.div_le_lower_bound; [assumption | nia].
      * assert (e0 - ez = Zpos (digits2_pos m) - prec).
        { unfold e0, fexp, SpecFloat.emin in *. lia. }
        pose proof (digits2_pos_lower m) as Hl.
        apply Z.div_le_lower_bound; [assumption|].
        rewrite Z.mul_1_r. eapply Z.le_trans; [|exact Hl].
        apply Z.pow_le_mono_r; unfold prec in *; lia.
    + intros E. replace (e0 - ez) with (ex - ez) by lia.
      apply Z.div_le_lower_bound; [apply Z.pow_pos_nonneg; lia | lia].
  - assert (He : Zpos (digits2_pos (Pos.iter xO m n)) + e0 = Zpos (digits2_pos m) + ez)
      by (rewrite digits2_iter_xO; lia).
    apply binary_round_aux_lower; rewrite ?He; fold e0;
      rewrite ?Z.sub_diag, ?Z.pow_0_r, ?Z.div_1_r; lia.
Qed.

Lemma shl_align_fst (m : positive) (e e' : Z) :
  e' <= e -> Zpos (fst (shl_align m e e')) = Zpos m * 2 ^ (e - e').
Proof.
  intros H. unfold shl_align. destruct (e' - e) as [|n|n] eqn:En; cbn [fst].
  - replace (e - e') with 0 by lia. lia.
  - lia.
  - rewrite iter_xO. f_equal. f_equal. lia.
Qed.

(** Subtracting a negative double from one that is not negative does not give
    a smaller double. *)
Lemma dsub_negative_ge (x p : double) :
  valid_binary prec emax x = true ->
  dle dzero x = true ->
  dlt p dzero = true ->
  dle x (dsub x p) = true.
Proof.
  intros Hv Hx Hp.
  destruct x as [sx | [] | | [] mx ex]; try discriminate;
    destruct p as [sp | [] | | [] mp ep]; try discriminate; try reflexivity.
  unfold dle, dsub, SFsub. cbn [cond_Zopp].
  set (ez := Z.min ex ep).
  assert (Hez : ez <= ex) by (unfold ez; lia).
  set (a := fst (shl_align mx ex ez)). set (b := fst (shl_align mp ep ez)).
  change (Zpos a - - Zpos b) with (Zpos (a + b)).
  cbn [binary_normalize].
  apply binary_round_lower; [exact Hv | exact Hez |].
  unfold a. rewrite Pos2Z.inj_add, shl_align_fst by assumption. lia.
Qed.

(** Closes [no_match] and [first_match] goals on explicit arrays. *)
Ltac no_match_explicit :=
  let x := fresh "x" in
  let Hx := fresh "Hx" in
  intros x Hx; simpl in Hx;
  repeat (destruct Hx as [<- | Hx]; [vm_compute; discriminate |]);
  destruct Hx.

Ltac first_match_explicit :=
  split; [reflexivity | split; [no_match_explicit | reflexivity]].

(** Splits a conjunction into its parts. *)
Ltac splits := repeat match goal with |- _ /\ _ => split end.

Lemma acceptPayment_spec_witness :
  acceptPayment (mkManager [big_brother]) (Some (str "Nobody" ++ [newline]))
    (Some (decimal_to_double false 100 0)) = (PaymentNoBoat, mkManager [big_brother])
  /\
  acceptPayment (mkManager [big_brother]) (Some (str "big brother" ++ [newline]))
    (Some (decimal_to_double false 120001 (-2))) = (MoreThanOwed, mkManager [big_brother])
  /\
  acceptPayment (mkManager [big_brother]) (Some (str "Big Brother" ++ [newline]))
    (Some (decimal_to_double false 20000 (-2)))
    = (Paid, mkManager [mkBoat (str "Big Brother") 20 SLIP (slipNumber 27)
                          (decimal_to_double false 100000 (-2))])
  /\
  acceptPayment (mkManager [big_brother]) (Some (str "BIG BROTHER" ++ [newline]))
    (Some (decimal_to_double false 120000 (-2)))
    = (Paid, mkManager [mkBoat (str "Big Brother") 20 SLIP (slipNumber 27) dzero]).
Proof.
  splits.
  - apply (proj1 (acceptPayment_spec (mkManager [big_brother]) (str "Nobody" ++ [newline])
                    (decimal_to_double false 100 0))).
    no_match_explicit.
  - destruct (proj2 (acceptPayment_spec (mkManager [big_brother])
                       (str "big brother" ++ [newline])
                       (decimal_to_double false 120001 (-2))) [] big_brother [])
      as ((T & _) & _ & _); [first_match_explicit|].
    apply T. reflexivity.
  - destruct (proj2 (acceptPayment_spec (mkManager [big_brother])
                       (str "Big Brother" ++ [newline])
                       (decimal_to_double false 20000 (-2))) [] big_brother [])
      as (_ & T & _); [first_match_explicit|].
    exact (T eq_refl).
  - destruct (proj2 (acceptPayment_spec (mkManager [big_brother])
                       (str "BIG BROTHER" ++ [newline])
                       (decimal_to_double false 120000 (-2))) [] big_brother [])
      as (_ & _ & T); [first_match_explicit|].
    exact (T eq_refl eq_refl).
Defined.

(** The claim C1 as first stated fails for a balance that is not finite.  The
    line "Titanic,882,slip,1,inf" of the file is read as a record that owes
    infinity, since [%lf] reads "inf"; a payment typed as "inf" is that same
    double, it is not more than the amount owed, so it is accepted, and the
    balance stored is [inf - inf], which is not zero but NaN. *)
Lemma infinite_balance_paid_in_full :
  load_line empty_manager (str "Titanic,882,slip,1,inf") = Some (mkManager [titanic]) /\
  scan_double (str "inf" ++ [newline]) = Some (amountOwed titanic, [newline]) /\
  acceptPayment (mkManager [titanic]) (Some (str "Titanic" ++ [newline]))
    (Some (amountOwed titanic))
    = (Paid, mkManager [mkBoat (str "Titanic") 882 SLIP (slipNumber 1) S754_nan]) /\
  ~ (forall manager buf pre b post,
       first_match (chomp buf) (boats manager) pre b post ->
       acceptPayment manager (Some buf) (Some (amountOwed b)) =
         (Paid, mkManager (pre ++ mkBoat (name b) (length b) (locType b) (detail b) dzero
                               :: post))).
Proof.
  splits; try reflexivity.
  intros H.
  specialize (H (mkManager [titanic]) (str "Titanic" ++ [newline]) [] titanic []).
  assert (Hm : first_match (chomp (str "Titanic" ++ [newline])) (boats (mkManager [titanic]))
                 [] titanic []) by first_match_explicit.
  specialize (H Hm). vm_compute in H. discriminate.
Qed.

(** C10 as amended.  [acceptPayment] does not look at the sign of the payment.
    When the first record matching the name owes a balance that is not
    negative and the payment is negative, the payment is never refused as more
    than the amount owed: the operation succeeds, the record keeps its name,
    length, kind and detail, its balance becomes the double
    [amountOwed - payment], and the other records are left alone.  The new
    balance is never below the old one (it can be equal to it, when the
    difference rounds back). *)
Theorem acceptPayment_negative (manager : BoatManager) (buf : chars) (payment : double)
    (pre : list Boat) (b : Boat) (post : list Boat) :
  first_match (chomp buf) (boats manager) pre b post ->
  dle dzero (amountOwed b) = true ->
  dlt payment dzero = true ->
  acceptPayment manager (Some buf) (Some payment) =
    (Paid, mkManager (pre ++ mkBoat (name b) (length b) (locType b) (detail b)
                               (dsub (amountOwed b) payment) :: post))
  /\
  (valid_binary prec emax (amountOwed b) = true ->
   dle (amountOwed b) (dsub (amountOwed b) payment) = true).
Proof.
  intros Hm Howed Hpay. split.
  - rewrite (acceptPayment_first_match _ _ _ _ _ _ Hm).
    now rewrite (negative_not_above_nonnegative _ _ Hpay Howed).
  - intros Hv. now apply dsub_negative_ge.
Qed.

Lemma acceptPayment_negative_witness :
  acceptPayment (mkManager [big_brother]) (Some (str "big brother" ++ [newline]))
    (Some (decimal_to_double true 5000 (-2))) =
  (Paid, mkManager [mkBoat (str "Big Brother") 20 SLIP (slipNumber 27)
                      (decimal_to_double false 125000 (-2))])
  /\
  dle (amountOwed big_brother)
    (dsub (amountOwed big_brother) (decimal_to_double true 5000 (-2))) = true.
Proof.
  pose proof (acceptPayment_negative (mkManager [big_brother])
                (str "big brother" ++ [newline])
                (decimal_to_double true 5000 (-2)) [] big_brother []) as T.
  destruct T as [T1 T2].
  - first_match_explicit.
  - reflexivity.
  - reflexivity.
  - split; [exact T1 | apply T2; reflexivity].
Defined.

(** The claim C10 as first stated fails in two ways.  A negative payment need
    not raise the balance: the record owes 2^53, the payment is -1, the
    operation succeeds, and the balance stored is again 2^53, because 2^53 + 1
    is not a double and rounds back to 2^53 (a payment of -2 does raise it, to
    2^53 + 2).  And the payment goes to the first record of the name, not to
    every record of it: with "Anna", owing -100.00, stored before "ANNA",
    owing 0.00, a payment of -50.00 under either name is compared with
    -100.00 and refused as more than the amount owed. *)
Lemma negative_payment_absorbed :
  dle dzero (amountOwed leviathan) = true /\
  dlt (decimal_to_double true 1 0) dzero = true /\
  acceptPayment (mkManager [leviathan]) (Some (str "Leviathan" ++ [newline]))
    (Some (decimal_to_double true 1 0))
    = (Paid, mkManager [mkBoat (str "Leviathan") 99 STORAGE (storageNum 1)
                          (decimal_to_double false 9007199254740992 0)]) /\
  acceptPayment (mkManager [leviathan]) (Some (str "Leviathan" ++ [newline]))
    (Some (decimal_to_double true 2 0))
    = (Paid, mkManager [mkBoat (str "Leviathan") 99 STORAGE (storageNum 1)
                          (decimal_to_double false 9007199254740994 0)]) /\
  ~ (forall m' b',
       acceptPayment (mkManager [leviathan]) (Some (str "Leviathan" ++ [newline]))
         (Some (decimal_to_double true 1 0)) = (Paid, m') ->
       boats m' = [b'] ->
       dlt (amountOwed leviathan) (amountOwed b') = true) /\
  dle dzero (amountOwed anna_land) = true /\
  dlt (decimal_to_double true 5000 (-2)) dzero = true /\
  acceptPayment (mkManager [anna_debt; anna_land]) (Some (str "ANNA" ++ [newline]))
    (Some (decimal_to_double true 5000 (-2)))
    = (MoreThanOwed, mkManager [anna_debt; anna_land]).
Proof.
  splits; try reflexivity.
  intros H. specialize (H (mkManager [leviathan]) leviathan eq_refl eq_refl).
  vm_compute in H. discriminate.
Qed.

(** ** monthlyUpdate *)

Lemma monthly_loop_app (pre post : list Boat) :
  monthly_loop (List.length post) (List.length pre) (pre ++ post) =
  pre ++ map (fun b => set_owed b (dadd (amountOwed b) (charge b))) post.
Proof.
  revert pre. induction post as [|b t IH]; intros pre; simpl; [reflexivity|].
  rewrite nth_error_middle, set_amountOwed_middle.
  change (pre ++ set_owed b (dadd (amountOwed b) (charge b)) :: t)
    with (pre ++ [set_owed b (dadd (amountOwed b) (charge b))] ++ t).
  rewrite app_assoc.
  replace (S (List.length pre))
    with (List.length (pre ++ [set_owed b (dadd (amountOwed b) (charge b))]))
    by (rewrite length_app; simpl; lia).
  rewrite IH, <- app_assoc. reflexivity.
Qed.

Lemma charge_rate (b : Boat) :
  charge b = dmul (rate (locType b)) (double_of_int (length b)).
Proof. unfold charge, rate. now destruct (locType b). Qed.

(** C2.  One run of [monthlyUpdate] gives every record of the store the
    balance [amountOwed + rate * length], where the rate per foot is 12.50 for
    a slip, 14.00 for land, 25.00 for a trailer and 11.20 for storage, and
    leaves its name, length, kind and detail as they are; it cannot fail.  A
    slip record of length 20 that owes 1200.00 owes 1450.00 afterwards. *)
Theorem monthlyUpdate_spec (manager : BoatManager) :
  boats (monthlyUpdate manager) =
    map (fun b => mkBoat (name b) (length b) (locType b) (detail b)
                    (dadd (amountOwed b)
                       (dmul (rate (locType b)) (double_of_int (length b)))))
        (boats manager)
  /\ rate SLIP = decimal_to_double false 1250 (-2)
  /\ rate LAND = decimal_to_double false 1400 (-2)
  /\ rate TRAILOR = decimal_to_double false 2500 (-2)
  /\ rate STORAGE = decimal_to_double false 1120 (-2)
  /\ monthlyUpdate
       (mkManager [mkBoat (str "Big Brother") 20 SLIP (slipNumber 27)
                     (decimal_to_double false 120000 (-2))])
     = mkManager [mkBoat (str "Big Brother") 20 SLIP (slipNumber 27)
                    (decimal_to_double false 145000 (-2))]
  /\ decimal_to_double false 145000 (-2) = double_of_int 1450.
Proof.
  split.
  - unfold monthlyUpdate. cbn [boats].
    pose proof (monthly_loop_app [] (boats manager)) as E. cbn [app List.length] in E.
    rewrite E. apply map_ext. intros b. now rewrite charge_rate.
  - repeat split; reflexivity.
Qed.

(** ** The order of the array after a mutation *)

Lemma shift_left_middle (pre : list Boat) (b : Boat) (post : list Boat) :
  shift_left (Z.of_nat (List.length pre)) (pre ++ b :: post) = pre ++ post.
Proof.
  unfold shift_left. rewrite Nat2Z.id. f_equal.
  - rewrite firstn_app, Nat.sub_diag, firstn_all. simpl. apply app_nil_r.
  - change (S (List.length pre)) with (1 + List.length pre)%nat.
    rewrite <- skipn_skipn, skipn_app, Nat.sub_diag, skipn_all. reflexivity.
Qed.

Lemma removeBoat_no_match `{Libc_qsort} (manager : BoatManager) (buf : chars) :
  no_match (chomp buf) (boats manager) ->
  removeBoat manager (Some buf) = (RemoveNoBoat, manager).
Proof.
  intros Hn. unfold removeBoat, findBoatIndex.
  now rewrite (find_from_no_match _ _ _ Hn).
Qed.

Lemma removeBoat_first_match `{Libc_qsort} (manager : BoatManager) (buf : chars)
    (pre : list Boat) (b : Boat) (post : list Boat) :
  first_match (chomp buf) (boats manager) pre b post ->
  removeBoat manager (Some buf) = (Removed, sortBoatsByName (mkManager (pre ++ post))).
Proof.
  intros Hm. unfold removeBoat, findBoatIndex.
  rewrite (find_from_first_match _ _ _ _ _ 0 Hm). destruct Hm as (E & _ & _).
  replace (0 + Z.of_nat (List.length pre) <? 0) with false by (symmetry; apply Z.ltb_ge; lia).
  now rewrite Z.add_0_l, E, shift_left_middle.
Qed.

Lemma addBoat_fields `{Libc_qsort} (manager : BoatManager) (line boatName : chars) (len : Z)
    (locStr detailStr : chars) (owed : double) :
  sscanf_boat (chomp line) = Fields boatName len locStr detailStr owed ->
  addBoat manager (Some line) =
    if numBoats manager >=? MAX_BOATS then Some (ArrayFull, manager)
    else Some (Added, sortBoatsByName
                        (mkManager (boats manager ++
                           [createBoat boatName len (parseLocationType locStr) detailStr owed]))).
Proof. intros E. unfold addBoat. now rewrite E. Qed.

Lemma addBoat_added `{Libc_qsort} (manager : BoatManager) (line : chars) (m' : BoatManager) :
  addBoat manager (Some line) = Some (Added, m') ->
  exists boatName len locStr detailStr owed,
    sscanf_boat (chomp line) = Fields boatName len locStr detailStr owed /\
    numBoats manager < MAX_BOATS /\
    m' = sortBoatsByName
           (mkManager (boats manager ++
              [createBoat boatName len (parseLocationType locStr) detailStr owed])).
Proof.
  unfold addBoat. destruct (sscanf_boat (chomp line)) as [n | bn len ls ds ow |];
    try discriminate.
  destruct (Z.geb_spec (numBoats manager) MAX_BOATS); [discriminate|].
  intros E. injection E as <-. exists bn, len, ls, ds, ow. repeat split. lia.
Qed.

Lemma removeBoat_removed `{Libc_qsort} (manager : BoatManager) (buf : chars) (m' : BoatManager) :
  removeBoat manager (Some buf) = (Removed, m') ->
  exists pre b post,
    first_match (chomp buf) (boats manager) pre b post /\
    m' = sortBoatsByName (mkManager (pre ++ post)).
Proof.
  destruct (find_from_cases (boats manager) (chomp buf)) as [Hn | (pre & b & post & Hm)].
  - rewrite (removeBoat_no_match _ _ Hn). discriminate.
  - rewrite (removeBoat_first_match _ _ _ _ _ Hm). intros E. injection E as <-.
    now exists pre, b, post.
Qed.

(** ** Where an operation has no result *)

Lemma addBoat_undefined `{Libc_qsort} (manager : BoatManager) (input : option chars) :
  addBoat manager input = None <->
  exists line, input = Some line /\ sscanf_boat (chomp line) = Overrun.
Proof.
  unfold addBoat. split.
  - destruct input as [line|]; [|discriminate].
    destruct (sscanf_boat (chomp line)) as [n | bn len ls ds ow |] eqn:E; try discriminate.
    + destruct (numBoats manager >=? MAX_BOATS); discriminate.
    + intros _. now exists line.
  - intros (line & -> & ->). reflexivity.
Qed.

Lemma load_line_undefined (manager : BoatManager) (line : chars) :
  load_line manager line = None <-> sscanf_boat line = Overrun.
Proof.
  unfold load_line. destruct (sscanf_boat line) as [n | bn len ls ds ow |].
  - split; discriminate.
  - destruct (numBoats manager <? MAX_BOATS); split; discriminate.
  - split; reflexivity.
Qed.

Lemma load_lines_undefined (lines : list chars) (manager : BoatManager) :
  load_lines manager lines = None <->
  Exists (fun line => sscanf_boat line = Overrun) lines.
Proof.
  revert manager. induction lines as [|line lines IH]; intros manager; cbn [load_lines].
  - split; [discriminate | intros E; inversion E].
  - destruct (load_line manager line) as [m1|] eqn:E1.
    + rewrite IH. split; [now right|].
      intros E. inversion E as [? ? Ho | ? ? Ht]; subst; [|assumption].
      apply load_line_undefined with (manager := manager) in Ho. congruence.
    + split; [|reflexivity]. intros _. left. now apply (load_line_undefined manager).
Qed.

Lemma loadFromCSV_undefined `{Libc_qsort} (manager : BoatManager) (file : option chars) :
  loadFromCSV manager file = None <->
  exists fp, file = Some fp /\
             Exists (fun line => sscanf_boat line = Overrun) (fgets_lines 511 fp).
Proof.
  unfold loadFromCSV. destruct file as [fp|].
  - destruct (load_lines manager (fgets_lines 511 fp)) as [m1|] eqn:E.
    + split; [discriminate|]. intros (fp' & [= <-] & Ho).
      apply (load_lines_undefined _ manager) in Ho. congruence.
    + split; [|reflexivity]. intros _. exists fp. split; [reflexivity|].
      now apply (load_lines_undefined _ manager).
  - split; [discriminate|]. intros (fp & Hfp & _). discriminate.
Qed.



(** ** addBoat *)



(** ** findBoatIndex and removeBoat *)

Lemma findBoatIndex_no_match (manager : BoatManager) (name0 : chars) :
  findBoatIndex manager name0 = -1 <-> no_match name0 (boats manager).
Proof.
  split; [|apply find_from_no_match].
  destruct (find_from_cases (boats manager) name0) as [Hn | (pre & b & post & Hm)];
    [easy|].
  unfold findBoatIndex. rewrite (find_from_first_match _ _ _ _ _ 0 Hm). lia.
Qed.

(** C6.  [findBoatIndex] returns -1 exactly when no stored name agrees with
    the name sought up to letter case, and otherwise the index of the first
    record, in the present order of the array, whose name does.  So
    [removeBoat] with a name that agrees with a stored name up to letter case
    succeeds and takes out the first such record. *)
Theorem findBoatIndex_spec (manager : BoatManager) (name0 : chars) :
  (forall b, caseInsensitiveCompare (name b) name0 = 0 <->
             map tolower (cstr (name b)) = map tolower (cstr name0))
  /\
  (findBoatIndex manager name0 = -1 <-> no_match name0 (boats manager))
  /\
  (forall pre b post,
     first_match name0 (boats manager) pre b post ->
     findBoatIndex manager name0 = Z.of_nat (List.length pre))
  /\
  (forall (L : Libc_qsort) buf b,
     chomp buf = name0 ->
     In b (boats manager) ->
     map tolower (cstr (name b)) = map tolower (cstr name0) ->
     exists pre b' post m',
       first_match name0 (boats manager) pre b' post /\
       removeBoat manager (Some buf) = (Removed, m') /\
       Permutation (pre ++ post) (boats m') /\
       ascending boatCompareByName (boats m')).
Proof.
  split; [intros b; apply caseInsensitiveCompare_eq|].
  split; [apply findBoatIndex_no_match|]. split.
  - intros pre b post Hm. unfold findBoatIndex.
    rewrite (find_from_first_match _ _ _ _ _ 0 Hm). lia.
  - intros L buf b Hbuf Hin Hb. apply caseInsensitiveCompare_eq in Hb.
    destruct (find_from_cases (boats manager) name0) as [Hn | (pre & b' & post & Hm)].
    + exfalso. exact (Hn b Hin Hb).
    + exists pre, b', post. eexists. split; [assumption|].
      subst name0. rewrite (removeBoat_first_match _ _ _ _ _ Hm).
      split; [reflexivity|]. split.
      * apply (sortBoatsByName_perm (mkManager _)).
      * apply sortBoatsByName_ascending.
Qed.

Lemma findBoatIndex_spec_witness :
  findBoatIndex (mkManager [anna_slip; big_brother]) (str "BIG BROTHER") = 1
  /\
  exists pre b' post m',
    first_match (str "BIG BROTHER") [anna_slip; big_brother] pre b' post /\
    @removeBoat insertion_qsort (mkManager [anna_slip; big_brother])
      (Some (str "BIG BROTHER" ++ [newline])) = (Removed, m') /\
    Permutation (pre ++ post) (boats m') /\
    ascending boatCompareByName (boats m').
Proof.
  pose proof (findBoatIndex_spec (mkManager [anna_slip; big_brother]) (str "BIG BROTHER"))
    as (_ & _ & F & R).
  split.
  - apply (F [anna_slip] big_brother []). first_match_explicit.
  - apply (R insertion_qsort (str "BIG BROTHER" ++ [newline]) big_brother).
    + reflexivity.
    + simpl. auto.
    + reflexivity.
Defined.

Example removeBoat_big_brother :
  @removeBoat insertion_qsort (mkManager [anna_slip; big_brother])
    (Some (str "BIG BROTHER" ++ [newline])) = (Removed, mkManager [anna_slip]).
Proof. reflexivity. Qed.

(** ** Decimal text of integers *)


Lemma code_ascii_of_N (n : N) : (n < 256)%N -> code (ascii_of_N n) = Z.of_N n.
Proof. intros H. unfold code. now rewrite N_ascii_embedding. Qed.

Lemma digit_char_code (d : Z) : 0 <= d <= 9 -> code (digit_char d) = 48 + d.
Proof.
  intros H. unfold digit_char. rewrite code_ascii_of_N by lia. lia.
Qed.

Lemma digit_char_isdigit (d : Z) : 0 <= d <= 9 -> isdigit (digit_char d) = true.
Proof.
  intros H. unfold isdigit. rewrite digit_char_code by assumption.
  apply andb_true_iff. split; apply Z.leb_le; lia.
Qed.

Lemma horner_app (ds ds' : chars) (a : Z) : horner (ds ++ ds') a = horner ds' (horner ds a).
Proof. revert a. induction ds; simpl; auto. Qed.

(** What [fmt_digits] puts in front of [acc]: a non-empty run of digits that
    spells [n]. *)
Lemma fmt_digits_spec (f : nat) (n : Z) (acc : chars) :
  0 <= n < 2 ^ Z.of_nat (S f) ->
  exists ds,
    fmt_digits (S f) n acc = ds ++ acc /\
    ds <> [] /\
    Forall (fun c => isdigit c = true) ds /\
    (forall a, horner ds a = a * 10 ^ Z.of_nat (List.length ds) + n) /\
    (forall k, 1 <= k -> n < 10 ^ k -> Z.of_nat (List.length ds) <= k).
Proof.
  revert n acc. induction f as [|f IH]; intros n acc Hn.
  - assert (n < 10) by (change (2 ^ Z.of_nat 1) with 2 in Hn; lia).
    exists [digit_char n]. simpl. destruct (Z.ltb_spec n 10); [|lia].
    splits.
    + reflexivity.
    + discriminate.
    + constructor; [apply digit_char_isdigit; lia | constructor].
    + intros a. rewrite digit_char_code by lia. lia.
    + intros; lia.
  - change (fmt_digits (S (S f)) n acc)
      with (if n <? 10 then digit_char n :: acc
            else fmt_digits (S f) (n / 10) (digit_char (n mod 10) :: acc)).
    destruct (Z.ltb_spec n 10) as [Hlt|Hge].
    + exists [digit_char n]. splits.
      * reflexivity.
      * discriminate.
      * constructor; [apply digit_char_isdigit; lia | constructor].
      * intros a. simpl. rewrite digit_char_code by lia. lia.
      * intros; simpl; lia.
    + assert (Hq : 0 <= n / 10 < 2 ^ Z.of_nat (S f)).
      { split; [apply Z.div_pos; lia|].
        apply Z.div_lt_upper_bound; [lia|].
        replace (Z.of_nat (S (S f))) with (Z.succ (Z.of_nat (S f))) in Hn by lia.
        rewrite Z.pow_succ_r in Hn by lia. lia. }
      destruct (IH (n / 10) (digit_char (n mod 10) :: acc) Hq)
        as (ds & E & Hne & Hd & Hh & Hk).
      pose proof (Z.mod_pos_bound n 10 ltac:(lia)) as Hm.
      exists (ds ++ [digit_char (n mod 10)]). splits.
      * rewrite E, <- app_assoc. reflexivity.
      * destruct ds; discriminate.
      * apply Forall_app. split; [assumption|].
        constructor; [apply digit_char_isdigit; lia | constructor].
      * intros a. rewrite horner_app, Hh. cbn [horner].
        rewrite digit_char_code by lia. rewrite length_app. cbn [List.length].
        replace (Z.of_nat (List.length ds + 1)) with (Z.succ (Z.of_nat (List.length ds))) by lia.
        rewrite Z.pow_succ_r by lia.
        pose proof (Z.div_mod n 10 ltac:(lia)). lia.
      * intros k Hk1 Hnk. rewrite length_app. cbn [List.length].
        assert (2 <= k).
        { destruct (Z.eq_dec k 1) as [->|]; [|lia]. change (10 ^ 1) with 10 in Hnk. lia. }
        assert (Z.of_nat (List.length ds) <= k - 1); [|lia].
        apply Hk; [lia|]. apply Z.div_lt_upper_bound; [lia|].
        replace k with (Z.succ (k - 1)) in Hnk by lia.
        rewrite Z.pow_succ_r in Hnk by lia. lia.
Qed.

Lemma fmt_nat_spec (n : Z) :
  0 <= n ->
  exists ds,
    fmt_nat n = ds /\
    ds <> [] /\
    Forall (fun c => isdigit c = true) ds /\
    horner ds 0 = n /\
    (forall k, 1 <= k -> n < 10 ^ k -> Z.of_nat (List.length ds) <= k).
Proof.
  intros Hn. unfold fmt_nat.
  assert (Hb : 0 <= n < 2 ^ Z.of_nat (S (Z.to_nat (Z.log2 n)))).
  { split; [assumption|]. pose proof (Z.log2_nonneg n).
    replace (Z.of_nat (S (Z.to_nat (Z.log2 n)))) with (Z.succ (Z.log2 n)) by lia.
    destruct (Z.eq_dec n 0) as [->|]; [reflexivity|].
    apply Z.log2_spec. lia. }
  destruct (fmt_digits_spec _ n [] Hb) as (ds & E & Hne & Hd & Hh & Hk).
  exists ds. rewrite E, app_nil_r. splits; try assumption; try reflexivity.
  rewrite Hh. lia.
Qed.

Lemma scan_digits_run (ds rest : chars) (a : Z) :
  Forall (fun c => isdigit c = true) ds ->
  isdigit (cur rest) = false ->
  scan_digits (ds ++ rest) a = (horner ds a, rest).
Proof.
  intros Hd Hr. revert a. induction Hd as [|c ds Hc Hd IH]; intros a; simpl.
  - destruct rest as [|r rest]; [reflexivity|]. simpl in *. now rewrite Hr.
  - rewrite Hc. apply IH.
Qed.

Lemma isdigit_not_space (c : ascii) : isdigit c = true -> isspace c = false.
Proof.
  unfold isdigit, isspace. pose proof (code_range c) as Hc.
  intros H. apply andb_true_iff in H as [H1 H2]. apply Z.leb_le in H1, H2.
  apply orb_false_iff. split; [apply Z.eqb_neq; lia|].
  apply andb_false_iff. right. apply Z.leb_gt. lia.
Qed.

Lemma isdigit_plain (c : ascii) : isdigit c = true -> plain c = true.
Proof.
  unfold isdigit, plain, is_nul, is_comma, is_newline.
  intros H. apply andb_true_iff in H as [H1 H2]. apply Z.leb_le in H1, H2.
  repeat (apply andb_true_iff; split); apply negb_true_iff, Z.eqb_neq; lia.
Qed.

Lemma isdigit_not_sign (c : ascii) :
  isdigit c = true -> (code c =? 45) = false /\ (code c =? 43) = false.
Proof.
  unfold isdigit. intros H. apply andb_true_iff in H as [H1 H2]. apply Z.leb_le in H1, H2.
  split; apply Z.eqb_neq; lia.
Qed.

Lemma to_int_id (n : Z) : INT_MIN <= n <= INT_MAX -> to_int n = n.
Proof.
  unfold INT_MIN, INT_MAX, to_int. intros H.
  rewrite Z.mod_small; lia.
Qed.

Lemma clamp_long_id (n : Z) : INT_MIN <= n <= INT_MAX -> clamp_long n = n.
Proof.
  unfold INT_MIN, INT_MAX, clamp_long, LONG_MIN, LONG_MAX. intros H. lia.
Qed.

(** The shape of [fmt_d n]: an optional minus sign and a run of digits. *)
Lemma fmt_d_spec (n : Z) :
  exists ds,
    fmt_d n = (if n <? 0 then [minus] else []) ++ ds /\
    ds <> [] /\
    Forall (fun c => isdigit c = true) ds /\
    horner ds 0 = Z.abs n /\
    (forall k, 1 <= k -> Z.abs n < 10 ^ k -> Z.of_nat (List.length ds) <= k).
Proof.
  unfold fmt_d. destruct (Z.ltb_spec n 0) as [H|H].
  - destruct (fmt_nat_spec (- n) ltac:(lia)) as (ds & E & Hne & Hd & Hh & Hk).
    exists ds. rewrite E. replace (Z.abs n) with (- n) by lia. now splits.
  - destruct (fmt_nat_spec n H) as (ds & E & Hne & Hd & Hh & Hk).
    exists ds. rewrite E. replace (Z.abs n) with n by lia. now splits.
Qed.

Lemma skip_ws_nonspace (c : ascii) (s : chars) :
  isspace c = false -> skip_ws (c :: s) = c :: s.
Proof. intros H. simpl. now rewrite H. Qed.

Lemma scan_sign_minus (s : chars) : scan_sign (minus :: s) = (true, s).
Proof. reflexivity. Qed.

(** [strtol] reads back what [%d] printed. *)
Lemma strtol_fmt_d (n : Z) (rest : chars) :
  INT_MIN <= n <= INT_MAX ->
  isdigit (cur rest) = false ->
  strtol (fmt_d n ++ rest) = Some (n, rest).
Proof.
  intros Hn Hr. destruct (fmt_d_spec n) as (ds & E & Hne & Hd & Hh & _).
  rewrite E. unfold strtol.
  destruct ds as [|d ds]; [congruence|].
  pose proof (Forall_inv Hd) as Hd0. simpl in Hd0.
  destruct (isdigit_not_sign d Hd0) as [Hm Hp].
  destruct (Z.ltb_spec n 0) as [Hneg|Hpos]; cbn [app].
  - rewrite (skip_ws_nonspace minus) by reflexivity. rewrite scan_sign_minus.
    cbv iota beta. cbn [cur]. rewrite Hd0.
    change (d :: ds ++ rest) with ((d :: ds) ++ rest).
    rewrite (scan_digits_run (d :: ds) rest 0 Hd Hr), Hh.
    replace (- Z.abs n) with n by lia. now rewrite clamp_long_id.
  - rewrite (skip_ws_nonspace d) by now apply isdigit_not_space.
    unfold scan_sign. rewrite Hm, Hp. cbv iota beta.
    cbn [cur]. rewrite Hd0.
    change (d :: ds ++ rest) with ((d :: ds) ++ rest).
    rewrite (scan_digits_run (d :: ds) rest 0 Hd Hr), Hh.
    replace (Z.abs n) with n by lia. now rewrite clamp_long_id.
Qed.

Lemma scan_int_fmt_d (n : Z) (rest : chars) :
  INT_MIN <= n <= INT_MAX ->
  isdigit (cur rest) = false ->
  scan_int (fmt_d n ++ rest) = Some (n, rest).
Proof.
  intros Hn Hr. unfold scan_int. rewrite (strtol_fmt_d n rest Hn Hr).
  now rewrite to_int_id.
Qed.

Lemma cstr_plain (s : chars) : Forall (fun c => plain c = true) s -> cstr s = s.
Proof.
  induction 1 as [|c s Hc Hs IH]; simpl; [reflexivity|].
  unfold plain in Hc. destruct (is_nul c); [discriminate|]. now rewrite IH.
Qed.

Lemma cstr_app_plain (s rest : chars) :
  Forall (fun c => plain c = true) s -> cstr (s ++ rest) = s ++ cstr rest.
Proof.
  induction 1 as [|c s Hc Hs IH]; simpl; [reflexivity|].
  unfold plain in Hc. destruct (is_nul c); [discriminate|]. now rewrite IH.
Qed.

Lemma fmt_d_plain (n : Z) : Forall (fun c => plain c = true) (fmt_d n).
Proof.
  destruct (fmt_d_spec n) as (ds & E & _ & Hd & _). rewrite E.
  apply Forall_app. split.
  - destruct (n <? 0); repeat constructor.
  - eapply Forall_impl; [|exact Hd]. apply isdigit_plain.
Qed.

Lemma fmt_d_nonempty (n : Z) : fmt_d n <> [].
Proof.
  destruct (fmt_d_spec n) as (ds & E & Hne & _). rewrite E.
  destruct (n <? 0); [discriminate | assumption].
Qed.

Lemma fmt_d_length (n : Z) :
  INT_MIN <= n <= INT_MAX -> (List.length (fmt_d n) <= 11)%nat.
Proof.
  intros Hn. destruct (fmt_d_spec n) as (ds & E & _ & _ & _ & Hk). rewrite E.
  assert (Z.of_nat (List.length ds) <= 10).
  { apply Hk; [lia|]. unfold INT_MIN, INT_MAX in Hn. lia. }
  rewrite length_app. destruct (n <? 0); simpl; lia.
Qed.

(** [atoi] reads back a printed [int]. *)
Lemma atoi_fmt_d (n : Z) : INT_MIN <= n <= INT_MAX -> atoi (fmt_d n) = n.
Proof.
  intros Hn. unfold atoi. rewrite (cstr_plain _ (fmt_d_plain n)).
  rewrite <- (app_nil_r (fmt_d n)), (strtol_fmt_d n [] Hn eq_refl).
  now apply to_int_id.
Qed.

(** ** Reading lines *)

Lemma fgets_lines_line (body fp : chars) (room : nat) :
  Forall (fun c => is_newline c = false) body ->
  (List.length body < room)%nat ->
  fgets_lines room (body ++ newline :: fp) = (body ++ [newline]) :: fgets_lines 511 fp.
Proof.
  intros Hb. revert room. induction Hb as [|c b Hc Hb IH]; intros room Hr.
  - reflexivity.
  - cbn [app fgets_lines]. rewrite Hc.
    simpl in Hr. destruct (Nat.eqb_spec room 1) as [->|_]; [lia|]. cbn [orb].
    rewrite IH by lia. reflexivity.
Qed.

Lemma fgets_lines_whole (lines : list chars) :
  Forall whole_line lines -> fgets_lines 511 (List.concat lines) = lines.
Proof.
  induction 1 as [|line lines (body & -> & Hb & Hl) _ IH]; [reflexivity|].
  cbn [List.concat]. rewrite <- app_assoc. cbn [app].
  rewrite fgets_lines_line; [now rewrite IH | assumption |].
  rewrite length_app in Hl. simpl in Hl. lia.
Qed.

Lemma fgets_bytes_lines (room : nat) (fp : chars) :
  fp <> [] -> (0 < room)%nat ->
  fgets_lines room fp =
    fst (fgets_bytes room fp) :: fgets_lines 511 (snd (fgets_bytes room fp)).
Proof.
  revert room. induction fp as [|c t IH]; intros room Hne Hr; [congruence|].
  destruct room as [|room]; [lia|]. cbn [fgets_lines fgets_bytes].
  destruct (is_newline c); [reflexivity|]. cbn [orb].
  destruct (Nat.eqb_spec (S room) 1) as [E|E].
  - assert (room = 0%nat) as -> by lia. destruct t; reflexivity.
  - replace (S room - 1)%nat with room by lia.
    destruct t as [|c' t'].
    + destruct room; reflexivity.
    + rewrite IH by (try discriminate; lia).
      destruct (fgets_bytes room (c' :: t')) as [line rest]. reflexivity.
Qed.

(** [fgets_lines] is the sequence of the lines that the calls of [fgets] in
    the loop of [loadFromCSV] return. *)
Lemma fgets_lines_fgets (fp : chars) :
  fgets_lines 511 fp =
    match fgets 512 fp with
    | None => []
    | Some (line, rest) => line :: fgets_lines 511 rest
    end.
Proof.
  destruct fp as [|c t]; [reflexivity|].
  unfold fgets. change (512 - 1)%nat with 511%nat.
  rewrite fgets_bytes_lines by (try discriminate; lia).
  now destruct (fgets_bytes 511 (c :: t)).
Qed.

(** ** The fields of a line *)

Lemma scan_field_run (f rest : chars) :
  Forall (fun c => plain c = true) f ->
  scan_field (f ++ comma :: rest) = (f, comma :: rest).
Proof.
  induction 1 as [|c f Hc Hf IH]; [reflexivity|].
  cbn [app scan_field]. rewrite IH.
  unfold plain in Hc. destruct (is_comma c); [|reflexivity].
  rewrite andb_false_r in Hc. discriminate.
Qed.

Lemma field_text_inv (s : chars) (size : Z) :
  field_text s size = true ->
  nonempty s = true /\ Forall (fun c => plain c = true) s /\ fits s size = true.
Proof.
  unfold field_text. intros H. apply andb_true_iff in H as [H H3].
  apply andb_true_iff in H as [H1 H2]. rewrite forallb_forall in H2.
  repeat split; try assumption. now apply Forall_forall.
Qed.

Lemma skip_ws_head (s : chars) : isspace (cur s) = false -> skip_ws s = s.
Proof. destruct s as [|c s]; [reflexivity|]. apply skip_ws_nonspace. Qed.

(** A line made of a name, a printed integer, a kind word, a detail text and
    an amount that [%lf] reads is split by [sscanf] into exactly these. *)
Lemma sscanf_boat_line (nm : chars) (len : Z) (kind det rest : chars) (owed : double)
    (rest' : chars) :
  field_text nm 128 = true ->
  isspace (cur nm) = false ->
  INT_MIN <= len <= INT_MAX ->
  field_text kind 32 = true ->
  field_text det 64 = true ->
  cstr rest = rest ->
  scan_double rest = Some (owed, rest') ->
  sscanf_boat (nm ++ [comma] ++ fmt_d len ++ [comma] ++ kind ++ [comma] ++ det ++ [comma] ++ rest)
    = Fields nm len kind det owed.
Proof.
  intros Hnm Hsp Hlen Hkind Hdet Hrest Hscan.
  apply field_text_inv in Hnm as (Hnm1 & Hnm2 & Hnm3).
  apply field_text_inv in Hkind as (Hk1 & Hk2 & Hk3).
  apply field_text_inv in Hdet as (Hd1 & Hd2 & Hd3).
  unfold sscanf_boat. cbn [app].
  rewrite (cstr_app_plain nm _ Hnm2). cbn [cstr]. change (is_nul comma) with false. cbv iota.
  rewrite (cstr_app_plain _ _ (fmt_d_plain len)). cbn [cstr]. change (is_nul comma) with false. cbv iota.
  rewrite (cstr_app_plain kind _ Hk2). cbn [cstr]. change (is_nul comma) with false. cbv iota.
  rewrite (cstr_app_plain det _ Hd2). cbn [cstr]. change (is_nul comma) with false. cbv iota.
  rewrite Hrest.
  rewrite skip_ws_head by (destruct nm; [discriminate | exact Hsp]).
  replace (nonempty (nm ++ _)) with true by (destruct nm; [discriminate | reflexivity]).
  cbn [negb]. rewrite (scan_field_run nm _ Hnm2), Hnm1, Hnm3. cbn [negb cur tl].
  change (is_comma comma) with true. cbn [negb].
  rewrite scan_int_fmt_d by first [exact Hlen | reflexivity]. cbn [cur tl].
  change (is_comma comma) with true. cbn [negb].
  rewrite (scan_field_run kind _ Hk2), Hk1, Hk3. cbn [negb cur tl].
  change (is_comma comma) with true. cbn [negb].
  rewrite (scan_field_run det _ Hd2), Hd1, Hd3. cbn [negb cur tl].
  change (is_comma comma) with true. cbn [negb].
  now rewrite Hscan.
Qed.

(** [sscanf] returns less than 5 whenever it does not fill the five fields. *)
Lemma sscanf_boat_returned (line : chars) (n : Z) :
  sscanf_boat line = Returned n -> -1 <= n < 5.
Proof.
  unfold sscanf_boat, EOF.
  repeat match goal with
         | |- context [if ?b then _ else _] => destruct b
         | |- context [let '(_, _) := ?x in _] => destruct x
         | |- context [match ?x with Some _ => _ | None => _ end] => destruct x
         end;
    intros E; try discriminate; injection E as <-; lia.
Qed.

Lemma load_line_returned (manager : BoatManager) (line : chars) (n : Z) :
  sscanf_boat line = Returned n -> load_line manager line = Some manager.
Proof. intros E. unfold load_line. now rewrite E. Qed.

Lemma load_line_fields (manager : BoatManager) (line boatName : chars) (len : Z)
    (locStr detailStr : chars) (owed : double) :
  sscanf_boat line = Fields boatName len locStr detailStr owed ->
  load_line manager line =
    Some (if numBoats manager <? MAX_BOATS
          then mkManager (boats manager ++
                 [createBoat boatName len (parseLocationType locStr) detailStr owed])
          else manager).
Proof.
  intros E. unfold load_line. rewrite E. now destruct (numBoats manager <? MAX_BOATS).
Qed.

Lemma load_lines_app (manager : BoatManager) (l1 l2 : list chars) :
  load_lines manager (l1 ++ l2) =
    match load_lines manager l1 with
    | Some m => load_lines m l2
    | None => None
    end.
Proof.
  revert manager. induction l1 as [|x l1 IH]; intros manager; simpl; [reflexivity|].
  destruct (load_line manager x); [apply IH | reflexivity].
Qed.

(** ** Lines with too few fields *)

Lemma commas_cons (c : ascii) (s : chars) :
  commas (c :: s) = if is_comma c then S (commas s) else commas s.
Proof. unfold commas. simpl. now destruct (is_comma c). Qed.

Lemma commas_cstr (s : chars) : (commas (cstr s) <= commas s)%nat.
Proof.
  induction s as [|c s IH]; [apply Nat.le_refl|].
  cbn [cstr]. destruct (is_nul c); rewrite ?commas_cons; [unfold commas; simpl; lia|].
  destruct (is_comma c); lia.
Qed.

Lemma commas_skip_ws (s : chars) : (commas (skip_ws s) <= commas s)%nat.
Proof.
  induction s as [|c s IH]; [apply Nat.le_refl|].
  cbn [skip_ws]. destruct (isspace c); [|apply Nat.le_refl].
  rewrite commas_cons. destruct (is_comma c); lia.
Qed.

Lemma commas_scan_field (s f r : chars) : scan_field s = (f, r) -> commas s = commas r.
Proof.
  revert f r. induction s as [|c s IH]; intros f r; cbn [scan_field].
  - now intros [= <- <-].
  - destruct (is_comma c) eqn:Hc; [now intros [= <- <-]|].
    destruct (scan_field s) as [f' r']. intros [= <- <-].
    rewrite commas_cons, Hc. now apply (IH f').
Qed.

Lemma commas_head (s : chars) : is_comma (cur s) = true -> commas s = S (commas (tl s)).
Proof.
  destruct s as [|c s]; [discriminate|]. cbn [cur tl]. intros H.
  now rewrite commas_cons, H.
Qed.

Lemma commas_scan_digits (s : chars) (a v : Z) (r : chars) :
  scan_digits s a = (v, r) -> (commas r <= commas s)%nat.
Proof.
  revert a. induction s as [|c s IH]; intros a; cbn [scan_digits].
  - now intros [= <- <-].
  - destruct (isdigit c); [|now intros [= <- <-]].
    intros E. apply IH in E. rewrite commas_cons. destruct (is_comma c); lia.
Qed.

Lemma commas_scan_sign (s : chars) : (commas (snd (scan_sign s)) <= commas s)%nat.
Proof.
  destruct s as [|c s]; [apply Nat.le_refl|]. unfold scan_sign.
  rewrite commas_cons.
  destruct (code c =? 45); [cbn [snd]; destruct (is_comma c); lia|].
  destruct (code c =? 43); cbn [snd]; rewrite ?commas_cons; destruct (is_comma c); lia.
Qed.

Lemma commas_scan_int (s : chars) (v : Z) (r : chars) :
  scan_int s = Some (v, r) -> (commas r <= commas s)%nat.
Proof.
  unfold scan_int, strtol.
  pose proof (commas_skip_ws s) as H1.
  pose proof (commas_scan_sign (skip_ws s)) as H2.
  destruct (scan_sign (skip_ws s)) as [neg s']. cbn [snd] in H2.
  destruct (isdigit (cur s')); [|discriminate].
  destruct (scan_digits s' 0) as [v' r'] eqn:E. apply commas_scan_digits in E.
  intros [= _ <-]. lia.
Qed.

(** A line that [sscanf] splits into five fields has at least four commas. *)
Lemma sscanf_boat_fields_commas (line boatName : chars) (len : Z)
    (locStr detailStr : chars) (owed : double) :
  sscanf_boat line = Fields boatName len locStr detailStr owed ->
  (4 <= commas (cstr line))%nat.
Proof.
  unfold sscanf_boat.
  pose proof (commas_skip_ws (cstr line)) as H0.
  destruct (nonempty (skip_ws (cstr line))); cbn [negb]; [|discriminate].
  destruct (scan_field (skip_ws (cstr line))) as [f1 s1] eqn:E1.
  apply commas_scan_field in E1.
  destruct (nonempty f1); cbn [negb]; [|discriminate].
  destruct (fits f1 128); cbn [negb]; [|discriminate].
  destruct (is_comma (cur s1)) eqn:C1; cbn [negb]; [|discriminate].
  apply commas_head in C1.
  destruct (scan_int (tl s1)) as [[v s2]|] eqn:E2; [|discriminate].
  apply commas_scan_int in E2.
  destruct (is_comma (cur s2)) eqn:C2; cbn [negb]; [|discriminate].
  apply commas_head in C2.
  destruct (scan_field (tl s2)) as [f3 s3] eqn:E3. apply commas_scan_field in E3.
  destruct (nonempty f3); cbn [negb]; [|discriminate].
  destruct (fits f3 32); cbn [negb]; [|discriminate].
  destruct (is_comma (cur s3)) eqn:C3; cbn [negb]; [|discriminate].
  apply commas_head in C3.
  destruct (scan_field (tl s3)) as [f4 s4] eqn:E4. apply commas_scan_field in E4.
  destruct (nonempty f4); cbn [negb]; [|discriminate].
  destruct (fits f4 64); cbn [negb]; [|discriminate].
  destruct (is_comma (cur s4)) eqn:C4; cbn [negb]; [|discriminate].
  apply commas_head in C4.
  intros _. lia.
Qed.

Lemma sortBoatsByName_singleton `{Libc_qsort} (b : Boat) :
  sortBoatsByName (mkManager [b]) = mkManager [b].
Proof.
  pose proof (sortBoatsByName_perm (mkManager [b])) as P. cbn [boats] in P.
  apply Permutation_length_1_inv in P.
  destruct (sortBoatsByName (mkManager [b])) as [l]. cbn [boats] in P. now subst.
Qed.

(** C7.  The claim fails where a field of a short line overruns its buffer.
    The line made of a name of 128 bytes and ",10,slip" has two commas, so
    fewer than five fields can be taken from it; the conversion [%[^,]] has no
    field width, so [sscanf] stores the 128 bytes and the terminator in
    [boatName[128]], one byte past its end, and what the load does from there
    is undefined: there is no store for a file of one well-formed line and
    this line.  With a name of 127 bytes the same line is skipped and the file
    loads as one record. *)
Theorem short_line_overruns_boatName :
  commas (repeat (ascii_of_N 65) 128 ++ str ",10,slip" ++ [newline]) = 2%nat /\
  sscanf_boat (repeat (ascii_of_N 65) 128 ++ str ",10,slip" ++ [newline]) = Overrun /\
  (forall L : Libc_qsort,
     @loadFromCSV L empty_manager
       (Some (str "Big Brother,20,slip,27,1200.00" ++ [newline] ++
              repeat (ascii_of_N 65) 128 ++ str ",10,slip" ++ [newline])) = None) /\
  sscanf_boat (repeat (ascii_of_N 65) 127 ++ str ",10,slip" ++ [newline]) = Returned 3 /\
  (forall L : Libc_qsort,
     @loadFromCSV L empty_manager
       (Some (str "Big Brother,20,slip,27,1200.00" ++ [newline] ++
              repeat (ascii_of_N 65) 127 ++ str ",10,slip" ++ [newline]))
     = Some (mkManager [mkBoat (str "Big Brother") 20 SLIP (slipNumber 27)
                          (decimal_to_double false 120000 (-2))])).
Proof.
  splits; try reflexivity.
  intros L. unfold loadFromCSV.
  change (load_lines empty_manager
            (fgets_lines 511
               (str "Big Brother,20,slip,27,1200.00" ++ [newline] ++
                repeat (ascii_of_N 65) 127 ++ str ",10,slip" ++ [newline])))
    with (Some (mkManager [big_brother])).
  cbv beta iota. now rewrite sortBoatsByName_singleton.
Qed.

(** X20.  [loadFromCSV] skips every line for which [sscanf] returns less than
    5: the store is as if the line were not in the file, and the lines after
    it are still read.  A line with fewer than four commas never yields a
    record: it is skipped, unless a field of it overruns its buffer.  A file
    of one well-formed line and one line for which [sscanf] returns less than
    5, in either order, loads as a store of exactly one record. *)
Theorem loadFromCSV_skips_short_lines :
  (forall line n,
     sscanf_boat line = Returned n ->
     n < 5 /\ forall manager, load_line manager line = Some manager)
  /\
  (forall line manager,
     (commas (cstr line) < 4)%nat ->
     load_line manager line = Some manager \/ sscanf_boat line = Overrun)
  /\
  (forall manager before line after n,
     sscanf_boat line = Returned n ->
     load_lines manager (before ++ line :: after) = load_lines manager (before ++ after))
  /\
  (forall (L : Libc_qsort) good bad boatName len locStr detailStr owed n,
     whole_line good -> whole_line bad ->
     sscanf_boat good = Fields boatName len locStr detailStr owed ->
     sscanf_boat bad = Returned n ->
     loadFromCSV empty_manager (Some (good ++ bad)) =
       Some (mkManager [createBoat boatName len (parseLocationType locStr) detailStr owed])
     /\
     loadFromCSV empty_manager (Some (bad ++ good)) =
       Some (mkManager [createBoat boatName len (parseLocationType locStr) detailStr owed])).
Proof.
  splits.
  - intros line n E. split; [apply sscanf_boat_returned in E; lia|].
    intros manager. now apply load_line_returned with n.
  - intros line manager Hc.
    destruct (sscanf_boat line) as [n | bn len ls ds ow |] eqn:E.
    + left. now apply load_line_returned with n.
    + apply sscanf_boat_fields_commas in E. lia.
    + now right.
  - intros manager before line after n E. rewrite !load_lines_app.
    destruct (load_lines manager before) as [m|]; [|reflexivity].
    cbn [load_lines]. now rewrite (load_line_returned m line n E).
  - intros L good bad bn len ls ds ow n Hg Hb Eg Eb.
    unfold loadFromCSV. split.
    + replace (good ++ bad) with (List.concat [good; bad]) by (simpl; now rewrite app_nil_r).
      rewrite fgets_lines_whole by (repeat constructor; assumption).
      cbn [load_lines]. rewrite (load_line_fields _ _ _ _ _ _ _ Eg).
      change (numBoats empty_manager <? MAX_BOATS) with true. cbv iota.
      rewrite (load_line_returned _ bad n Eb). cbn [boats empty_manager app].
      now rewrite sortBoatsByName_singleton.
    + replace (bad ++ good) with (List.concat [bad; good]) by (simpl; now rewrite app_nil_r).
      rewrite fgets_lines_whole by (repeat constructor; assumption).
      cbn [load_lines]. rewrite (load_line_returned _ bad n Eb).
      rewrite (load_line_fields _ _ _ _ _ _ _ Eg).
      change (numBoats empty_manager <? MAX_BOATS) with true. cbv iota.
      cbn [boats empty_manager app]. now rewrite sortBoatsByName_singleton.
Qed.

(** Closes [whole_line] goals on explicit lines. *)
Ltac whole_line_explicit body :=
  exists body; split; [reflexivity | split; [repeat constructor | simpl; lia]].

Lemma loadFromCSV_skips_short_lines_witness :
  @loadFromCSV insertion_qsort empty_manager
    (Some ((str "Big Brother,20,slip,27,1200.00" ++ [newline]) ++
           (str "Foo,10,slip" ++ [newline])))
  = Some (mkManager [big_brother])
  /\
  (load_line (mkManager [big_brother]) (str "Foo,10,slip" ++ [newline])
     = Some (mkManager [big_brother]) \/
   sscanf_boat (str "Foo,10,slip" ++ [newline]) = Overrun).
Proof.
  pose proof loadFromCSV_skips_short_lines as (_ & C & _ & F).
  split.
  - apply (F insertion_qsort
             (str "Big Brother,20,slip,27,1200.00" ++ [newline])
             (str "Foo,10,slip" ++ [newline])
             (str "Big Brother") 20 (str "slip") (str "27")
             (decimal_to_double false 120000 (-2)) 3).
    + whole_line_explicit (str "Big Brother,20,slip,27,1200.00").
    + whole_line_explicit (str "Foo,10,slip").
    + reflexivity.
    + reflexivity.
  - apply C. vm_compute. lia.
Defined.

(** ** parseLocationType and createBoat *)

Lemma parseLocationType_cases (locStr : chars) :
  let w := map tolower (firstn 31 (cstr locStr)) in
  (w = str "land" -> parseLocationType locStr = LAND) /\
  (w = str "trailor" -> parseLocationType locStr = TRAILOR) /\
  (w = str "storage" -> parseLocationType locStr = STORAGE) /\
  (w <> str "land" -> w <> str "trailor" -> w <> str "storage" ->
   parseLocationType locStr = SLIP).
Proof.
  intros w. unfold parseLocationType. fold w. splits.
  - now intros ->.
  - now intros ->.
  - now intros ->.
  - intros H1 H2 H3.
    destruct (streq w (str "slip")); [reflexivity|].
    destruct (streq w (str "land")) eqn:E1; [now apply streq_eq in E1|].
    destruct (streq w (str "trailor")) eqn:E2; [now apply streq_eq in E2|].
    destruct (streq w (str "storage")) eqn:E3; [now apply streq_eq in E3|].
    reflexivity.
Qed.

(** C8.  The claim fails where the kind word overruns its buffer.  The line
    "Foo,10,<word>,5,0.00" with an unrecognised kind word of 32 bytes has its
    five fields, but the conversion [%[^,]] has no field width, so [sscanf]
    stores the 32 bytes and the terminator in [locStr[32]], one byte past its
    end, and what [loadFromCSV] and [addBoat] do from there is undefined:
    there is no record.  [parseLocationType] itself reads the word as SLIP,
    and with a word of 31 bytes the line gives a record kept in a slip, as
    "Foo,10,submarine,5,0.00" does. *)
Theorem kind_word_overruns_locStr :
  sscanf_boat (str "Foo,10," ++ repeat (ascii_of_N 120) 32 ++ str ",5,0.00") = Overrun /\
  load_line empty_manager (str "Foo,10," ++ repeat (ascii_of_N 120) 32 ++ str ",5,0.00")
    = None /\
  (forall (L : Libc_qsort) (manager : BoatManager),
     @addBoat L manager
       (Some (str "Foo,10," ++ repeat (ascii_of_N 120) 32 ++ str ",5,0.00" ++ [newline]))
     = None) /\
  parseLocationType (repeat (ascii_of_N 120) 32) = SLIP /\
  load_line empty_manager (str "Foo,10," ++ repeat (ascii_of_N 120) 31 ++ str ",5,0.00")
    = Some (mkManager [mkBoat (str "Foo") 10 SLIP (slipNumber 5) dzero]) /\
  load_line empty_manager (str "Foo,10,submarine,5,0.00")
    = Some (mkManager [mkBoat (str "Foo") 10 SLIP (slipNumber 5) dzero]).
Proof.
  splits; reflexivity.
Qed.

(** X21.  A kind word that is none of "land", "trailor" and "storage" (letter
    case ignored) is read as SLIP; a line that [sscanf] splits into five
    fields always yields a record, of the kind [parseLocationType] gives, when
    the store has room; and a line made of a name, a printed integer, a kind
    word, a detail and an amount is split into these five fields whatever the
    kind word is, as long as it is a non-empty text without comma, newline or
    NUL that fits its buffer of 32 bytes.  "Foo,10,submarine,5,0.00" yields a
    record kept in a slip. *)
Theorem parseLocationType_fallback :
  (forall locStr,
     let w := map tolower (firstn 31 (cstr locStr)) in
     w <> str "land" -> w <> str "trailor" -> w <> str "storage" ->
     parseLocationType locStr = SLIP)
  /\
  (forall manager line boatName len locStr detailStr owed,
     sscanf_boat line = Fields boatName len locStr detailStr owed ->
     numBoats manager < MAX_BOATS ->
     exists b,
       load_line manager line = Some (mkManager (boats manager ++ [b])) /\
       b = createBoat boatName len (parseLocationType locStr) detailStr owed /\
       locType b = parseLocationType locStr)
  /\
  (forall nm len word det rest owed rest',
     field_text nm 128 = true -> isspace (cur nm) = false ->
     INT_MIN <= len <= INT_MAX ->
     field_text det 64 = true ->
     cstr rest = rest -> scan_double rest = Some (owed, rest') ->
     field_text word 32 = true ->
     sscanf_boat (nm ++ [comma] ++ fmt_d len ++ [comma] ++ word ++ [comma] ++
                  det ++ [comma] ++ rest)
       = Fields nm len word det owed)
  /\
  load_line empty_manager (str "Foo,10,submarine,5,0.00")
    = Some (mkManager [mkBoat (str "Foo") 10 SLIP (slipNumber 5) dzero]).
Proof.
  splits.
  - intros locStr. apply parseLocationType_cases.
  - intros manager line bn len ls ds ow E Hroom.
    eexists. rewrite (load_line_fields _ _ _ _ _ _ _ E).
    destruct (Z.ltb_spec (numBoats manager) MAX_BOATS); [|lia].
    splits; reflexivity.
  - intros nm len word det rest owed rest' Hnm Hsp Hlen Hdet Hrest Hscan Hword.
    now apply sscanf_boat_line with rest'.
  - reflexivity.
Qed.

Lemma parseLocationType_fallback_witness :
  parseLocationType (str "submarine") = SLIP
  /\
  (exists b,
     load_line (mkManager [big_brother]) (str "Foo,10,Submarine,5,0.00")
       = Some (mkManager ([big_brother] ++ [b])) /\
     b = createBoat (str "Foo") 10 (parseLocationType (str "Submarine")) (str "5") dzero /\
     locType b = parseLocationType (str "Submarine"))
  /\
  sscanf_boat (str "Foo,10,yellow submarine,5,0.00")
    = Fields (str "Foo") 10 (str "yellow submarine") (str "5") dzero.
Proof.
  pose proof parseLocationType_fallback as (P & L & S & _).
  splits.
  - apply (P (str "submarine")); vm_compute; discriminate.
  - apply (L (mkManager [big_brother]) (str "Foo,10,Submarine,5,0.00")
             (str "Foo") 10 (str "Submarine") (str "5") dzero).
    + reflexivity.
    + reflexivity.
  - apply (S (str "Foo") 10 (str "yellow submarine") (str "5") (str "0.00") dzero []);
      try reflexivity.
    vm_compute. split; discriminate.
Defined.

Lemma atoi_no_digits (s : chars) :
  isdigit (cur (snd (scan_sign (skip_ws (cstr s))))) = false -> atoi s = 0.
Proof.
  unfold atoi, strtol. destruct (scan_sign (skip_ws (cstr s))) as [neg s'].
  cbn [snd]. now intros ->.
Qed.



(** ** The text of a balance *)

Lemma double_same_eq (x y : double) : double_same x y = true -> x = y.
Proof.
  destruct x as [a | a | | a m e], y as [b | b | | b m' e']; simpl; try discriminate.
  - intros E. apply eqb_prop in E. congruence.
  - intros E. apply eqb_prop in E. congruence.
  - reflexivity.
  - intros E. apply andb_true_iff in E as [E E3]. apply andb_true_iff in E as [E1 E2].
    apply eqb_prop in E1. apply Pos.eqb_eq in E2. apply Z.eqb_eq in E3. congruence.
Qed.

Lemma round_half_even_bounds (n d : Z) :
  0 <= n -> 0 < d -> 0 <= round_half_even n d <= n / d + 1.
Proof.
  intros Hn Hd. unfold round_half_even.
  pose proof (Z.div_pos n d Hn Hd).
  destruct (2 * (n mod d) ?= d); [destruct (Z.even (n / d))| |]; lia.
Qed.

Lemma valid_finite_bounds (s : bool) (m : positive) (e : Z) :
  valid_binary prec emax (S754_finite s m e) = true ->
  Zpos m < 2 ^ 53 /\ e <= 971.
Proof.
  cbn [valid_binary]. unfold bounded, canonical_mantissa, fexp, SpecFloat.emin, prec, emax.
  intros H. apply andb_true_iff in H as [H1 H2].
  apply Z.eqb_eq in H1. apply Z.leb_le in H2. split; [|lia].
  pose proof (digits2_pos_bound m) as Hm.
  assert (Zpos (digits2_pos m) <= 53) by lia.
  eapply Z.lt_le_trans; [exact Hm|]. apply Z.pow_le_mono_r; lia.
Qed.

Lemma hundredths_bounds (x : double) :
  valid_binary prec emax x = true -> 0 <= hundredths x <= 100 * 2 ^ 1024.
Proof.
  destruct x as [s | s | | s m e]; try (intros _; cbn [hundredths]; split; [lia | easy]).
  intros Hv. apply valid_finite_bounds in Hv as [Hm He]. cbn [hundredths].
  destruct e as [|p|p].
  - rewrite Z.pow_0_r. split; [lia|].
    assert (2 ^ 53 <= 2 ^ 1024) by (apply Z.pow_le_mono_r; lia). lia.
  - assert (Hp : 0 < 2 ^ Zpos p <= 2 ^ 971).
    { split; [apply Z.pow_pos_nonneg; lia | apply Z.pow_le_mono_r; lia]. }
    split; [lia|].
    replace (2 ^ 1024) with (2 ^ 53 * 2 ^ 971) by (rewrite <- Z.pow_add_r; [reflexivity | lia | lia]).
    assert (Zpos m * 2 ^ Zpos p <= 2 ^ 53 * 2 ^ 971); [|lia].
    apply Z.mul_le_mono_nonneg; lia.
  - rewrite Z.pow_pos_fold.
    assert (Hp : 0 < 2 ^ Zpos p) by (apply Z.pow_pos_nonneg; lia).
    pose proof (round_half_even_bounds (100 * Zpos m) (2 ^ Zpos p) ltac:(lia) Hp) as [Hr1 Hr2].
    split; [assumption|].
    assert (100 * Zpos m / 2 ^ Zpos p <= 100 * Zpos m).
    { apply Z.div_le_upper_bound; [assumption|]. nia. }
    assert (2 ^ 53 + 1 <= 2 ^ 1024) by (vm_compute; discriminate). lia.
Qed.

Lemma fmt_nat_plain (n : Z) : 0 <= n -> Forall (fun c => plain c = true) (fmt_nat n).
Proof.
  intros Hn. destruct (fmt_nat_spec n Hn) as (ds & -> & _ & Hd & _).
  eapply Forall_impl; [|exact Hd]. apply isdigit_plain.
Qed.

Lemma digit_char_plain (d : Z) : 0 <= d <= 9 -> plain (digit_char d) = true.
Proof. intros H. now apply isdigit_plain, digit_char_isdigit. Qed.

Lemma fmt_2f_plain (x : double) :
  valid_binary prec emax x = true -> Forall (fun c => plain c = true) (fmt_2f x).
Proof.
  intros Hv. unfold fmt_2f. apply Forall_app. split.
  - destruct (sign_bit x); repeat constructor.
  - pose proof (hundredths_bounds x Hv) as [Hh _].
    destruct x as [s | s | | s m e]; try (repeat constructor; fail).
    apply Forall_app. split; [apply fmt_nat_plain, Z.div_pos; lia|].
    set (h := hundredths (S754_finite s m e)) in *.
    pose proof (Z.mod_pos_bound h 100 ltac:(lia)).
    pose proof (Z.mod_pos_bound h 10 ltac:(lia)).
    repeat constructor; apply digit_char_plain; [|lia].
    split; [apply Z.div_pos; lia | ]. apply Z.lt_succ_r, Z.div_lt_upper_bound; lia.
Qed.

Lemma fmt_2f_length (x : double) :
  valid_binary prec emax x = true -> (List.length (fmt_2f x) <= 313)%nat.
Proof.
  intros Hv. unfold fmt_2f. rewrite length_app.
  assert (List.length (if sign_bit x then [minus] else []) <= 1)%nat
    by (destruct (sign_bit x); simpl; lia).
  pose proof (hundredths_bounds x Hv) as [Hh1 Hh2].
  assert (Hq : 0 <= hundredths x / 100 <= 2 ^ 1024).
  { split; [apply Z.div_pos; lia|]. apply Z.div_le_upper_bound; lia. }
  assert (Hn : (List.length (fmt_nat (hundredths x / 100)) <= 309)%nat).
  { destruct (fmt_nat_spec _ (proj1 Hq)) as (ds & -> & _ & _ & _ & Hk).
    assert (Z.of_nat (List.length ds) <= 309); [|lia].
    apply Hk; [lia|]. eapply Z.le_lt_trans; [apply Hq|]. vm_compute. reflexivity. }
  set (q := hundredths x / 100) in *. clearbody q.
  set (sg := if sign_bit x then [minus] else []) in *. clearbody sg.
  destruct x as [s | s | | s m e]; rewrite ?length_app; simpl List.length; lia.
Qed.

(** ** Saving and loading again *)

Lemma fprintf_boat_shape (b : Boat) :
  fprintf_boat b =
    cstr (name b) ++ [comma] ++ fmt_d (length b) ++ [comma] ++
    locationTypeString (locType b) ++ [comma] ++ detail_text b ++ [comma] ++
    (fmt_2f (amountOwed b) ++ [newline]).
Proof.
  unfold fprintf_boat, detail_text. destruct (locType b); reflexivity.
Qed.

Lemma plain_not_newline (s : chars) :
  Forall (fun c => plain c = true) s -> Forall (fun c => is_newline c = false) s.
Proof.
  apply Forall_impl. intros c. unfold plain.
  destruct (is_newline c); [|reflexivity]. rewrite andb_false_r. discriminate.
Qed.

Lemma field_text_fmt_d (n : Z) : in_int n = true -> field_text (fmt_d n) 64 = true.
Proof.
  intros Hn. unfold in_int in Hn. apply andb_true_iff in Hn as [H1 H2].
  apply Z.leb_le in H1, H2. unfold field_text.
  pose proof (fmt_d_length n (conj H1 H2)). pose proof (fmt_d_nonempty n) as Hne.
  repeat (apply andb_true_iff; split).
  - destruct (fmt_d n); [congruence | reflexivity].
  - apply forallb_forall, Forall_forall, fmt_d_plain.
  - unfold fits. apply Z.ltb_lt. lia.
Qed.

Lemma in_int_range (n : Z) : in_int n = true -> INT_MIN <= n <= INT_MAX.
Proof.
  unfold in_int. intros H. apply andb_true_iff in H as [H1 H2].
  apply Z.leb_le in H1, H2. lia.
Qed.

Lemma fits_length (s : chars) (size : Z) :
  fits s size = true -> Z.of_nat (List.length s) < size.
Proof. unfold fits. apply Z.ltb_lt. Qed.

(** What a storable record is made of. *)
Lemma storable_inv (b : Boat) :
  storable b = true ->
  Forall (fun c => plain c = true) (name b) /\
  field_text (name b) 128 = true /\
  isspace (cur (name b)) = false /\
  in_int (length b) = true /\
  field_text (locationTypeString (locType b)) 32 = true /\
  parseLocationType (locationTypeString (locType b)) = locType b /\
  field_text (detail_text b) 64 = true /\
  (List.length (detail_text b) <= 31)%nat /\
  createBoat (name b) (length b) (locType b) (detail_text b) (amountOwed b) = b /\
  valid_binary prec emax (amountOwed b) = true /\
  two_decimal (amountOwed b) = true.
Proof.
  unfold storable. intros H.
  apply andb_true_iff in H as [H Htwo]. apply andb_true_iff in H as [H Hv].
  apply andb_true_iff in H as [H Hdt]. apply andb_true_iff in H as [H Hlen].
  apply andb_true_iff in H as [Hname Hsp].
  pose proof (field_text_inv _ _ Hname) as (Hn1 & Hn2 & Hn3).
  apply negb_true_iff in Hsp. apply fits_length in Hn3.
  assert (Hcopy : strncpy 127 (name b) = name b).
  { unfold strncpy. rewrite (cstr_plain _ Hn2). apply firstn_all2. lia. }
  destruct b as [nm len lt dt ow]. cbn [name length locType detail amountOwed] in *.
  unfold detail_text, createBoat. cbn [name length locType detail amountOwed].
  rewrite Hcopy.
  destruct lt, dt; try discriminate; cbn [detail_int detail_bayLetter detail_licenseTag].
  - splits; try assumption; try reflexivity.
    + now apply field_text_fmt_d.
    + pose proof (fmt_d_length n (in_int_range n Hdt)). lia.
    + now rewrite (atoi_fmt_d n (in_int_range n Hdt)).
  - splits; try assumption; try reflexivity.
    + unfold field_text. cbn [nonempty forallb]. rewrite Hdt. reflexivity.
    + simpl. lia.
  - pose proof (field_text_inv _ _ Hdt) as (Ht1 & Ht2 & Ht3). apply fits_length in Ht3.
    rewrite (cstr_plain _ Ht2).
    splits; try assumption; try reflexivity.
    + unfold field_text in *. apply andb_true_iff in Hdt as [Hdt _]. rewrite Hdt.
      unfold fits. cbn [andb]. apply Z.ltb_lt. lia.
    + lia.
    + unfold strncpy. rewrite (cstr_plain _ Ht2), firstn_all2 by lia. reflexivity.
  - splits; try assumption; try reflexivity.
    + now apply field_text_fmt_d.
    + pose proof (fmt_d_length n (in_int_range n Hdt)). lia.
    + now rewrite (atoi_fmt_d n (in_int_range n Hdt)).
Qed.

Lemma locationTypeString_length (t : LocationType) :
  (List.length (locationTypeString t) <= 7)%nat.
Proof. destruct t; simpl; lia. Qed.

(** The line written for a storable record is read back as that record. *)
Lemma fprintf_boat_loads (b : Boat) :
  storable b = true ->
  whole_line (fprintf_boat b) /\
  forall manager,
    load_line manager (fprintf_boat b) =
      Some (if numBoats manager <? MAX_BOATS
            then mkManager (boats manager ++ [b]) else manager).
Proof.
  intros Hs.
  destruct (storable_inv b Hs)
    as (Hn & Hname & Hsp & Hlen & Hkind & Hparse & Hdet & Hdl & Hmk & Hv & Htwo).
  pose proof (fmt_2f_plain _ Hv) as Hplain.
  pose proof (fmt_2f_length _ Hv) as Hal.
  rewrite fprintf_boat_shape, (cstr_plain _ Hn). split.
  - exists (name b ++ [comma] ++ fmt_d (length b) ++ [comma] ++
            locationTypeString (locType b) ++ [comma] ++ detail_text b ++ [comma] ++
            fmt_2f (amountOwed b)).
    splits.
    + now rewrite <- !app_assoc.
    + destruct (field_text_inv _ _ Hkind) as (_ & Hk & _).
      destruct (field_text_inv _ _ Hdet) as (_ & Hd & _).
      pose proof (fmt_d_plain (length b)) as Hl.
      set (amount := fmt_2f (amountOwed b)) in *. clearbody amount.
      set (len := fmt_d (length b)) in *. clearbody len.
      repeat (apply Forall_app; split);
        first [ now apply plain_not_newline | repeat constructor ].
    + destruct (field_text_inv _ _ Hname) as (_ & _ & Hf). apply fits_length in Hf.
      pose proof (fmt_d_length _ (in_int_range _ Hlen)).
      pose proof (locationTypeString_length (locType b)).
      rewrite !length_app. cbn [List.length]. lia.
  - intros manager.
    unfold two_decimal in Htwo.
    destruct (scan_double (fmt_2f (amountOwed b) ++ [newline])) as [[y r]|] eqn:Escan;
      [|discriminate].
    apply double_same_eq in Htwo. subst y.
    rewrite (load_line_fields manager _ (name b) (length b)
               (locationTypeString (locType b)) (detail_text b) (amountOwed b)).
    + now rewrite Hparse, Hmk.
    + apply sscanf_boat_line with r; try assumption.
      * now apply in_int_range.
      * now rewrite (cstr_app_plain _ _ Hplain).
Qed.

Lemma load_lines_storable (l : list Boat) (manager : BoatManager) :
  forallb storable l = true ->
  numBoats manager + Z.of_nat (List.length l) <= MAX_BOATS ->
  load_lines manager (map fprintf_boat l) = Some (mkManager (boats manager ++ l)).
Proof.
  revert manager. induction l as [|b l IH]; intros manager Hs Hroom.
  - cbn [map load_lines]. rewrite app_nil_r. now destruct manager.
  - cbn [forallb] in Hs. apply andb_true_iff in Hs as [Hb Hs].
    cbn [map load_lines]. rewrite (proj2 (fprintf_boat_loads b Hb) manager).
    cbn [List.length] in Hroom.
    destruct (Z.ltb_spec (numBoats manager) MAX_BOATS); [|lia].
    rewrite IH; [| assumption |].
    + cbn [boats]. now rewrite <- app_assoc.
    + unfold numBoats in *. cbn [boats]. rewrite length_app. cbn [List.length]. lia.
Qed.




(** * Further properties of the program *)

(** ** The comparison of names *)

Lemma lex_refl (k : list Z) : lex k k = 0.
Proof. now apply lex_eq. Qed.

Lemma fold_key_tolower (a : chars) : fold_key (map tolower a) = fold_key a.
Proof.
  induction a as [|c a IH]; [reflexivity|].
  cbn [map]. rewrite !fold_key_cons, tolower_idem, IH.
  destruct (Z.eqb_spec (code c) 0) as [E|E].
  - apply tolower_nul in E. now rewrite E.
  - destruct (Z.eqb_spec (code (tolower c)) 0) as [E'|E']; [|reflexivity].
    apply (proj1 (tolower_nul c)) in E'. contradiction.
Qed.

(** X1.  [caseInsensitiveCompare] returns -1, 0 or 1 and is an order on
    names: a name compares equal to itself, swapping the arguments negates the
    result, and the order is transitive. *)
Theorem caseInsensitiveCompare_order (a b c : chars) :
  (caseInsensitiveCompare a b = -1 \/ caseInsensitiveCompare a b = 0 \/
   caseInsensitiveCompare a b = 1) /\
  caseInsensitiveCompare a a = 0 /\
  caseInsensitiveCompare b a = - caseInsensitiveCompare a b /\
  (caseInsensitiveCompare a b <= 0 -> caseInsensitiveCompare b c <= 0 ->
   caseInsensitiveCompare a c <= 0).
Proof.
  rewrite !caseInsensitiveCompare_lex. splits.
  - apply lex_values.
  - apply lex_refl.
  - apply lex_swap.
  - apply lex_trans.
Qed.

Lemma caseInsensitiveCompare_order_witness :
  caseInsensitiveCompare (str "anna") (str "Dinghy") <= 0.
Proof.
  apply (proj2 (proj2 (proj2
           (caseInsensitiveCompare_order (str "anna") (str "Big Brother") (str "Dinghy"))))).
  - vm_compute. discriminate.
  - vm_compute. discriminate.
Defined.

(** X2.  The comparison does not see letter case: folding either argument to
    lower case leaves the result as it is. *)
Theorem caseInsensitiveCompare_ignores_case (a b : chars) :
  caseInsensitiveCompare (map tolower a) b = caseInsensitiveCompare a b /\
  caseInsensitiveCompare a (map tolower b) = caseInsensitiveCompare a b.
Proof.
  rewrite !caseInsensitiveCompare_lex, !fold_key_tolower. now split.
Qed.

(** ** The names of the kinds *)

Lemma map_length_eq {A B : Type} (f : A -> B) (l : list A) (l' : list B) :
  map f l = l' -> List.length l = List.length l'.
Proof. intros <-. symmetry. apply length_map. Qed.

(** X3.  [parseLocationType] reads back the name [locationTypeString] gives
    for a kind, in any mix of upper and lower case. *)
Theorem parseLocationType_any_case (locStr : chars) (t : LocationType) :
  map tolower (cstr locStr) = locationTypeString t ->
  parseLocationType locStr = t.
Proof.
  intros E. unfold parseLocationType.
  assert (Hlen : (List.length (cstr locStr) <= 31)%nat).
  { rewrite (map_length_eq _ _ _ E). destruct t; simpl; lia. }
  rewrite firstn_all2 by exact Hlen. rewrite E. now destruct t.
Qed.

Lemma parseLocationType_any_case_witness :
  parseLocationType (str "StoRaGe") = STORAGE /\
  parseLocationType (locationTypeString TRAILOR) = TRAILOR.
Proof.
  split.
  - apply (parseLocationType_any_case (str "StoRaGe") STORAGE). reflexivity.
  - apply (parseLocationType_any_case (locationTypeString TRAILOR) TRAILOR). reflexivity.
Defined.

(** ** The comparison function on slots *)

Lemma boatCompareByName_slots_consistent : consistent boatCompareByName_slots.
Proof.
  split.
  - intros [x|] [y|]; try reflexivity. cbn [boatCompareByName_slots].
    rewrite !caseInsensitiveCompare_lex, lex_swap. now rewrite Z.sgn_opp.
  - intros [x|] [y|] [z|]; cbn [boatCompareByName_slots]; try lia.
    rewrite !caseInsensitiveCompare_lex. apply lex_trans.
Qed.

(** X4.  The comparison function as [qsort] calls it is one the C standard
    accepts, also on slots that hold NULL, and an array in ascending order
    under it has its records first, in ascending order of name, and its NULL
    slots last. *)
Theorem boatCompareByName_slots_order (l : list (option Boat)) :
  consistent boatCompareByName_slots /\
  (ascending boatCompareByName_slots l ->
   exists records k,
     l = map Some records ++ repeat None k /\
     ascending boatCompareByName records).
Proof.
  split; [apply boatCompareByName_slots_consistent|].
  induction 1 as [|p l Hs IH Hall].
  - exists [], 0%nat. split; [reflexivity | constructor].
  - destruct IH as (records & k & -> & Hr). destruct p as [b|].
    + exists (b :: records), k. split; [reflexivity|].
      constructor; [assumption|].
      apply Forall_app in Hall as [Hall _]. rewrite Forall_map in Hall. exact Hall.
    + destruct records as [|r records].
      * exists [], (S k). split; [reflexivity | constructor].
      * exfalso. apply Forall_inv in Hall. cbn [boatCompareByName_slots] in Hall. lia.
Qed.

Lemma boatCompareByName_slots_order_witness :
  exists records k,
    [Some anna_slip; Some big_brother; None; None] = map Some records ++ repeat None k /\
    ascending boatCompareByName records.
Proof.
  apply (proj2 (boatCompareByName_slots_order [Some anna_slip; Some big_brother; None; None])).
  repeat constructor; vm_compute; discriminate.
Defined.

(** ** findBoatIndex *)

(** X5.  [findBoatIndex] returns -1 or an index of the active part of the
    array; at that index the record's name compares equal to the name sought
    and no record before it does. *)
Theorem findBoatIndex_bounds (manager : BoatManager) (name0 : chars) :
  findBoatIndex manager name0 = -1 \/
  (0 <= findBoatIndex manager name0 < numBoats manager /\
   exists b,
     nth_error (boats manager) (Z.to_nat (findBoatIndex manager name0)) = Some b /\
     caseInsensitiveCompare (name b) name0 = 0 /\
     no_match name0 (firstn (Z.to_nat (findBoatIndex manager name0)) (boats manager))).
Proof.
  destruct (find_from_cases (boats manager) name0) as [Hn | (pre & b & post & Hm)].
  - left. now apply find_from_no_match.
  - right. unfold findBoatIndex. rewrite (find_from_first_match _ _ _ _ _ 0 Hm).
    destruct Hm as (E & Hn & Hb). rewrite Z.add_0_l, Nat2Z.id. unfold numBoats. rewrite E.
    split.
    + rewrite length_app. cbn [List.length]. lia.
    + exists b. splits.
      * apply nth_error_middle.
      * exact Hb.
      * rewrite firstn_app, Nat.sub_diag, firstn_all. cbn [firstn]. now rewrite app_nil_r.
Qed.

(** ** The lines of a file *)

Lemma fgets_lines_room (fp : chars) (room : nat) :
  (1 <= room <= 511)%nat ->
  List.concat (fgets_lines room fp) = fp /\
  Forall fgets_line (fgets_lines room fp) /\
  (forall line rest, fgets_lines room fp = line :: rest -> (List.length line <= room)%nat).
Proof.
  revert room. induction fp as [|c t IH]; intros room Hr.
  - splits; [reflexivity | constructor | discriminate].
  - cbn [fgets_lines].
    destruct (is_newline c || (room =? 1)%nat) eqn:Hend.
    + destruct (IH 511%nat ltac:(lia)) as (Hc & Hf & _). splits.
      * cbn [List.concat app]. now rewrite Hc.
      * constructor; [|assumption]. unfold fgets_line; splits; [discriminate | simpl; lia | constructor].
      * intros line rest [= <- _]. simpl. lia.
    + apply orb_false_iff in Hend as [Hnl Hroom]. apply Nat.eqb_neq in Hroom.
      destruct (IH (room - 1)%nat ltac:(lia)) as (Hc & Hf & Hl).
      destruct (fgets_lines (room - 1) t) as [|line rest].
      * cbn [List.concat] in Hc. subst t. splits.
        -- reflexivity.
        -- constructor; [|constructor]. unfold fgets_line; splits; [discriminate | simpl; lia | constructor].
        -- intros line rest [= <- _]. simpl. lia.
      * specialize (Hl line rest eq_refl). splits.
        -- cbn [List.concat app] in *. now rewrite Hc.
        -- apply Forall_cons_iff in Hf as [(Hne & Hlen & Hnn) Hf].
           constructor; [|assumption]. unfold fgets_line. splits.
           ++ discriminate.
           ++ simpl. lia.
           ++ destruct line as [|c' line']; [congruence|].
              change (removelast (c :: c' :: line')) with (c :: removelast (c' :: line')).
              now constructor.
        -- intros line0 rest0 [= <- _]. simpl. lia.
Qed.

(** X6.  The loop of [loadFromCSV] reads the whole file and nothing twice:
    the lines [fgets] returns, put end to end, are the content of the file;
    no line is empty or longer than 511 bytes, and a newline is always the
    last byte of its line. *)
Theorem fgets_lines_partition (fp : chars) :
  List.concat (fgets_lines 511 fp) = fp /\ Forall fgets_line (fgets_lines 511 fp).
Proof.
  destruct (fgets_lines_room fp 511 ltac:(lia)) as (Hc & Hf & _). now split.
Qed.

(** ** Removing a record *)

Lemma count_matches_app (name0 : chars) (l1 l2 : list Boat) :
  count_matches name0 (l1 ++ l2) = (count_matches name0 l1 + count_matches name0 l2)%nat.
Proof. unfold count_matches. now rewrite filter_app, length_app. Qed.

Lemma count_matches_perm (name0 : chars) (l l' : list Boat) :
  Permutation l l' -> count_matches name0 l = count_matches name0 l'.
Proof.
  unfold count_matches. induction 1 as [|x l l' _ IH|x y l|l l' l'' _ IH1 _ IH2];
    cbn [filter]; try reflexivity.
  - destruct (caseInsensitiveCompare (name x) name0 =? 0); cbn [List.length]; now rewrite IH.
  - destruct (caseInsensitiveCompare (name x) name0 =? 0),
             (caseInsensitiveCompare (name y) name0 =? 0); reflexivity.
  - now rewrite IH1.
Qed.

Lemma count_matches_no_match (name0 : chars) (l : list Boat) :
  no_match name0 l -> count_matches name0 l = 0%nat.
Proof.
  unfold count_matches. induction l as [|b l IH]; intros Hn; [reflexivity|].
  cbn [filter]. destruct (Z.eqb_spec (caseInsensitiveCompare (name b) name0) 0) as [E|E].
  - exfalso. apply (Hn b); [now left | exact E].
  - apply IH. intros x Hx. apply Hn. now right.
Qed.

(** X7.  [removeBoat] either finds no record of that name and leaves the
    store as it is, or takes out exactly one record: the store has one record
    less, and one record less whose name compares equal to the name typed;
    the others of that name stay. *)
Theorem removeBoat_count `{Libc_qsort} (manager : BoatManager) (buf : chars) :
  (removeBoat manager (Some buf) = (RemoveNoBoat, manager) /\
   count_matches (chomp buf) (boats manager) = 0%nat)
  \/
  (exists m',
     removeBoat manager (Some buf) = (Removed, m') /\
     numBoats m' = numBoats manager - 1 /\
     S (count_matches (chomp buf) (boats m')) = count_matches (chomp buf) (boats manager)).
Proof.
  destruct (find_from_cases (boats manager) (chomp buf)) as [Hn | (pre & b & post & Hm)].
  - left. split; [now apply removeBoat_no_match | now apply count_matches_no_match].
  - right. eexists. split; [exact (removeBoat_first_match _ _ _ _ _ Hm)|].
    destruct Hm as (E & Hn & Hb). split.
    + rewrite sortBoatsByName_numBoats. unfold numBoats. cbn [boats].
      rewrite E, !length_app. cbn [List.length]. lia.
    + rewrite <- (count_matches_perm _ _ _ (sortBoatsByName_perm (mkManager (pre ++ post)))).
      cbn [boats]. rewrite E, !count_matches_app.
      change (b :: post) with ([b] ++ post). rewrite count_matches_app.
      unfold count_matches at 4. cbn [filter]. rewrite Hb. cbn. lia.
Qed.

(** ** Loading into a store *)

Lemma load_line_grows (manager : BoatManager) (line : chars) (m' : BoatManager) :
  load_line manager line = Some m' ->
  numBoats manager <= MAX_BOATS ->
  numBoats m' <= MAX_BOATS /\
  exists added, boats m' = boats manager ++ added /\
                (numBoats manager = MAX_BOATS -> added = []).
Proof.
  unfold load_line. intros E Hle.
  destruct (sscanf_boat line) as [n | bn len ls ds ow |]; try discriminate.
  - injection E as <-. split; [assumption|]. exists []. now rewrite app_nil_r.
  - destruct (Z.ltb_spec (numBoats manager) MAX_BOATS); injection E as <-.
    + split.
      * unfold numBoats in *. cbn [boats]. rewrite length_app. cbn [List.length]. lia.
      * eexists. split; [reflexivity | lia].
    + split; [assumption|]. exists []. now rewrite app_nil_r.
Qed.

Lemma load_lines_grows (lines : list chars) (manager m' : BoatManager) :
  load_lines manager lines = Some m' ->
  numBoats manager <= MAX_BOATS ->
  numBoats m' <= MAX_BOATS /\
  exists added, boats m' = boats manager ++ added /\
                (numBoats manager = MAX_BOATS -> added = []).
Proof.
  revert manager. induction lines as [|line lines IH]; intros manager E Hle.
  - injection E as <-. split; [assumption|]. exists []. now rewrite app_nil_r.
  - cbn [load_lines] in E. destruct (load_line manager line) as [m1|] eqn:E1; [|discriminate].
    destruct (load_line_grows _ _ _ E1 Hle) as (H1 & a1 & Ea1 & Hf1).
    destruct (IH _ E H1) as (H2 & a2 & Ea2 & Hf2).
    split; [assumption|]. exists (a1 ++ a2). split.
    + now rewrite Ea2, Ea1, app_assoc.
    + intros Hfull. specialize (Hf1 Hfull). subst a1. rewrite app_nil_r in Ea1.
      rewrite Hf2; [reflexivity|]. unfold numBoats in *. now rewrite Ea1.
Qed.

(** X8.  [loadFromCSV] only adds records and never fills the store beyond
    [MAX_BOATS]: after the load the store holds the records it held and the
    records read, at most 120 in all; a store that is full keeps exactly its
    records, and a file that cannot be opened leaves the store as it is. *)
Theorem loadFromCSV_capacity `{Libc_qsort} (manager : BoatManager) (fp : chars)
    (m' : BoatManager) :
  loadFromCSV manager None = Some manager /\
  (loadFromCSV manager (Some fp) = Some m' ->
   numBoats manager <= MAX_BOATS ->
   numBoats m' <= MAX_BOATS /\
   exists added,
     Permutation (boats manager ++ added) (boats m') /\
     (numBoats manager = MAX_BOATS -> added = [])).
Proof.
  split; [reflexivity|]. unfold loadFromCSV. intros E Hle.
  destruct (load_lines manager (fgets_lines 511 fp)) as [m1|] eqn:E1; [|discriminate].
  injection E as <-. destruct (load_lines_grows _ _ _ E1 Hle) as (H1 & added & Ea & Hf).
  split.
  - now rewrite sortBoatsByName_numBoats.
  - exists added. split; [|assumption]. rewrite <- Ea. apply sortBoatsByName_perm.
Qed.

Lemma loadFromCSV_capacity_witness :
  numBoats (mkManager (repeat big_brother 120)) <= MAX_BOATS /\
  exists added,
    Permutation (repeat big_brother 120 ++ added) (repeat big_brother 120) /\
    (numBoats (mkManager (repeat big_brother 120)) = MAX_BOATS -> added = []).
Proof.
  apply (proj2 (@loadFromCSV_capacity insertion_qsort (mkManager (repeat big_brother 120))
                  (str "Anna,30,slip,3,100.00" ++ [newline])
                  (mkManager (repeat big_brother 120)))).
  - vm_compute. reflexivity.
  - vm_compute. discriminate.
Defined.

(** ** Operations on the balance *)

Lemma ascending_names (l l' : list Boat) :
  map name l = map name l' ->
  ascending boatCompareByName l -> ascending boatCompareByName l'.
Proof.
  revert l'. induction l as [|b l IH]; intros [|b' l'] E Hs; try discriminate.
  - constructor.
  - cbn [map] in E. injection E as Eb El. inversion Hs as [|? ? Hs' Hall]; subst.
    constructor; [now apply IH|].
    clear IH Hs Hs'. revert l' El. induction Hall as [|x l Hx Hall IH]; intros [|x' l'] El;
      try discriminate; constructor.
    + cbn [map] in El. injection El as Ex _. unfold boatCompareByName in *.
      now rewrite <- Eb, <- Ex.
    + cbn [map] in El. injection El as _ El. now apply IH.
Qed.

Lemma set_amountOwed_forget (idx : nat) (v : double) (l : list Boat) :
  map forget_balance (set_amountOwed idx v l) = map forget_balance l.
Proof.
  revert idx. induction l as [|b l IH]; intros [|i]; cbn [set_amountOwed map];
    try reflexivity; now rewrite ?IH.
Qed.

Lemma forget_balance_names (l l' : list Boat) :
  map forget_balance l = map forget_balance l' -> map name l = map name l'.
Proof.
  intros E. apply (f_equal (map name)) in E. now rewrite !map_map in E.
Qed.

Lemma acceptPayment_forget (manager : BoatManager) (input : option chars)
    (amount : option double) :
  map forget_balance (boats (snd (acceptPayment manager input amount)))
    = map forget_balance (boats manager).
Proof.
  unfold acceptPayment. destruct input as [buf|]; [|reflexivity].
  destruct (findBoatIndex manager (chomp buf) <? 0); [reflexivity|].
  destruct amount as [payment|]; [|reflexivity].
  destruct (nth_error (boats manager) _) as [b|]; [|reflexivity].
  destruct (dgt payment (amountOwed b)); [reflexivity|].
  cbn [snd boats]. apply set_amountOwed_forget.
Qed.

Lemma monthlyUpdate_forget (manager : BoatManager) :
  map forget_balance (boats (monthlyUpdate manager)) = map forget_balance (boats manager).
Proof.
  unfold monthlyUpdate. cbn [boats].
  pose proof (monthly_loop_app [] (boats manager)) as E. cbn [app List.length] in E.
  rewrite E, map_map. reflexivity.
Qed.

(** X9.  [acceptPayment], whatever it answers, and [monthlyUpdate] touch
    balances only: the store keeps its records in the same slots with the same
    name, length, kind and detail, so an array in ascending order of name
    stays in ascending order although neither operation sorts it. *)
Theorem balance_updates_keep_records (manager : BoatManager) (input : option chars)
    (amount : option double) :
  map forget_balance (boats (snd (acceptPayment manager input amount)))
    = map forget_balance (boats manager) /\
  map forget_balance (boats (monthlyUpdate manager)) = map forget_balance (boats manager) /\
  (ascending boatCompareByName (boats manager) ->
   ascending boatCompareByName (boats (snd (acceptPayment manager input amount))) /\
   ascending boatCompareByName (boats (monthlyUpdate manager))).
Proof.
  pose proof (acceptPayment_forget manager input amount) as Ha.
  pose proof (monthlyUpdate_forget manager) as Hm.
  splits; try assumption; intros Hs.
  split; eapply ascending_names; try exact Hs; symmetry; now apply forget_balance_names.
Qed.

Lemma balance_updates_keep_records_witness :
  ascending boatCompareByName
    (boats (snd (acceptPayment (mkManager [anna_slip; big_brother])
                   (Some (str "anna" ++ [newline]))
                   (Some (decimal_to_double false 5000 (-2))))))
  /\ ascending boatCompareByName (boats (monthlyUpdate (mkManager [anna_slip; big_brother]))).
Proof.
  apply (proj2 (proj2 (balance_updates_keep_records (mkManager [anna_slip; big_brother])
                         (Some (str "anna" ++ [newline]))
                         (Some (decimal_to_double false 5000 (-2)))))).
  repeat constructor; vm_compute; discriminate.
Defined.

(** ** The fields that sscanf stores *)

Lemma suffix_refl (s : chars) : suffix s s.
Proof. now exists []. Qed.

Lemma suffix_trans (a b c : chars) : suffix a b -> suffix b c -> suffix a c.
Proof. intros [p ->] [q ->]. exists (q ++ p). now rewrite app_assoc. Qed.

Lemma suffix_cons (c : ascii) (s : chars) : suffix s (c :: s).
Proof. now exists [c]. Qed.

Lemma suffix_tl (s : chars) : suffix (tl s) s.
Proof. destruct s; [apply suffix_refl | apply suffix_cons]. Qed.

Lemma suffix_Forall (P : ascii -> Prop) (r s : chars) :
  suffix r s -> Forall P s -> Forall P r.
Proof. intros [p ->] H. now apply Forall_app in H. Qed.

Lemma suffix_skip_ws (s : chars) : suffix (skip_ws s) s.
Proof.
  induction s as [|c s IH]; [apply suffix_refl|]. cbn [skip_ws].
  destruct (isspace c); [|apply suffix_refl].
  eapply suffix_trans; [exact IH | apply suffix_cons].
Qed.

Lemma suffix_scan_sign (s : chars) : suffix (snd (scan_sign s)) s.
Proof.
  destruct s as [|c s]; [apply suffix_refl|]. unfold scan_sign.
  destruct (code c =? 45); [apply suffix_cons|].
  destruct (code c =? 43); [apply suffix_cons | apply suffix_refl].
Qed.

Lemma suffix_scan_digits (s : chars) (a : Z) : suffix (snd (scan_digits s a)) s.
Proof.
  revert a. induction s as [|c s IH]; intros a; [apply suffix_refl|]. cbn [scan_digits].
  destruct (isdigit c); [|apply suffix_refl].
  eapply suffix_trans; [apply IH | apply suffix_cons].
Qed.

Lemma to_int_range (v : Z) : INT_MIN <= to_int v <= INT_MAX.
Proof.
  unfold to_int, INT_MIN, INT_MAX.
  pose proof (Z.mod_pos_bound (v + 2 ^ 31) (2 ^ 32) ltac:(lia)). lia.
Qed.

Lemma in_int_to_int (v : Z) : in_int (to_int v) = true.
Proof.
  unfold in_int. pose proof (to_int_range v).
  apply andb_true_iff. split; apply Z.leb_le; lia.
Qed.

Lemma scan_int_result (s : chars) (v : Z) (r : chars) :
  scan_int s = Some (v, r) -> suffix r s /\ in_int v = true.
Proof.
  unfold scan_int, strtol.
  pose proof (suffix_skip_ws s) as H1. pose proof (suffix_scan_sign (skip_ws s)) as H2.
  destruct (scan_sign (skip_ws s)) as [neg s']. cbn [snd] in H2.
  destruct (isdigit (cur s')); [|discriminate].
  pose proof (suffix_scan_digits s' 0) as H3.
  destruct (scan_digits s' 0) as [v' r']. cbn [snd] in H3.
  intros [= <- <-]. split; [|apply in_int_to_int].
  eapply suffix_trans; [exact H3|]. eapply suffix_trans; eassumption.
Qed.

Lemma in_int_atoi (s : chars) : in_int (atoi s) = true.
Proof.
  unfold atoi. destruct (strtol (cstr s)) as [[v r]|]; [apply in_int_to_int | reflexivity].
Qed.

Lemma scan_field_split (s f r : chars) :
  scan_field s = (f, r) -> s = f ++ r /\ Forall (fun c => is_comma c = false) f.
Proof.
  revert f r. induction s as [|c s IH]; intros f r; cbn [scan_field].
  - intros [= <- <-]. split; [reflexivity | constructor].
  - destruct (is_comma c) eqn:Hc.
    + intros [= <- <-]. split; [reflexivity | constructor].
    + destruct (scan_field s) as [f' r']. intros [= <- <-].
      destruct (IH f' r' eq_refl) as [-> Hf]. split; [reflexivity | now constructor].
Qed.

Lemma cstr_no_nul (s : chars) : Forall (fun c => is_nul c = false) (cstr s).
Proof.
  induction s as [|c s IH]; [constructor|]. cbn [cstr].
  destruct (is_nul c) eqn:Hc; now constructor.
Qed.

Lemma skip_ws_nonspace_head (s : chars) : isspace (cur (skip_ws s)) = false.
Proof.
  induction s as [|c s IH]; [reflexivity|]. cbn [skip_ws].
  destruct (isspace c) eqn:Hc; [exact IH | exact Hc].
Qed.

(** What [%[^,]] stores, given that the text it reads holds no NUL. *)
Lemma scan_field_text (s f r : chars) (size : Z) :
  Forall (fun c => is_nul c = false) s ->
  scan_field s = (f, r) ->
  nonempty f = true -> fits f size = true ->
  scanned_text f size = true /\ cur f = cur s /\ Forall (fun c => is_nul c = false) r.
Proof.
  intros Hs E Hne Hfit. destruct (scan_field_split _ _ _ E) as [-> Hc].
  apply Forall_app in Hs as [Hf Hr]. splits.
  - unfold scanned_text. rewrite Hne, Hfit, andb_true_r. cbn [andb].
    apply forallb_forall. intros c Hin. unfold field_byte.
    rewrite Forall_forall in Hf, Hc. now rewrite (Hf c Hin), (Hc c Hin).
  - destruct f; [discriminate | reflexivity].
  - exact Hr.
Qed.

Lemma sscanf_boat_fields_shape (line boatName : chars) (len : Z)
    (locStr detailStr : chars) (owed : double) :
  sscanf_boat line = Fields boatName len locStr detailStr owed ->
  scanned_text boatName 128 = true /\
  isspace (cur boatName) = false /\
  in_int len = true /\
  scanned_text locStr 32 = true /\
  scanned_text detailStr 64 = true.
Proof.
  unfold sscanf_boat.
  pose proof (suffix_Forall _ _ _ (suffix_skip_ws (cstr line)) (cstr_no_nul line)) as H0.
  pose proof (skip_ws_nonspace_head (cstr line)) as Hsp.
  destruct (nonempty (skip_ws (cstr line))); cbn [negb]; [|discriminate].
  destruct (scan_field (skip_ws (cstr line))) as [f1 s1] eqn:E1.
  destruct (nonempty f1) eqn:N1; cbn [negb]; [|discriminate].
  destruct (fits f1 128) eqn:F1; cbn [negb]; [|discriminate].
  destruct (scan_field_text _ _ _ _ H0 E1 N1 F1) as (T1 & C1 & H1).
  destruct (is_comma (cur s1)); cbn [negb]; [|discriminate].
  destruct (scan_int (tl s1)) as [[v s2]|] eqn:E2; [|discriminate].
  destruct (scan_int_result _ _ _ E2) as [S2 I2].
  pose proof (suffix_Forall _ _ _ S2 (suffix_Forall _ _ _ (suffix_tl s1) H1)) as H2.
  destruct (is_comma (cur s2)); cbn [negb]; [|discriminate].
  destruct (scan_field (tl s2)) as [f3 s3] eqn:E3.
  destruct (nonempty f3) eqn:N3; cbn [negb]; [|discriminate].
  destruct (fits f3 32) eqn:F3; cbn [negb]; [|discriminate].
  destruct (scan_field_text _ _ _ _ (suffix_Forall _ _ _ (suffix_tl s2) H2) E3 N3 F3)
    as (T3 & _ & H3).
  destruct (is_comma (cur s3)); cbn [negb]; [|discriminate].
  destruct (scan_field (tl s3)) as [f4 s4] eqn:E4.
  destruct (nonempty f4) eqn:N4; cbn [negb]; [|discriminate].
  destruct (fits f4 64) eqn:F4; cbn [negb]; [|discriminate].
  destruct (scan_field_text _ _ _ _ (suffix_Forall _ _ _ (suffix_tl s3) H3) E4 N4 F4)
    as (T4 & _ & H4).
  destruct (is_comma (cur s4)); cbn [negb]; [|discriminate].
  destruct (scan_double (tl s4)) as [[ow r]|]; [|discriminate].
  intros [= <- <- <- <- <-]. splits; try assumption. now rewrite C1.
Qed.

Lemma scanned_text_inv (s : chars) (size : Z) :
  scanned_text s size = true ->
  nonempty s = true /\ Forall (fun c => field_byte c = true) s /\
  Z.of_nat (List.length s) < size.
Proof.
  unfold scanned_text. intros H. apply andb_true_iff in H as [H H3].
  apply andb_true_iff in H as [H1 H2]. rewrite forallb_forall in H2.
  splits; [assumption | now apply Forall_forall | now apply fits_length].
Qed.

Lemma cstr_field_bytes (s : chars) :
  Forall (fun c => field_byte c = true) s -> cstr s = s.
Proof.
  induction 1 as [|c s Hc Hs IH]; [reflexivity|]. cbn [cstr].
  unfold field_byte in Hc. destruct (is_nul c); [discriminate|]. now rewrite IH.
Qed.

Lemma createBoat_ok (boatName : chars) (len : Z) (t : LocationType) (detailStr : chars)
    (owed : double) :
  scanned_text boatName 128 = true ->
  isspace (cur boatName) = false ->
  in_int len = true ->
  scanned_text detailStr 64 = true ->
  record_ok (createBoat boatName len t detailStr owed) = true /\
  name (createBoat boatName len t detailStr owed) = boatName.
Proof.
  intros Hn Hsp Hl Hd.
  destruct (scanned_text_inv _ _ Hn) as (Hn1 & Hn2 & Hn3).
  destruct (scanned_text_inv _ _ Hd) as (Hd1 & Hd2 & Hd3).
  assert (Hcopy : strncpy 127 boatName = boatName).
  { unfold strncpy. rewrite (cstr_field_bytes _ Hn2). apply firstn_all2. lia. }
  unfold createBoat, record_ok. cbn [name length locType detail amountOwed].
  rewrite Hcopy, Hn, Hsp, Hl. cbn [negb andb]. split; [|reflexivity].
  destruct t.
  - apply in_int_atoi.
  - destruct detailStr as [|c ds]; [discriminate|]. cbn [cur].
    now apply Forall_inv in Hd2.
  - unfold strncpy. rewrite (cstr_field_bytes _ Hd2). unfold scanned_text.
    repeat (apply andb_true_iff; split).
    + destruct detailStr; [discriminate | reflexivity].
    + apply forallb_forall. apply Forall_forall.
      rewrite <- (firstn_skipn 31 detailStr) in Hd2. now apply Forall_app in Hd2.
    + unfold fits. apply Z.ltb_lt. pose proof (firstn_le_length 31 detailStr). lia.
  - apply in_int_atoi.
Qed.

Lemma created_record_fields (line boatName : chars) (len : Z) (locStr detailStr : chars)
    (owed : double) :
  sscanf_boat line = Fields boatName len locStr detailStr owed ->
  record_ok (createBoat boatName len (parseLocationType locStr) detailStr owed) = true.
Proof.
  intros E. destruct (sscanf_boat_fields_shape _ _ _ _ _ _ E) as (Hn & Hsp & Hl & _ & Hd).
  now apply createBoat_ok.
Qed.

(** X10.  Whatever the line, when [sscanf] fills the five fields the record
    that [createBoat] makes of them is well shaped: its name is the text of
    the first field, uncut, not empty, without comma and not starting with
    white space; its length is an [int]; its detail is the member of the
    union that belongs to its kind. *)
Theorem created_record_ok (line boatName : chars) (len : Z) (locStr detailStr : chars)
    (owed : double) :
  sscanf_boat line = Fields boatName len locStr detailStr owed ->
  record_ok (createBoat boatName len (parseLocationType locStr) detailStr owed) = true /\
  name (createBoat boatName len (parseLocationType locStr) detailStr owed) = boatName.
Proof.
  intros E. destruct (sscanf_boat_fields_shape _ _ _ _ _ _ E) as (Hn & Hsp & Hl & _ & Hd).
  now apply createBoat_ok.
Qed.

Lemma created_record_ok_witness :
  record_ok (createBoat (str "Foo") 10 (parseLocationType (str "submarine")) (str "5") dzero)
    = true /\
  name (createBoat (str "Foo") 10 (parseLocationType (str "submarine")) (str "5") dzero)
    = str "Foo".
Proof.
  apply (created_record_ok (str "  Foo,10,submarine,5,0.00") (str "Foo") 10
           (str "submarine") (str "5") dzero).
  reflexivity.
Defined.

(** ** The state of the store between two operations *)

Lemma record_ok_forget (b : Boat) : record_ok (forget_balance b) = record_ok b.
Proof. destruct b. reflexivity. Qed.

Lemma records_ok_forget (l l' : list Boat) :
  map forget_balance l' = map forget_balance l ->
  Forall (fun b => record_ok b = true) l -> Forall (fun b => record_ok b = true) l'.
Proof.
  revert l'. induction l as [|b l IH]; intros [|b' l'] E H; try discriminate; constructor.
  - assert (Eb : forget_balance b' = forget_balance b) by (cbn [map] in E; congruence).
    apply Forall_inv in H. cbv beta in *.
    rewrite <- H. transitivity (record_ok (forget_balance b')).
    + symmetry. apply record_ok_forget.
    + rewrite Eb. apply record_ok_forget.
  - assert (El : map forget_balance l' = map forget_balance l) by (cbn [map] in E; congruence).
    apply Forall_inv_tail in H. now apply IH.
Qed.

Lemma numBoats_forget (m m' : BoatManager) :
  map forget_balance (boats m') = map forget_balance (boats m) -> numBoats m' = numBoats m.
Proof.
  intros E. unfold numBoats. apply (f_equal (@List.length Boat)) in E.
  rewrite !length_map in E. now rewrite E.
Qed.

Lemma store_ok_forget (m m' : BoatManager) :
  map forget_balance (boats m') = map forget_balance (boats m) ->
  store_ok m -> store_ok m'.
Proof.
  intros E (Hn & Hr & Hs). unfold store_ok. splits.
  - now rewrite (numBoats_forget _ _ E).
  - now apply records_ok_forget with (boats m).
  - apply ascending_names with (boats m); [|assumption].
    symmetry. now apply forget_balance_names.
Qed.

Lemma store_ok_sorted `{Libc_qsort} (l : list Boat) :
  Z.of_nat (List.length l) <= MAX_BOATS ->
  Forall (fun b => record_ok b = true) l ->
  store_ok (sortBoatsByName (mkManager l)).
Proof.
  intros Hn Hr. unfold store_ok. splits.
  - now rewrite sortBoatsByName_numBoats.
  - eapply Permutation_Forall; [apply (sortBoatsByName_perm (mkManager l)) | exact Hr].
  - apply sortBoatsByName_ascending.
Qed.

Lemma addBoat_store_ok `{Libc_qsort} (manager : BoatManager) (input : option chars)
    (st : AddStatus) (m' : BoatManager) :
  store_ok manager -> addBoat manager input = Some (st, m') -> store_ok m'.
Proof.
  intros Hok. unfold addBoat. destruct input as [line|]; [|now intros [= _ <-]].
  destruct (sscanf_boat (chomp line)) as [n | bn len ls ds ow |] eqn:E; try discriminate.
  - now intros [= _ <-].
  - destruct (Z.geb_spec (numBoats manager) MAX_BOATS) as [Hfull|Hroom];
      [now intros [= _ <-]|].
    intros [= _ <-]. destruct Hok as (Hn & Hr & _). apply store_ok_sorted.
    + rewrite length_app. cbn [List.length]. unfold numBoats in Hroom. lia.
    + apply Forall_app. split; [assumption|].
      constructor; [|constructor]. now apply (created_record_fields _ _ _ _ _ _ E).
Qed.

Lemma removeBoat_store_ok `{Libc_qsort} (manager : BoatManager) (input : option chars) :
  store_ok manager -> store_ok (snd (removeBoat manager input)).
Proof.
  intros Hok. destruct input as [buf|]; [|exact Hok].
  destruct (find_from_cases (boats manager) (chomp buf)) as [Hn | (pre & b & post & Hm)].
  - now rewrite (removeBoat_no_match _ _ Hn).
  - rewrite (removeBoat_first_match _ _ _ _ _ Hm). cbn [snd].
    destruct Hm as (E & _ & _). destruct Hok as (Hn & Hr & _).
    unfold numBoats in Hn. rewrite E in Hn, Hr. apply store_ok_sorted.
    + rewrite length_app in *. cbn [List.length] in Hn. lia.
    + apply Forall_app in Hr as [Hpre Hpost]. apply Forall_inv_tail in Hpost.
      now apply Forall_app.
Qed.

Lemma load_lines_records_ok (lines : list chars) (manager m' : BoatManager) :
  load_lines manager lines = Some m' ->
  Forall (fun b => record_ok b = true) (boats manager) ->
  Forall (fun b => record_ok b = true) (boats m').
Proof.
  revert manager. induction lines as [|line lines IH]; intros manager E Hr.
  - now injection E as <-.
  - cbn [load_lines] in E. destruct (load_line manager line) as [m1|] eqn:E1; [|discriminate].
    apply (IH m1 E). unfold load_line in E1.
    destruct (sscanf_boat line) as [n | bn len ls ds ow |] eqn:Es; try discriminate.
    + now injection E1 as <-.
    + destruct (numBoats manager <? MAX_BOATS); injection E1 as <-; [|assumption].
      cbn [boats]. apply Forall_app. split; [assumption|].
      constructor; [|constructor]. now apply (created_record_fields _ _ _ _ _ _ Es).
Qed.

Lemma loadFromCSV_store_ok `{Libc_qsort} (manager : BoatManager) (file : option chars)
    (m' : BoatManager) :
  store_ok manager -> loadFromCSV manager file = Some m' -> store_ok m'.
Proof.
  intros Hok. unfold loadFromCSV. destruct file as [fp|]; [|now intros [= <-]].
  destruct (load_lines manager (fgets_lines 511 fp)) as [m1|] eqn:E1; [|discriminate].
  intros [= <-]. destruct Hok as (Hn & Hr & _).
  destruct (load_lines_grows _ _ _ E1 Hn) as (Hn1 & _).
  destruct m1 as [l1]. apply store_ok_sorted; [exact Hn1|].
  exact (load_lines_records_ok _ _ _ E1 Hr).
Qed.



(** ** The menu loop *)

Lemma store_ok_empty : store_ok empty_manager.
Proof. unfold store_ok. splits; [vm_compute; discriminate | constructor | constructor]. Qed.

Lemma run_cons {A : Type} (P : A -> Prop) (Q R : Turn -> Prop) (t : Turn)
    (rest : list Turn) (r : Run A) :
  match r with
  | Done a => P a
  | Undefined => Exists Q rest
  | Hangs => Exists R rest
  end ->
  match r with
  | Done a => P a
  | Undefined => Exists Q (t :: rest)
  | Hangs => Exists R (t :: rest)
  end.
Proof. destruct r; intros Hr; [exact Hr | now right | now right]. Qed.

(** The loop ends with a store in order, or at a line that overruns, or at an
    amount with no newline after it. *)
Lemma menu_loop_outcome `{Libc_qsort} (turns : list Turn) (manager : BoatManager) :
  store_ok manager ->
  match menu_loop manager turns with
  | Done m' => store_ok m'
  | Undefined => Exists turn_overruns turns
  | Hangs => Exists (fun t => typed_newline t = false) turns
  end.
Proof.
  revert manager. induction turns as [|t turns IH]; intros manager Hok; cbn [menu_loop].
  - exact Hok.
  - destruct (chomp (typed_cmd t)) as [|c0 cmd]; [now apply run_cons, IH|]. cbv zeta.
    destruct (code (tolower c0) =? 105); [now apply run_cons, IH|].
    destruct (code (tolower c0) =? 97).
    { destruct (addBoat manager (typed_line t)) as [[st m1]|] eqn:E.
      - apply run_cons, IH. now apply (addBoat_store_ok _ _ _ _ Hok E).
      - left. now apply addBoat_undefined in E. }
    destruct (code (tolower c0) =? 114);
      [apply run_cons, IH; now apply removeBoat_store_ok|].
    destruct (code (tolower c0) =? 112).
    { assert (Hp : store_ok (snd (acceptPayment manager (typed_line t) (typed_amount t))))
        by (apply store_ok_forget with manager; [apply acceptPayment_forget | exact Hok]).
      destruct (acceptPayment manager (typed_line t) (typed_amount t)) as [st m1].
      cbn [snd] in Hp.
      destruct st; try (now apply run_cons, IH);
        (destruct (typed_newline t) eqn:En; [now apply run_cons, IH | now left]). }
    destruct (code (tolower c0) =? 109).
    { apply run_cons, IH.
      apply store_ok_forget with manager; [apply monthlyUpdate_forget | exact Hok]. }
    destruct (code (tolower c0) =? 120); [exact Hok | now apply run_cons, IH].
Qed.

Lemma menu_loop_exit `{Libc_qsort} (before : list Turn) (t : Turn) (after : list Turn)
    (manager : BoatManager) :
  is_exit t = true ->
  menu_loop manager (before ++ t :: after) = menu_loop manager (before ++ [t]).
Proof.
  intros Hx. revert manager. induction before as [|u before IH]; intros manager.
  - cbn [app menu_loop]. unfold is_exit in Hx.
    destruct (chomp (typed_cmd t)) as [|c0 cmd]; [discriminate|]. cbv zeta.
    apply Z.eqb_eq in Hx. rewrite Hx. reflexivity.
  - cbn [app menu_loop].
    destruct (chomp (typed_cmd u)) as [|c0 cmd]; [apply IH|]. cbv zeta.
    destruct (code (tolower c0) =? 105); [apply IH|].
    destruct (code (tolower c0) =? 97).
    { destruct (addBoat manager (typed_line u)) as [[st m1]|]; [apply IH | reflexivity]. }
    destruct (code (tolower c0) =? 114); [apply IH|].
    destruct (code (tolower c0) =? 112).
    { destruct (acceptPayment manager (typed_line u) (typed_amount u)) as [st m1].
      destruct st; try apply IH; (destruct (typed_newline u); [apply IH | reflexivity]). }
    destruct (code (tolower c0) =? 109); [apply IH|].
    destruct (code (tolower c0) =? 120); [reflexivity | apply IH].
Qed.



(** ** Adding a record, then looking for it *)

Lemma caseInsensitiveCompare_refl (a : chars) : caseInsensitiveCompare a a = 0.
Proof. rewrite caseInsensitiveCompare_lex. apply lex_refl. Qed.

Lemma first_match_of_member (name0 : chars) (l : list Boat) (b : Boat) :
  In b l -> caseInsensitiveCompare (name b) name0 = 0 ->
  exists pre b' post, first_match name0 l pre b' post.
Proof.
  intros Hin Hb. destruct (find_from_cases l name0) as [Hn|Hm]; [|exact Hm].
  exfalso. exact (Hn b Hin Hb).
Qed.

(** X13.  A record that [addBoat] has added is found under the name that was
    typed: [findBoatIndex] returns an index of the array for it. *)
Theorem addBoat_then_find `{Libc_qsort} (manager : BoatManager) (line : chars)
    (m' : BoatManager) :
  addBoat manager (Some line) = Some (Added, m') ->
  exists boatName len locStr detailStr owed,
    sscanf_boat (chomp line) = Fields boatName len locStr detailStr owed /\
    0 <= findBoatIndex m' boatName < numBoats m'.
Proof.
  intros E. apply addBoat_added in E as (bn & len & ls & ds & ow & Es & _ & ->).
  exists bn, len, ls, ds, ow. split; [exact Es|].
  set (b := createBoat bn len (parseLocationType ls) ds ow).
  set (m' := sortBoatsByName (mkManager (boats manager ++ [b]))).
  assert (Hin : In b (boats m')).
  { eapply Permutation_in; [apply (sortBoatsByName_perm (mkManager (boats manager ++ [b])))|].
    cbn [boats]. apply in_or_app. right. now left. }
  assert (Hb : caseInsensitiveCompare (name b) bn = 0).
  { destruct (sscanf_boat_fields_shape _ _ _ _ _ _ Es) as (Hn & Hsp & Hl & _ & Hd).
    unfold b. rewrite (proj2 (createBoat_ok bn len (parseLocationType ls) ds ow Hn Hsp Hl Hd)).
    apply caseInsensitiveCompare_refl. }
  destruct (first_match_of_member bn (boats m') b Hin Hb) as (pre & b' & post & Hm).
  unfold findBoatIndex. rewrite (find_from_first_match _ _ _ _ _ 0 Hm).
  destruct Hm as (El & _ & _). unfold numBoats. rewrite El, length_app.
  cbn [List.length]. lia.
Qed.

Lemma addBoat_then_find_witness :
  exists boatName len locStr detailStr owed,
    sscanf_boat (chomp (str "Anna,30,slip,3,100.00" ++ [newline]))
      = Fields boatName len locStr detailStr owed /\
    0 <= findBoatIndex (mkManager [anna_slip; big_brother]) boatName
      < numBoats (mkManager [anna_slip; big_brother]).
Proof.
  apply (@addBoat_then_find insertion_qsort (mkManager [big_brother])
           (str "Anna,30,slip,3,100.00" ++ [newline])
           (mkManager [anna_slip; big_brother])).
  reflexivity.
Defined.

(** X14.  Adding a record under a name that no stored record has and then
    removing that name gives back the records the store held before. *)
Theorem addBoat_then_removeBoat `{Libc_qsort} (manager : BoatManager) (line buf : chars)
    (m' : BoatManager) (boatName : chars) (len : Z) (locStr detailStr : chars)
    (owed : double) :
  sscanf_boat (chomp line) = Fields boatName len locStr detailStr owed ->
  addBoat manager (Some line) = Some (Added, m') ->
  no_match boatName (boats manager) ->
  chomp buf = boatName ->
  exists m'',
    removeBoat m' (Some buf) = (Removed, m'') /\
    Permutation (boats manager) (boats m'').
Proof.
  intros Es E Hn Hbuf. rewrite (addBoat_fields _ _ _ _ _ _ _ Es) in E.
  destruct (numBoats manager >=? MAX_BOATS); [discriminate|]. injection E as <-.
  set (b := createBoat boatName len (parseLocationType locStr) detailStr owed).
  set (m' := sortBoatsByName (mkManager (boats manager ++ [b]))).
  pose proof (sortBoatsByName_perm (mkManager (boats manager ++ [b]))) as P.
  cbn [boats] in P. fold m' in P.
  assert (Hb : caseInsensitiveCompare (name b) boatName = 0).
  { destruct (sscanf_boat_fields_shape _ _ _ _ _ _ Es) as (Hnm & Hsp & Hl & _ & Hd).
    unfold b.
    rewrite (proj2 (createBoat_ok boatName len (parseLocationType locStr) detailStr owed
                      Hnm Hsp Hl Hd)).
    apply caseInsensitiveCompare_refl. }
  assert (Hin : In b (boats m')).
  { eapply Permutation_in; [exact P|]. apply in_or_app. right. now left. }
  destruct (first_match_of_member boatName (boats m') b Hin Hb) as (pre & b' & post & Hm).
  assert (Eb : b' = b).
  { destruct Hm as (El & _ & Hb'). assert (Hin' : In b' (boats manager ++ [b])).
    { eapply Permutation_in; [symmetry; exact P|]. rewrite El.
      apply in_or_app. right. now left. }
    apply in_app_or in Hin' as [Hold | [<- | []]]; [|reflexivity].
    exfalso. exact (Hn b' Hold Hb'). }
  subst b'. rewrite <- Hbuf in Hm. eexists.
  split; [exact (removeBoat_first_match _ _ _ _ _ Hm)|].
  destruct Hm as (El & _ & _). rewrite El in P.
  etransitivity; [|apply (sortBoatsByName_perm (mkManager (pre ++ post)))]. cbn [boats].
  apply Permutation_cons_inv with b.
  etransitivity; [|symmetry; apply Permutation_middle].
  etransitivity; [|exact P]. apply Permutation_cons_append.
Qed.

Lemma addBoat_then_removeBoat_witness :
  exists m'',
    @removeBoat insertion_qsort (mkManager [anna_slip; big_brother])
      (Some (str "Anna" ++ [newline])) = (Removed, m'') /\
    Permutation [big_brother] (boats m'').
Proof.
  apply (@addBoat_then_removeBoat insertion_qsort (mkManager [big_brother])
           (str "Anna,30,slip,3,100.00" ++ [newline]) (str "Anna" ++ [newline])
           (mkManager [anna_slip; big_brother])
           (str "Anna") 30 (str "slip") (str "3") (decimal_to_double false 10000 (-2))).
  - reflexivity.
  - reflexivity.
  - no_match_explicit.
  - reflexivity.
Defined.

(** ** The sign and the order of computed balances *)

Lemma binary_round_aux_nonneg (m e : Z) (l : location) :
  0 <= m -> dle dzero (binary_round_aux prec emax false m e l) = true.
Proof.
  intros Hm. unfold binary_round_aux.
  pose proof (shr_fexp_spec m e l Hm) as [Hm2 _].
  destruct (shr_fexp prec emax m e l) as [mrs' e']. cbn [fst] in Hm2.
  pose proof (round_nearest_even_bounds (shr_m mrs') (loc_of_shr_record mrs')) as Hm3.
  set (m3 := round_nearest_even (shr_m mrs') (loc_of_shr_record mrs')) in *.
  assert (H3 : 0 <= m3).
  { assert (0 <= shr_m mrs'); [|lia]. rewrite Hm2. apply Z.div_pos; [assumption|].
    apply Z.pow_pos_nonneg; lia. }
  pose proof (shr_fexp_spec m3 e' loc_Exact H3) as [Hm4 _].
  destruct (shr_fexp prec emax m3 e' loc_Exact) as [mrs'' e'']. cbn [fst] in Hm4.
  assert (H4 : 0 <= shr_m mrs'').
  { rewrite Hm4. apply Z.div_pos; [assumption|]. apply Z.pow_pos_nonneg; lia. }
  destruct (shr_m mrs'') as [|p|p]; [reflexivity | | lia].
  destruct (e'' <=? emax - prec); reflexivity.
Qed.

Lemma binary_round_nonneg (m : positive) (e : Z) :
  dle dzero (binary_round prec emax false m e) = true.
Proof.
  unfold binary_round. destruct (shl_align m e _) as [mz ez].
  apply binary_round_aux_nonneg. lia.
Qed.

Lemma binary_normalize_nonneg (m e : Z) :
  0 <= m -> dle dzero (binary_normalize prec emax m e false) = true.
Proof.
  intros Hm. destruct m as [|p|p]; [reflexivity | apply binary_round_nonneg | lia].
Qed.

Lemma dle_refl_finite (x : double) : is_finite x = true -> dle x x = true.
Proof.
  unfold dle, SFleb. destruct x as [s | s | | [] m e]; try discriminate; intros _;
    try reflexivity; simpl; rewrite Z.compare_refl, Pos.compare_cont_refl; reflexivity.
Qed.

(** Adding a double that is not negative does not give a smaller double. *)
Lemma dadd_nonneg_ge (x c : double) :
  valid_binary prec emax x = true ->
  dle dzero x = true ->
  dle dzero c = true ->
  dle x (dadd x c) = true.
Proof.
  intros Hv Hx Hc.
  destruct x as [sx | [] | | [] mx ex]; try discriminate;
    destruct c as [sc | [] | | [] mc ec]; try discriminate; try reflexivity.
  - destruct sx, sc; reflexivity.
  - apply (dle_refl_finite (S754_finite false mx ex)). reflexivity.
  - unfold dle, dadd, SFadd. cbn [cond_Zopp].
    set (ez := Z.min ex ec).
    assert (Hez : ez <= ex) by (unfold ez; lia).
    set (a := fst (shl_align mx ex ez)). set (b := fst (shl_align mc ec ez)).
    change (Zpos a + Zpos b) with (Zpos (a + b)).
    cbn [binary_normalize].
    apply binary_round_lower; [exact Hv | exact Hez |].
    unfold a. rewrite Pos2Z.inj_add, shl_align_fst by assumption. lia.
Qed.

Lemma double_of_int_nonneg (n : Z) : 0 <= n -> dle dzero (double_of_int n) = true.
Proof. apply binary_normalize_nonneg. Qed.

Lemma dmul_pos_nonneg (mx : positive) (ex : Z) (y : double) :
  dle dzero y = true -> y <> S754_zero true ->
  dle dzero (dmul (S754_finite false mx ex) y) = true.
Proof.
  intros Hy Hy0.
  destruct y as [[] | [] | | [] my ey]; try discriminate; try congruence;
    try reflexivity.
  unfold dmul, SFmul. cbn [xorb]. apply binary_round_aux_nonneg. lia.
Qed.

Lemma rate_positive (t : LocationType) : exists m e, rate t = S754_finite false m e.
Proof. destruct t; eexists; eexists; vm_compute; reflexivity. Qed.

Lemma double_of_int_not_negzero (n : Z) : 0 <= n -> double_of_int n <> S754_zero true.
Proof.
  intros Hn. destruct n as [|p|p]; [discriminate | | lia].
  unfold double_of_int. cbn [binary_normalize]. unfold binary_round.
  destruct (shl_align p 0 _) as [mz ez]. unfold binary_round_aux.
  destruct (shr_fexp prec emax (Zpos mz) ez loc_Exact) as [mrs' e'].
  destruct (shr_fexp prec emax _ e' loc_Exact) as [mrs'' e''].
  destruct (shr_m mrs''); try discriminate.
  destruct (e'' <=? emax - prec); discriminate.
Qed.

Lemma charge_nonneg (b : Boat) : 0 <= length b -> dle dzero (charge b) = true.
Proof.
  intros Hl. rewrite charge_rate.
  destruct (rate_positive (locType b)) as (m & e & ->).
  apply dmul_pos_nonneg; [now apply double_of_int_nonneg | now apply double_of_int_not_negzero].
Qed.

(** X15.  [monthlyUpdate] never lowers the balance of a record whose length is
    not negative and whose balance is not negative: the balance after the
    update is not below the one before (the sum is rounded to a double, and
    rounding does not take it below the old balance). *)
Theorem monthlyUpdate_never_lowers (manager : BoatManager) (i : nat) (b : Boat) :
  nth_error (boats manager) i = Some b ->
  0 <= length b ->
  valid_binary prec emax (amountOwed b) = true ->
  dle dzero (amountOwed b) = true ->
  exists b',
    nth_error (boats (monthlyUpdate manager)) i = Some b' /\
    forget_balance b' = forget_balance b /\
    dle (amountOwed b) (amountOwed b') = true.
Proof.
  intros Hi Hl Hv Hx. unfold monthlyUpdate. cbn [boats].
  pose proof (monthly_loop_app [] (boats manager)) as E. cbn [app List.length] in E.
  rewrite E. exists (set_owed b (dadd (amountOwed b) (charge b))). splits.
  - now rewrite nth_error_map, Hi.
  - reflexivity.
  - cbn [set_owed amountOwed]. apply dadd_nonneg_ge; try assumption.
    now apply charge_nonneg.
Qed.

Lemma monthlyUpdate_never_lowers_witness :
  exists b',
    nth_error (boats (monthlyUpdate (mkManager [skiff; big_brother]))) 1 = Some b' /\
    forget_balance b' = forget_balance big_brother /\
    dle (amountOwed big_brother) (amountOwed b') = true.
Proof.
  apply (monthlyUpdate_never_lowers (mkManager [skiff; big_brother]) 1 big_brother).
  - reflexivity.
  - vm_compute. discriminate.
  - reflexivity.
  - reflexivity.
Defined.

(** ** The balance after a payment *)

Lemma valid_finite_digits (s : bool) (m : positive) (e : Z) :
  valid_binary prec emax (S754_finite s m e) = true ->
  Zpos (digits2_pos m) <= 53 /\ 3 - emax - prec <= e /\
  (3 - emax - prec < e -> Zpos (digits2_pos m) = 53).
Proof.
  cbn [valid_binary]. unfold bounded, canonical_mantissa, fexp, SpecFloat.emin, prec, emax.
  intros H. apply andb_true_iff in H as [H1 _]. apply Z.eqb_eq in H1. lia.
Qed.

(** For doubles that are not negative, [x < p] being false puts the mantissa
    of [p], brought to the smaller exponent, at or below that of [x]. *)
Lemma not_less_aligned (mx : positive) (ex : Z) (mp : positive) (ep : Z) :
  valid_binary prec emax (S754_finite false mx ex) = true ->
  valid_binary prec emax (S754_finite false mp ep) = true ->
  SFltb (S754_finite false mx ex) (S754_finite false mp ep) = false ->
  Zpos (fst (shl_align mp ep (Z.min ex ep))) <= Zpos (fst (shl_align mx ex (Z.min ex ep))).
Proof.
  intros Hvx Hvp Hlt.
  destruct (valid_finite_digits _ _ _ Hvx) as (Hdx & Hex & Hnx).
  destruct (valid_finite_digits _ _ _ Hvp) as (Hdp & Hep & _).
  rewrite !shl_align_fst by lia.
  unfold SFltb, SFcompare in Hlt.
  destruct (Z.compare_spec ex ep) as [E|E|E]; [|discriminate|].
  - subst ep. rewrite Z.min_id, Z.sub_diag, Z.pow_0_r, !Z.mul_1_r.
    change (Pos.compare_cont Eq mx mp) with (Pos.compare mx mp) in Hlt.
    destruct (Pos.compare_spec mx mp); try discriminate; lia.
  - rewrite Z.min_r by lia. rewrite Z.sub_diag, Z.pow_0_r, Z.mul_1_r.
    pose proof (digits2_pos_bound mp) as Hu. pose proof (digits2_pos_lower mx) as Hlo.
    rewrite Hnx in Hlo by lia.
    assert (Hp : Zpos mp < 2 ^ 53).
    { eapply Z.lt_le_trans; [exact Hu|]. apply Z.pow_le_mono_r; lia. }
    assert (Hk : 2 ^ 1 <= 2 ^ (ex - ep)) by (apply Z.pow_le_mono_r; lia).
    change (2 ^ 1) with 2 in Hk. change (2 ^ (53 - 1)) with (2 ^ 52) in Hlo.
    change (2 ^ 53) with (2 * 2 ^ 52) in Hp. nia.
Qed.

(** A payment that is not above a balance that is not negative leaves a
    balance that is not negative. *)
Lemma dsub_not_above_nonneg (x p : double) :
  valid_binary prec emax x = true ->
  valid_binary prec emax p = true ->
  dle dzero x = true ->
  is_finite p = true ->
  dgt p x = false ->
  dle dzero (dsub x p) = true.
Proof.
  intros Hvx Hvp Hx Hp Hgt. unfold dgt in Hgt.
  destruct x as [sx | [] | | [] mx ex]; try discriminate;
    destruct p as [sp | sp | | sp mp ep]; try discriminate.
  - destruct sx, sp; reflexivity.
  - destruct sp; [reflexivity | discriminate].
  - reflexivity.
  - reflexivity.
  - reflexivity.
  - unfold dsub, SFsub. destruct sp; cbn [cond_Zopp].
    + apply binary_normalize_nonneg. lia.
    + apply binary_normalize_nonneg.
      pose proof (not_less_aligned mx ex mp ep Hvx Hvp Hgt). lia.
Qed.

(** X16.  The test against the amount owed keeps balances from going below
    zero: when the first record of the name typed owes a balance that is not
    negative and [acceptPayment] accepts a payment, a finite number of either
    sign, the balance it stores is not negative. *)
Theorem acceptPayment_keeps_nonnegative (manager : BoatManager) (buf : chars)
    (payment : double) (pre : list Boat) (b : Boat) (post : list Boat) :
  first_match (chomp buf) (boats manager) pre b post ->
  valid_binary prec emax (amountOwed b) = true ->
  valid_binary prec emax payment = true ->
  dle dzero (amountOwed b) = true ->
  is_finite payment = true ->
  fst (acceptPayment manager (Some buf) (Some payment)) = Paid ->
  exists b',
    boats (snd (acceptPayment manager (Some buf) (Some payment))) = pre ++ b' :: post /\
    forget_balance b' = forget_balance b /\
    dle dzero (amountOwed b') = true.
Proof.
  intros Hm Hvx Hvp Hx Hp. rewrite (acceptPayment_first_match _ _ _ _ _ _ Hm).
  destruct (dgt payment (amountOwed b)) eqn:Hgt; [discriminate|]. intros _.
  exists (set_owed b (dsub (amountOwed b) payment)). splits; try reflexivity.
  cbn [set_owed amountOwed]. now apply dsub_not_above_nonneg.
Qed.

Lemma acceptPayment_keeps_nonnegative_witness :
  exists b',
    boats (snd (acceptPayment (mkManager [anna_slip; big_brother])
                  (Some (str "BIG BROTHER" ++ [newline]))
                  (Some (decimal_to_double false 119999 (-2)))))
      = [anna_slip] ++ b' :: [] /\
    forget_balance b' = forget_balance big_brother /\
    dle dzero (amountOwed b') = true.
Proof.
  apply (acceptPayment_keeps_nonnegative (mkManager [anna_slip; big_brother])
           (str "BIG BROTHER" ++ [newline]) (decimal_to_double false 119999 (-2))
           [anna_slip] big_brother []).
  - first_match_explicit.
  - reflexivity.
  - reflexivity.
  - reflexivity.
  - reflexivity.
  - reflexivity.
Defined.

(** ** printInventory *)

Lemma pad_left_length (width : nat) (s : chars) :
  (List.length s <= width)%nat -> List.length (pad_left width s) = width.
Proof. intros H. unfold pad_left. rewrite length_app, repeat_length. lia. Qed.

Lemma pad_right_length (width : nat) (s : chars) :
  (List.length s <= width)%nat -> List.length (pad_right width s) = width.
Proof. intros H. unfold pad_right. rewrite length_app, repeat_length. lia. Qed.

Lemma fmt_d_two_digits (n : Z) : 0 <= n <= 99 -> (List.length (fmt_d n) <= 2)%nat.
Proof.
  intros Hn. destruct (fmt_d_spec n) as (ds & E & _ & _ & _ & Hk). rewrite E.
  destruct (Z.ltb_spec n 0); [lia|]. cbn [app].
  assert (Z.of_nat (List.length ds) <= 2); [|lia].
  apply Hk; [lia|]. change (10 ^ 2) with 100. lia.
Qed.

Lemma tabular_inv (b : Boat) :
  tabular b = true ->
  (List.length (cstr (name b)) <= 22)%nat /\
  0 <= length b <= 99 /\
  0 <= detail_int (detail b) <= 99 /\
  (List.length (cstr (detail_licenseTag (detail b))) <= 6)%nat /\
  (List.length (fmt_2f (amountOwed b)) <= 7)%nat.
Proof.
  unfold tabular. intros H.
  apply andb_true_iff in H as [H Ha]. apply andb_true_iff in H as [H Hd].
  apply andb_true_iff in H as [H Hl2]. apply andb_true_iff in H as [Hn Hl1].
  apply Nat.leb_le in Hn, Ha. apply Z.leb_le in Hl1, Hl2.
  splits; try lia.
  - destruct (locType b), (detail b); try discriminate; cbn [detail_int]; try lia;
      apply andb_true_iff in Hd as [Hd _]; apply Z.leb_le in Hd; lia.
  - destruct (locType b), (detail b); try discriminate; cbn [detail_int]; try lia;
      apply andb_true_iff in Hd as [_ Hd]; apply Z.leb_le in Hd; lia.
  - destruct (locType b), (detail b); try discriminate; cbn [detail_licenseTag cstr List.length];
      try lia. now apply Nat.leb_le in Hd.
Qed.

Lemma printf_boat_length (b : Boat) : tabular b = true -> List.length (printf_boat b) = 58%nat.
Proof.
  intros Ht. destruct (tabular_inv b Ht) as (Hn & Hl & Hd & Htag & Ha).
  pose proof (fmt_d_two_digits _ Hl) as Hl2. pose proof (fmt_d_two_digits _ Hd) as Hd2.
  unfold printf_boat.
  set (amount := fmt_2f (amountOwed b)) in *. clearbody amount.
  set (len := fmt_d (length b)) in *. clearbody len.
  set (num := fmt_d (detail_int (detail b))) in *. clearbody num.
  destruct (locType b); rewrite !length_app, ?pad_right_length, ?pad_left_length by assumption;
    reflexivity.
Qed.

(** X17.  [printInventory] prints a table: for records that fit its columns
    every line has 58 bytes and starts with the name, filled up with spaces to
    22 columns and followed by one more space, so the output has
    58 * numBoats + 1 bytes, the last one the newline after the table. *)
Theorem printInventory_table (manager : BoatManager) :
  forallb tabular (boats manager) = true ->
  Z.of_nat (List.length (printInventory manager)) = 58 * numBoats manager + 1 /\
  (forall b, In b (boats manager) ->
     List.length (printf_boat b) = 58%nat /\
     firstn 23 (printf_boat b)
       = cstr (name b) ++ repeat space (23 - List.length (cstr (name b)))).
Proof.
  intros Ht. rewrite forallb_forall in Ht. split.
  - unfold printInventory, numBoats. rewrite length_app. cbn [List.length].
    assert (E : List.length (List.concat (map printf_boat (boats manager)))
                = (58 * List.length (boats manager))%nat).
    { induction (boats manager) as [|b l IH]; [reflexivity|].
      cbn [map List.concat]. rewrite length_app, IH, (printf_boat_length b).
      - cbn [List.length]. lia.
      - apply Ht. now left.
      - intros x Hx. apply Ht. now right. }
    rewrite E. lia.
  - intros b Hb. specialize (Ht b Hb). split; [now apply printf_boat_length|].
    destruct (tabular_inv b Ht) as (Hn & _).
    unfold printf_boat, pad_right. rewrite <- !app_assoc.
    rewrite firstn_app, firstn_all2 by lia. f_equal.
    rewrite firstn_app, repeat_length.
    rewrite firstn_all2 by (rewrite repeat_length; lia).
    replace (23 - List.length (cstr (name b)) - (22 - List.length (cstr (name b))))%nat
      with 1%nat by lia.
    cbn [app firstn].
    replace (23 - List.length (cstr (name b)))%nat
      with ((22 - List.length (cstr (name b))) + 1)%nat by lia.
    now rewrite repeat_app.
Qed.

Lemma printInventory_table_witness :
  Z.of_nat (List.length (printInventory (mkManager [anna_slip; big_brother])))
    = 58 * numBoats (mkManager [anna_slip; big_brother]) + 1.
Proof.
  apply (printInventory_table (mkManager [anna_slip; big_brother])). reflexivity.
Defined.

(** ** Saving and loading again, whatever the balances *)

Lemma tolower_not_upper (c : ascii) : isupper c = false -> tolower c = c.
Proof. unfold tolower. now intros ->. Qed.

Lemma isdigit_not_upper (c : ascii) : isdigit c = true -> isupper c = false.
Proof.
  unfold isdigit, isupper. intros H. apply andb_true_iff in H as [H1 H2].
  apply Z.leb_le in H1, H2. apply andb_false_iff. left. apply Z.leb_gt. lia.
Qed.

Lemma isdigit_code (c : ascii) : isdigit c = true -> 48 <= code c <= 57.
Proof.
  unfold isdigit. intros H. apply andb_true_iff in H as [H1 H2].
  apply Z.leb_le in H1, H2. lia.
Qed.

(** [%lf] on a signed decimal constant with a period in it, before a
    newline. *)
Lemma scan_double_decimal (s : bool) (ds fr : chars) :
  ds <> [] ->
  Forall (fun c => isdigit c = true) ds ->
  Forall (fun c => isdigit c = true) fr ->
  scan_double ((if s then [minus] else []) ++ ds ++ period :: fr ++ [newline])
    = Some (decimal_to_double s (horner fr (horner ds 0)) (0 - Z.of_nat (List.length fr)),
            [newline]).
Proof.
  intros Hne Hd Hf. unfold scan_double.
  assert (Hsign : scan_sign (skip_ws ((if s then [minus] else []) ++
                                      ds ++ period :: fr ++ [newline]))
                  = (s, ds ++ period :: fr ++ [newline])).
  { destruct ds as [|d ds]; [congruence|]. pose proof (Forall_inv Hd) as Hd0. simpl in Hd0.
    destruct s; cbn [app].
    - rewrite (skip_ws_nonspace minus) by reflexivity. apply scan_sign_minus.
    - rewrite (skip_ws_nonspace d) by now apply isdigit_not_space.
      destruct (isdigit_not_sign d Hd0) as [Hm Hp]. unfold scan_sign. now rewrite Hm, Hp. }
  rewrite Hsign. cbv iota beta zeta.
  set (body := ds ++ period :: fr ++ [newline]).
  assert (Hc : 48 <= code (tolower (cur body)) <= 57).
  { subst body. destruct ds as [|d ds]; [congruence|]. cbn [app cur].
    pose proof (Forall_inv Hd) as Hd0. simpl in Hd0.
    rewrite (tolower_not_upper d) by now apply isdigit_not_upper.
    now apply isdigit_code. }
  assert (Hx : code (tolower (cur (tl body))) <> 120).
  { subst body. destruct ds as [|d [|d' ds]]; [congruence| |]; cbn [app tl cur].
    - change (code (tolower period)) with 46. lia.
    - pose proof (Forall_inv (Forall_inv_tail Hd)) as Hd1. simpl in Hd1.
      rewrite (tolower_not_upper d') by now apply isdigit_not_upper.
      apply isdigit_code in Hd1. lia. }
  destruct (Z.eqb_spec (code (tolower (cur body))) 105); [lia|].
  destruct (Z.eqb_spec (code (tolower (cur body))) 110); [lia|].
  destruct (Z.eqb_spec (code (tolower (cur (tl body)))) 120); [contradiction|].
  rewrite andb_false_r.
  assert (Hman : scan_mantissa scan_digits body
                 = (horner fr (horner ds 0), Z.of_nat (List.length fr),
                    Z.of_nat (List.length ds) + Z.of_nat (List.length fr), [newline])).
  { subst body. unfold scan_mantissa.
    rewrite (scan_digits_run ds (period :: fr ++ [newline]) 0 Hd) by reflexivity.
    change (code period =? 46) with true. cbv iota.
    rewrite (scan_digits_run fr [newline] (horner ds 0) Hf) by reflexivity.
    unfold consumed. rewrite !length_app. cbn [List.length].
    rewrite !length_app. cbn [List.length].
    repeat (f_equal; try lia). }
  rewrite Hman.
  destruct (Z.eqb_spec (Z.of_nat (List.length ds) + Z.of_nat (List.length fr)) 0) as [E|_].
  { destruct ds; [congruence | cbn [List.length] in E; lia]. }
  reflexivity.
Qed.


(** [%lf] reads the whole of what [%.2f] printed. *)
Lemma scan_double_fmt_2f (x : double) :
  valid_binary prec emax x = true ->
  scan_double (fmt_2f x ++ [newline]) = Some (two_decimal_value x, [newline]).
Proof.
  intros Hv. pose proof (hundredths_bounds x Hv) as [Hh _].
  destruct x as [s | s | | s m e];
    try (destruct s; reflexivity); try reflexivity.
  unfold fmt_2f, two_decimal_value. cbn [sign_bit].
  set (h := hundredths (S754_finite s m e)) in *. clearbody h.
  assert (Hq : 0 <= h / 100) by (apply Z.div_pos; lia).
  destruct (fmt_nat_spec _ Hq) as (ds & -> & Hne & Hd & Hhorner & _).
  pose proof (Z.mod_pos_bound h 100 ltac:(lia)) as Hm100.
  pose proof (Z.mod_pos_bound h 10 ltac:(lia)) as Hm10.
  assert (Hd1 : 0 <= h mod 100 / 10 <= 9).
  { split; [apply Z.div_pos; lia|]. apply Z.lt_succ_r, Z.div_lt_upper_bound; lia. }
  assert (Hd2 : 0 <= h mod 10 <= 9) by lia.
  rewrite <- !app_assoc. cbn [app].
  change [digit_char (h mod 100 / 10); digit_char (h mod 10); newline]
    with ([digit_char (h mod 100 / 10); digit_char (h mod 10)] ++ [newline]).
  rewrite scan_double_decimal; try assumption.
  - cbn [horner List.length]. rewrite Hhorner, !digit_char_code by assumption.
    do 2 f_equal. f_equal.
    pose proof (Z.div_mod h 100 ltac:(lia)).
    pose proof (Z.div_mod (h mod 100) 10 ltac:(lia)).
    assert (h mod 100 mod 10 = h mod 10).
    { apply Z.mod_mod_divide. exists 10. reflexivity. }
    lia.
  - repeat constructor; now apply digit_char_isdigit.
Qed.

Lemma writable_forget (b : Boat) : writable b = true -> storable (forget_balance b) = true.
Proof.
  unfold writable, storable, forget_balance, set_owed.
  cbn [name length locType detail amountOwed]. intros H.
  apply andb_true_iff in H as [H _]. rewrite H. reflexivity.
Qed.

Lemma createBoat_owed (nm : chars) (len : Z) (t : LocationType) (det : chars)
    (x y : double) (b : Boat) :
  createBoat nm len t det x = b -> createBoat nm len t det y = set_owed b y.
Proof. intros <-. reflexivity. Qed.

(** The line written for a writable record is read back as that record with
    the value of the two-decimal text of its balance. *)
Lemma fprintf_boat_rereads (b : Boat) :
  writable b = true ->
  whole_line (fprintf_boat b) /\
  forall manager,
    load_line manager (fprintf_boat b) =
      Some (if numBoats manager <? MAX_BOATS
            then mkManager (boats manager ++ [reread b]) else manager).
Proof.
  intros Hw.
  assert (Hv : valid_binary prec emax (amountOwed b) = true).
  { unfold writable in Hw. now apply andb_true_iff in Hw as [_ Hw]. }
  destruct (storable_inv _ (writable_forget b Hw))
    as (Hn & Hname & Hsp & Hlen & Hkind & Hparse & Hdet & Hdl & Hmk & _ & _).
  change (name (forget_balance b)) with (name b) in *.
  change (length (forget_balance b)) with (length b) in *.
  change (locType (forget_balance b)) with (locType b) in *.
  change (detail_text (forget_balance b)) with (detail_text b) in *.
  change (amountOwed (forget_balance b)) with dzero in Hmk.
  pose proof (fmt_2f_plain _ Hv) as Hplain.
  pose proof (fmt_2f_length _ Hv) as Hal.
  rewrite fprintf_boat_shape, (cstr_plain _ Hn). split.
  - exists (name b ++ [comma] ++ fmt_d (length b) ++ [comma] ++
            locationTypeString (locType b) ++ [comma] ++ detail_text b ++ [comma] ++
            fmt_2f (amountOwed b)).
    splits.
    + now rewrite <- !app_assoc.
    + destruct (field_text_inv _ _ Hkind) as (_ & Hk & _).
      destruct (field_text_inv _ _ Hdet) as (_ & Hd & _).
      pose proof (fmt_d_plain (length b)) as Hl.
      set (amount := fmt_2f (amountOwed b)) in *. clearbody amount.
      set (len := fmt_d (length b)) in *. clearbody len.
      repeat (apply Forall_app; split);
        first [ now apply plain_not_newline | repeat constructor ].
    + destruct (field_text_inv _ _ Hname) as (_ & _ & Hf). apply fits_length in Hf.
      pose proof (fmt_d_length _ (in_int_range _ Hlen)).
      pose proof (locationTypeString_length (locType b)).
      rewrite !length_app. cbn [List.length]. lia.
  - intros manager.
    rewrite (load_line_fields manager _ (name b) (length b)
               (locationTypeString (locType b)) (detail_text b)
               (two_decimal_value (amountOwed b))).
    + rewrite Hparse.
      now rewrite (createBoat_owed _ _ _ _ _ (two_decimal_value (amountOwed b)) _ Hmk).
    + apply sscanf_boat_line with [newline]; try assumption.
      * now apply in_int_range.
      * now rewrite (cstr_app_plain _ _ Hplain).
      * now apply scan_double_fmt_2f.
Qed.

Lemma load_lines_writable (l : list Boat) (manager : BoatManager) :
  forallb writable l = true ->
  numBoats manager + Z.of_nat (List.length l) <= MAX_BOATS ->
  load_lines manager (map fprintf_boat l)
    = Some (mkManager (boats manager ++ map reread l)).
Proof.
  revert manager. induction l as [|b l IH]; intros manager Hs Hroom.
  - cbn [map load_lines]. rewrite app_nil_r. now destruct manager.
  - cbn [forallb] in Hs. apply andb_true_iff in Hs as [Hb Hs].
    cbn [map load_lines]. rewrite (proj2 (fprintf_boat_rereads b Hb) manager).
    cbn [List.length] in Hroom.
    destruct (Z.ltb_spec (numBoats manager) MAX_BOATS); [|lia].
    rewrite IH; [| assumption |].
    + cbn [boats]. now rewrite <- app_assoc.
    + unfold numBoats in *. cbn [boats]. rewrite length_app. cbn [List.length]. lia.
Qed.


